(** * Trend-following strategy engine: a shallow embedding of
      [strategy_engine.py] (with the price look-ups of [db_client.py] it
      relies on) and the properties of its phase controller, leg monitor
      and order executor.

    Conventions of the embedding.
    - Python numbers that hold prices and percentages are binary64 floats
      ([PrimFloat.float]); the integer literal [0] the source stores in a
      price field is the float [0].  Counters, lot counts and tokens are
      unbounded integers ([Z]).
    - A leg is a Python dict; the keys the start-up placeholder lacks are
      [option] fields, and reading an absent key raises [KeyError].
    - [self.state] and the JSON file are the two components [mem] and [disk]
      of a [World]; the third, [trace], records every order handed to the
      gateway and every paper trade, in program order.
    - Every external answer of one loop iteration (clock, settings, market
      data rows, gateway replies) is a field of [Env].
    - [asyncio.gather] over per-leg tasks is run in task order: a task only
      touches its own leg, and an exception of one task does not cancel the
      others.
    - The settings are a typed record (every key of [config.json] present,
      directions and statuses drawn from their enumerations, times already
      split at the colon), and they do not change within one iteration.
    - Writing the state file and reading it back gives the state written. *)

From Stdlib Require Import ZArith List String Bool Lia.
From Stdlib Require Import PrimFloat Uint63 SpecFloat FloatOps FloatAxioms.
From Stdlib Require Import Ascii DecimalString.
Import ListNotations.

Local Open Scope string_scope.
Local Open Scope Z_scope.

(** ** Python values *)

(** [bool(x)] for a float: false exactly for [0.0] and [-0.0]. *)
Definition truthy (x : float) : bool := negb (PrimFloat.eqb x 0%float).

(** [bool(x)] for an [Optional[float]]. *)
Definition truthy_opt (x : option float) : bool :=
  match x with
  | Some v => truthy v
  | None => false
  end.

(** [bool(s)] for an [Optional[str]]: [None] and the empty string are false. *)
Definition truthy_str (x : option string) : bool :=
  match x with
  | Some EmptyString => false
  | Some _ => true
  | None => false
  end.

Inductive Exn : Type :=
| KeyError (key : string)
| ValueError (what : string)
| ZeroDivisionError
| OverflowError
| DbError (what : string).

Inductive Res (A : Type) : Type :=
| Ok (a : A)
| Raise (e : Exn).

Arguments Ok {A} a.
Arguments Raise {A} e.

(** The conversion of an [int] to a [float], as an operation between a
    float and an int performs it: the nearest binary64 value, ties to the
    even one, and [OverflowError] when that is not finite (from
    [2^1024 - 2^970] on). *)
Definition float_of_Z (n : Z) : Res float :=
  match binary_normalize prec emax n 0 false with
  | S754_infinity _ => Raise OverflowError
  | sf => Ok (SF2Prim sf)
  end.

(** Rounding of the exact value [m * 2^e] to the nearest integer, ties to
    the even one. *)
Definition round_half_even (m e : Z) : Z :=
  if 0 <=? e then m * 2 ^ e
  else
    let d := 2 ^ (- e) in
    let q := m / d in
    let r := m mod d in
    if 2 * r <? d then q
    else if d <? 2 * r then q + 1
    else if Z.even q then q else q + 1.

(** Python's one-argument [round] on a float. *)
Definition py_round (x : float) : Res Z :=
  match Prim2SF x with
  | S754_zero _ => Ok 0
  | S754_infinity _ => Raise OverflowError
  | S754_nan => Raise (ValueError "cannot convert float NaN to integer")
  | S754_finite s m e =>
      let v := round_half_even (Z.pos m) e in
      Ok (if s then - v else v)
  end.

(** [key in d] / [d[key]] on a dict kept as an association list. *)
Fixpoint assoc_get {V : Type} (k : string) (d : list (string * V)) : option V :=
  match d with
  | [] => None
  | (k', v) :: d' => if String.eqb k k' then Some v else assoc_get k d'
  end.

(** [d[key] = v]: replaces the value in place, or appends a new item. *)
Fixpoint assoc_set {V : Type} (k : string) (v : V) (d : list (string * V))
  : list (string * V) :=
  match d with
  | [] => [(k, v)]
  | (k', v') :: d' =>
      if String.eqb k k' then (k', v) :: d' else (k', v') :: assoc_set k v d'
  end.

(** [needle in hay] for strings. *)
Fixpoint str_contains (needle hay : string) : bool :=
  if String.prefix needle hay then true
  else match hay with
       | EmptyString => false
       | String _ rest => str_contains needle rest
       end.

(** ** [datetime.time] *)

Record time : Type := mk_time_raw {
  hour : Z;
  minute : Z;
  second : Z;
  microsecond : Z
}.

(** The constructor [time(h, m)]; it rejects fields out of range. *)
Definition mk_time (h m : Z) : Res time :=
  if negb ((0 <=? h) && (h <=? 23)) then Raise (ValueError "hour must be in 0..23")
  else if negb ((0 <=? m) && (m <=? 59)) then Raise (ValueError "minute must be in 0..59")
  else Ok (mk_time_raw h m 0 0).

Definition time_key (t : time) : Z :=
  ((hour t * 60 + minute t) * 60 + second t) * 1000000 + microsecond t.

(** [a < b] and [a >= b] on times. *)
Definition time_ltb (a b : time) : bool := time_key a <? time_key b.
Definition time_geb (a b : time) : bool := time_key b <=? time_key a.

(** [(datetime.combine(today, t) + timedelta(minutes=n)).time()]: the
    minutes carry into the hour, and the hour wraps at midnight.  The
    number of minutes is taken to leave the sum a date that [datetime] can
    hold (years 1 to 9999); beyond that the source raises
    [OverflowError]. *)
Definition time_add_minutes (t : time) (n : Z) : time :=
  let total := (hour t * 60 + minute t + n) mod 1440 in
  mk_time_raw (total / 60) (total mod 60) (second t) (microsecond t).

(** ** Settings ([config.json]) *)

Inductive Action : Type := BUY | SELL.

Record LegConfig : Type := {
  cfg_lots : Z;
  percentage_of_straddle : float;
  expiry_type : string;
  cfg_action : Action;
  sl_percentage : float;
  entry_trigger_percentage : float;
  reentry_trigger_percentage : float
}.

(** The four "HH:MM" entries, already split into hour and minute. *)
Record TimeRange : Type := {
  tr_start : Z * Z;
  tr_end : Z * Z;
  check_condition : Z * Z;
  strategy_exit : Z * Z
}.

Record StrategyParameters : Type := {
  gap_check_window_minutes : Z;
  exit_check_window_minutes : Z;
  default_buffer_minutes : Z;
  default_strike_step : Z
}.

Record Settings : Type := {
  cfg_instrument : string;
  strike_step : Z;
  cfg_global_lots : Z;
  lot_sizes : list (string * Z);
  paper_trading : bool;
  time_range : TimeRange;
  buffer_minutes : Z;
  strategy_parameters : StrategyParameters;
  instrument_map : list (string * string);
  cfg_legs : list (string * LegConfig)
}.

Record Config : Type := {
  is_running : bool;
  strategy_settings : Settings
}.

(** ** Runtime state *)

Inductive Phase : Type := IDLE | MONITORING_RANGE | ACTIVE.

Inductive LegStatus : Type :=
| L_IDLE
| WAITING_RANGE
| WAITING_ENTRY
| L_ACTIVE
| WAITING_REENTRY
| EXITED
| DONE.

Record Leg : Type := {
  strike : float;
  token : Z;
  symbol : string;
  expiry : option string;
  action : option Action;
  ref_premium : option float;
  status : LegStatus;
  range_high : float;
  range_low : float;
  entry_price : float;
  sl_price : float;
  lots : Z;
  sl_pct : option float;
  entry_trigger_pct : option float;
  reentry_trigger_pct : option float;
  entries_count : option Z;
  exit_price : option float;
  exit_reason : option string
}.

Record State : Type := {
  st_status : Phase;
  st_legs : list (string * Leg);
  current_phase : option string;
  selected_expiry : option string;
  exit_triggered : bool;
  st_instrument : option string
}.

(** The dict built by [__init__]. *)
Definition initial_state : State := {|
  st_status := IDLE;
  st_legs := [];
  current_phase := None;
  selected_expiry := None;
  exit_triggered := false;
  st_instrument := None
|}.

(** An order as handed to [AngelClient.place_order]. *)
Record OrderReq : Type := {
  o_symbol : string;
  o_token : Z;
  o_side : Action;
  o_qty : Z
}.

Inductive Event : Type :=
| EvOrder (req : OrderReq) (reply : option string)
| EvPaper (req : OrderReq) (price : float).

Record World : Type := {
  mem : State;
  disk : option State;
  trace : list Event
}.

(** A row of [get_available_strikes_at]. *)
Record Candidate : Type := {
  strike_price : float;
  last_price : float;
  cand_token : Z;
  cand_symbol : string
}.

(** The answers of the outside world during one loop iteration.  The
    [q_] fields are raw query results; a [Raise] is a failed query. *)
Record Env : Type := {
  env_now : time;
  env_config : option Config;
  q_spot_at : string -> time -> Res (option float);
  q_option_latest : Z -> Res (option (float * Z));
  q_option_at : Z -> time -> Res (option float);
  q_active_expiries : string -> Res (list string);
  q_token_for_strike : string -> Z -> string -> string -> Res (option Z);
  q_strikes_at : string -> string -> string -> time -> Res (list Candidate);
  q_range_high_low : Z -> time -> time -> Res (option (float * float));
  gateway : OrderReq -> option string
}.

(** ** The state-and-exception monad of the engine *)

Definition M (A : Type) : Type := World -> Res A * World.

Definition ret {A : Type} (a : A) : M A := fun w => (Ok a, w).

Definition bind {A B : Type} (m : M A) (k : A -> M B) : M B :=
  fun w =>
    match m w with
    | (Ok a, w') => k a w'
    | (Raise e, w') => (Raise e, w')
    end.

Definition raise {A : Type} (e : Exn) : M A := fun w => (Raise e, w).

(** [try: m  except Exception: h]. *)
Definition catch {A : Type} (m : M A) (h : Exn -> M A) : M A :=
  fun w =>
    match m w with
    | (Ok a, w') => (Ok a, w')
    | (Raise e, w') => h e w'
    end.

Definition lift {A : Type} (r : Res A) : M A := fun w => (r, w).

Declare Scope engine_scope.
Delimit Scope engine_scope with engine.
Notation "x <- m ;; k" := (bind m (fun x => k))
  (at level 61, m at next level, right associativity) : engine_scope.
Notation "m ;;; k" := (bind m (fun _ => k))
  (at level 61, right associativity) : engine_scope.
Local Open Scope engine_scope.

Definition get_state : M State := fun w => (Ok (mem w), w).

Definition modify_state (f : State -> State) : M unit :=
  fun w => (Ok tt, {| mem := f (mem w); disk := disk w; trace := trace w |}).

Definition emit (ev : Event) : M unit :=
  fun w => (Ok tt, {| mem := mem w; disk := disk w; trace := trace w ++ [ev] |}).

(** [when c: m]. *)
Definition when (c : bool) (m : M unit) : M unit := if c then m else ret tt.

(** [asyncio.gather] over a task list: every task runs; the first exception,
    if any, is the one the caller sees. *)
Fixpoint gather (tasks : list (M unit)) : M unit :=
  match tasks with
  | [] => ret tt
  | t :: ts =>
      fun w =>
        match t w with
        | (Ok _, w') => gather ts w'
        | (Raise e, w') => (Raise e, snd (gather ts w'))
        end
  end.

(** A loop body run for each element of a list, in order. *)
Fixpoint for_each {A : Type} (l : list A) (body : A -> M unit) : M unit :=
  match l with
  | [] => ret tt
  | x :: l' => body x ;;; for_each l' body
  end.

(** [d[key]] where the key may be absent. *)
Definition key {A : Type} (name : string) (v : option A) : M A :=
  match v with
  | Some a => ret a
  | None => raise (KeyError name)
  end.

(** ** Field assignments on a leg dict *)

Definition set_status (v : LegStatus) (l : Leg) : Leg :=
  {| strike := strike l; token := token l; symbol := symbol l;
     expiry := expiry l; action := action l; ref_premium := ref_premium l;
     status := v; range_high := range_high l; range_low := range_low l;
     entry_price := entry_price l; sl_price := sl_price l; lots := lots l;
     sl_pct := sl_pct l; entry_trigger_pct := entry_trigger_pct l;
     reentry_trigger_pct := reentry_trigger_pct l;
     entries_count := entries_count l; exit_price := exit_price l;
     exit_reason := exit_reason l |}.

Definition set_range (hi lo : float) (l : Leg) : Leg :=
  {| strike := strike l; token := token l; symbol := symbol l;
     expiry := expiry l; action := action l; ref_premium := ref_premium l;
     status := status l; range_high := hi; range_low := lo;
     entry_price := entry_price l; sl_price := sl_price l; lots := lots l;
     sl_pct := sl_pct l; entry_trigger_pct := entry_trigger_pct l;
     reentry_trigger_pct := reentry_trigger_pct l;
     entries_count := entries_count l; exit_price := exit_price l;
     exit_reason := exit_reason l |}.

Definition set_entry_price (v : float) (l : Leg) : Leg :=
  {| strike := strike l; token := token l; symbol := symbol l;
     expiry := expiry l; action := action l; ref_premium := ref_premium l;
     status := status l; range_high := range_high l; range_low := range_low l;
     entry_price := v; sl_price := sl_price l; lots := lots l;
     sl_pct := sl_pct l; entry_trigger_pct := entry_trigger_pct l;
     reentry_trigger_pct := reentry_trigger_pct l;
     entries_count := entries_count l; exit_price := exit_price l;
     exit_reason := exit_reason l |}.

Definition set_sl_price (v : float) (l : Leg) : Leg :=
  {| strike := strike l; token := token l; symbol := symbol l;
     expiry := expiry l; action := action l; ref_premium := ref_premium l;
     status := status l; range_high := range_high l; range_low := range_low l;
     entry_price := entry_price l; sl_price := v; lots := lots l;
     sl_pct := sl_pct l; entry_trigger_pct := entry_trigger_pct l;
     reentry_trigger_pct := reentry_trigger_pct l;
     entries_count := entries_count l; exit_price := exit_price l;
     exit_reason := exit_reason l |}.

Definition set_entries_count (v : Z) (l : Leg) : Leg :=
  {| strike := strike l; token := token l; symbol := symbol l;
     expiry := expiry l; action := action l; ref_premium := ref_premium l;
     status := status l; range_high := range_high l; range_low := range_low l;
     entry_price := entry_price l; sl_price := sl_price l; lots := lots l;
     sl_pct := sl_pct l; entry_trigger_pct := entry_trigger_pct l;
     reentry_trigger_pct := reentry_trigger_pct l;
     entries_count := Some v; exit_price := exit_price l;
     exit_reason := exit_reason l |}.

Definition set_exit (price : float) (reason : string) (l : Leg) : Leg :=
  {| strike := strike l; token := token l; symbol := symbol l;
     expiry := expiry l; action := action l; ref_premium := ref_premium l;
     status := status l; range_high := range_high l; range_low := range_low l;
     entry_price := entry_price l; sl_price := sl_price l; lots := lots l;
     sl_pct := sl_pct l; entry_trigger_pct := entry_trigger_pct l;
     reentry_trigger_pct := reentry_trigger_pct l;
     entries_count := entries_count l; exit_price := Some price;
     exit_reason := Some reason |}.

(** ** Field assignments on [self.state] *)

Definition set_st_status (p : Phase) (s : State) : State :=
  {| st_status := p; st_legs := st_legs s; current_phase := current_phase s;
     selected_expiry := selected_expiry s; exit_triggered := exit_triggered s;
     st_instrument := st_instrument s |}.

Definition set_st_legs (ls : list (string * Leg)) (s : State) : State :=
  {| st_status := st_status s; st_legs := ls; current_phase := current_phase s;
     selected_expiry := selected_expiry s; exit_triggered := exit_triggered s;
     st_instrument := st_instrument s |}.

Definition set_st_instrument (v : option string) (s : State) : State :=
  {| st_status := st_status s; st_legs := st_legs s;
     current_phase := current_phase s; selected_expiry := selected_expiry s;
     exit_triggered := exit_triggered s; st_instrument := v |}.

(** The four assignments of the daily reset. *)
Definition reset_for_new_day (s : State) : State :=
  {| st_status := IDLE; st_legs := []; current_phase := current_phase s;
     selected_expiry := None; exit_triggered := false;
     st_instrument := st_instrument s |}.

(** ** References to leg dicts

    [leg_data] is a reference to the dict stored in [self.state], which the
    model addresses by its position in the dict's item order.  No leg
    operation changes the number of legs while such a reference is held, so
    a position past the end does not arise; [leg_get] maps it to [KeyError]
    and [leg_update] ignores it. *)

Fixpoint upd_nth {A : Type} (i : nat) (f : A -> A) (l : list A) : list A :=
  match l, i with
  | [], _ => []
  | x :: l', O => f x :: l'
  | x :: l', S i' => x :: upd_nth i' f l'
  end.

Definition on_snd {A B : Type} (f : B -> B) (p : A * B) : A * B :=
  (fst p, f (snd p)).

Definition leg_get (i : nat) : M Leg :=
  fun w =>
    match nth_error (st_legs (mem w)) i with
    | Some kl => (Ok (snd kl), w)
    | None => (Raise (KeyError "leg"), w)
    end.

Definition leg_update (i : nat) (f : Leg -> Leg) : M unit :=
  modify_state (fun s => set_st_legs (upd_nth i (on_snd f) (st_legs s)) s).

(** ** Persistence: [save_state] and [load_state]

    The write is taken to succeed; the source logs a failed write and goes
    on. *)

Definition save_state : M unit :=
  fun w => (Ok tt, {| mem := mem w; disk := Some (mem w); trace := trace w |}).

Definition load_state : M unit :=
  fun w =>
    match disk w with
    | Some s => (Ok tt, {| mem := s; disk := disk w; trace := trace w |})
    | None => (Ok tt, w)
    end.

Definition phase_eqb (a b : Phase) : bool :=
  match a, b with
  | IDLE, IDLE => true
  | MONITORING_RANGE, MONITORING_RANGE => true
  | ACTIVE, ACTIVE => true
  | _, _ => false
  end.

Definition opposite (a : Action) : Action :=
  match a with
  | BUY => SELL
  | SELL => BUY
  end.

(** Two decimal digits, as [strftime] prints an hour, minute or second. *)
Definition two_digits (n : Z) : string :=
  String (Ascii.ascii_of_nat (48 + Z.to_nat (n / 10 mod 10)))
    (String (Ascii.ascii_of_nat (48 + Z.to_nat (n mod 10))) EmptyString).

Section Engine.

Variable env : Env.

(** ** [config_manager.py] *)

(** [get_strategy_settings]: [config["strategy_settings"]], where an
    unreadable file gives the empty dict. *)
Definition get_strategy_settings : M Settings :=
  match env_config env with
  | Some c => ret (strategy_settings c)
  | None => raise (KeyError "strategy_settings")
  end.

(** ** [db_client.py] *)

(** [get_option_price]: the newest row of the last 20 minutes, dropped when
    older than 1200 seconds; any failure is swallowed into [None].  The age
    of the row is in microseconds. *)
Definition get_option_price (tok : Z) : option float :=
  match q_option_latest env tok with
  | Ok (Some (p, age)) => if 1200 * 1000000 <? age then None else Some p
  | Ok None => None
  | Raise _ => None
  end.

(** [get_spot_price_at]: [float(val) if val else None]. *)
Definition get_spot_price_at (instrument : string) (ts : time) : M (option float) :=
  val <- lift (q_spot_at env instrument ts) ;;
  ret (if truthy_opt val then val else None).

(** [get_option_price_at]: [float(val) if val else None]. *)
Definition get_option_price_at (tok : Z) (ts : time) : M (option float) :=
  val <- lift (q_option_at env tok ts) ;;
  ret (if truthy_opt val then val else None).

(** ** [strategy_engine.py] *)

(** [lot_sizes[self.state.get("instrument", config["instrument"])]]: the
    key ["instrument"] is always present in [self.state], so the default is
    never taken and a [None] value is looked up as it is. *)
Definition lot_size_for (config : Settings) : M Z :=
  s <- get_state ;;
  match st_instrument s with
  | None => raise (KeyError "None")
  | Some inst => key inst (assoc_get inst (lot_sizes config))
  end.

Definition paper_order_id : string :=
  "PAPER_" ++ two_digits (hour (env_now env))
           ++ two_digits (minute (env_now env))
           ++ two_digits (second (env_now env)).

Definition execute_entry (i : nat) (price : float) (description : string) : M unit :=
  config <- get_strategy_settings ;;
  lot_size <- lot_size_for config ;;
  leg <- leg_get i ;;
  let qty := lots leg * cfg_global_lots config * lot_size in
  a <- key "action" (action leg) ;;
  let req := {| o_symbol := symbol leg; o_token := token leg;
                o_side := a; o_qty := qty |} in
  order_id <- (if paper_trading config
               then emit (EvPaper req price) ;;; ret (Some paper_order_id)
               else emit (EvOrder req (gateway env req)) ;;; ret (gateway env req)) ;;
  if truthy_str order_id then
    leg_update i (fun l => set_entry_price price (set_status L_ACTIVE l)) ;;;
    leg1 <- leg_get i ;;
    pct <- key "sl_pct" (sl_pct leg1) ;;
    leg_update i (set_sl_price
                    match a with
                    | BUY => (price * (1 - pct / 100))%float
                    | SELL => (price * (1 + pct / 100))%float
                    end) ;;;
    leg2 <- leg_get i ;;
    n <- key "entries_count" (entries_count leg2) ;;
    leg_update i (set_entries_count (n + 1)) ;;;
    save_state
  else ret tt.

Definition execute_exit (i : nat) (price : float) (reason : string) : M unit :=
  config <- get_strategy_settings ;;
  lot_size <- lot_size_for config ;;
  leg <- leg_get i ;;
  let qty := lots leg * cfg_global_lots config * lot_size in
  entry_action <- key "action" (action leg) ;;
  let req := {| o_symbol := symbol leg; o_token := token leg;
                o_side := opposite entry_action; o_qty := qty |} in
  (if paper_trading config
   then emit (EvPaper req price)
   else emit (EvOrder req (gateway env req))) ;;;
  leg_update i (fun l => set_exit price reason (set_status EXITED l)) ;;;
  save_state.

Definition check_leg_logic (i : nat) : M unit :=
  catch
    (leg0 <- leg_get i ;;
     match get_option_price (token leg0) with
     | None => ret tt
     | Some current_price =>
       if negb (truthy current_price) then ret tt
       else
         leg <- leg_get i ;;
         let rh := range_high leg in
         a <- key "action" (action leg) ;;
         match status leg with
         | WAITING_ENTRY =>
             trigger_pct <- key "entry_trigger_pct" (entry_trigger_pct leg) ;;
             let trigger_price := (rh * (1 + trigger_pct / 100))%float in
             if (trigger_price <? current_price)%float
             then execute_entry i current_price "ENTRY_1"
             else ret tt
         | L_ACTIVE =>
             let sl_hit :=
               match a with
               | BUY => (current_price <=? sl_price leg)%float
               | SELL => (sl_price leg <=? current_price)%float
               end in
             if sl_hit then
               execute_exit i current_price "SL_HIT" ;;;
               leg1 <- leg_get i ;;
               n <- key "entries_count" (entries_count leg1) ;;
               if n <? 2
               then leg_update i (set_status WAITING_REENTRY)
               else leg_update i (set_status DONE)
             else ret tt
         | WAITING_REENTRY =>
             trigger_pct <- key "reentry_trigger_pct" (reentry_trigger_pct leg) ;;
             let trigger_price := (rh * (1 + trigger_pct / 100))%float in
             if (trigger_price <? current_price)%float
             then execute_entry i current_price "ENTRY_2"
             else ret tt
         | _ => ret tt
         end
     end)
    (fun _ => ret tt).

(** The positions of the legs, in the order [.items()] yields them. *)
Definition leg_indices : M (list nat) :=
  s <- get_state ;;
  ret (seq 0 (List.length (st_legs s))).

Definition monitor_and_execute : M unit :=
  idx <- leg_indices ;;
  gather (map check_leg_logic idx).

(** The loop of [check_gap_condition], which only builds the task list. *)
Fixpoint gap_scan (idx : list nat) : M (list (M unit)) :=
  match idx with
  | [] => ret []
  | i :: rest =>
      leg <- leg_get i ;;
      match status leg with
      | L_ACTIVE =>
          match get_option_price (token leg) with
          | None => gap_scan rest
          | Some current_price =>
              if negb (truthy current_price) then gap_scan rest
              else if (current_price <=? sl_price leg)%float then
                tasks <- gap_scan rest ;;
                ret (execute_exit i current_price "GAP_SL_HIT" :: tasks)
              else gap_scan rest
          end
      | _ => gap_scan rest
      end
  end.

Definition check_gap_condition : M unit :=
  idx <- leg_indices ;;
  tasks <- gap_scan idx ;;
  match tasks with
  | [] => ret tt
  | _ => gather tasks
  end.

(** The loop of [execute_strategy_exit]: waiting legs are marked [DONE] on
    the spot, active legs get an exit task. *)
Fixpoint exit_scan (idx : list nat) : M (list (M unit)) :=
  match idx with
  | [] => ret []
  | i :: rest =>
      leg <- leg_get i ;;
      match status leg with
      | L_ACTIVE =>
          tasks <- exit_scan rest ;;
          ret (execute_exit i 0%float "DAILY_SQUARE_OFF" :: tasks)
      | WAITING_ENTRY | WAITING_REENTRY =>
          leg_update i (set_status DONE) ;;;
          exit_scan rest
      | _ => exit_scan rest
      end
  end.

Definition execute_strategy_exit : M unit :=
  idx <- leg_indices ;;
  tasks <- exit_scan idx ;;
  match tasks with
  | [] => ret tt
  | _ => gather tasks
  end.

Definition get_expiry (instrument type_pref : string) : M (option string) :=
  config <- get_strategy_settings ;;
  db_instrument <- key instrument (assoc_get instrument (instrument_map config)) ;;
  expiries <- lift (q_active_expiries env db_instrument) ;;
  match expiries with
  | [] => ret None
  | first :: rest =>
      match rest with
      | second :: _ => if String.eqb type_pref "next" then ret (Some second)
                       else ret (Some first)
      | [] => ret (Some first)
      end
  end.

(** [min(candidates, key=...)]: the first candidate of least key. *)
Fixpoint min_by {A : Type} (f : A -> float) (best : A) (l : list A) : A :=
  match l with
  | [] => best
  | x :: l' => if (f x <? f best)%float then min_by f x l' else min_by f best l'
  end.

(** The inner helper [find_leg] of [select_strikes]. *)
Definition find_leg (db_instrument : string) (selection_time : time)
    (straddle_premium target_pct : float) (opt_type type_pref : string)
  : M (option Candidate * float) :=
  leg_expiry <- get_expiry db_instrument type_pref ;;
  match leg_expiry with
  | None => ret (None, 0%float)
  | Some EmptyString => ret (None, 0%float)
  | Some e =>
      let target_premium := (straddle_premium * (target_pct / 100))%float in
      candidates <- lift (q_strikes_at env db_instrument e opt_type selection_time) ;;
      match candidates with
      | [] => ret (None, target_premium)
      | c :: cs =>
          ret (Some (min_by (fun x => abs (last_price x - target_premium))%float c cs),
               target_premium)
      end
  end.

(** The leg dict [select_strikes] stores for a chosen candidate. *)
Definition selected_leg (best : Candidate) (details : LegConfig)
    (target_prem : float) : Leg :=
  {| strike := strike_price best; token := cand_token best;
     symbol := cand_symbol best; expiry := Some (expiry_type details);
     action := Some (cfg_action details); ref_premium := Some target_prem;
     status := WAITING_RANGE; range_high := 0%float; range_low := 0%float;
     entry_price := 0%float; sl_price := 0%float; lots := cfg_lots details;
     sl_pct := Some (sl_percentage details);
     entry_trigger_pct := Some (entry_trigger_percentage details);
     reentry_trigger_pct := Some (reentry_trigger_percentage details);
     entries_count := Some 0; exit_price := None; exit_reason := None |}.

(** [round(spot_price / step) * step]. *)
Definition atm_strike_of (spot_price : float) (step : Z) : M Z :=
  if step =? 0 then raise ZeroDivisionError
  else
    d <- lift (float_of_Z step) ;;
    r <- lift (py_round (spot_price / d)%float) ;;
    ret (r * step).

Definition truthy_token (t : option Z) : bool :=
  match t with
  | Some v => negb (v =? 0)
  | None => false
  end.

Definition select_strikes : M bool :=
  config <- get_strategy_settings ;;
  let instrument := cfg_instrument config in
  let now := env_now env in
  start_t <- lift (mk_time (fst (tr_start (time_range config)))
                           (snd (tr_start (time_range config)))) ;;
  let selection_time := if time_ltb now start_t then now else start_t in
  modify_state (set_st_instrument (Some instrument)) ;;;
  db_instrument <- key instrument (assoc_get instrument (instrument_map config)) ;;
  spot_price <- get_spot_price_at instrument selection_time ;;
  match spot_price with
  | None => ret false
  | Some spot =>
    atm_strike <- atm_strike_of spot (strike_step config) ;;
    current_expiry <- get_expiry db_instrument "current" ;;
    match current_expiry with
    | None => ret false
    | Some EmptyString => ret false
    | Some cur =>
      ce_token <- lift (q_token_for_strike env db_instrument atm_strike "CE" cur) ;;
      pe_token <- lift (q_token_for_strike env db_instrument atm_strike "PE" cur) ;;
      ce_data <- match ce_token with
                 | Some t => if truthy_token ce_token
                             then get_option_price_at t selection_time
                             else ret None
                 | None => ret None
                 end ;;
      pe_data <- match pe_token with
                 | Some t => if truthy_token pe_token
                             then get_option_price_at t selection_time
                             else ret None
                 | None => ret None
                 end ;;
      match ce_data, pe_data with
      | Some ce, Some pe =>
        let straddle_premium := (ce + pe)%float in
        for_each (cfg_legs config)
          (fun item =>
             let leg_key := fst item in
             let details := snd item in
             let opt_type := if str_contains "ce" leg_key then "CE" else "PE" in
             found <- find_leg db_instrument selection_time straddle_premium
                        (percentage_of_straddle details) opt_type
                        (expiry_type details) ;;
             match fst found with
             | Some best =>
                 modify_state
                   (fun s => set_st_legs
                               (assoc_set leg_key
                                  (selected_leg best details (snd found))
                                  (st_legs s)) s)
             | None => ret tt
             end) ;;;
        ret true
      | _, _ => ret false
      end
    end
  end.

(** The loop of [finalize_ranges]; the result is [success_count]. *)
Fixpoint finalize_scan (start_dt now : time) (idx : list nat) : M Z :=
  match idx with
  | [] => ret 0
  | i :: rest =>
      leg <- leg_get i ;;
      match status leg with
      | DONE => finalize_scan start_dt now rest
      | _ =>
          high_low <- lift (q_range_high_low env (token leg) start_dt now) ;;
          match high_low with
          | Some (hi, lo) =>
              leg_update i (fun l => set_status WAITING_ENTRY (set_range hi lo l)) ;;;
              n <- finalize_scan start_dt now rest ;;
              ret (n + 1)
          | None => finalize_scan start_dt now rest
          end
      end
  end.

Definition finalize_ranges : M bool :=
  config <- get_strategy_settings ;;
  start_dt <- lift (mk_time (fst (tr_start (time_range config)))
                            (snd (tr_start (time_range config)))) ;;
  idx <- leg_indices ;;
  success_count <- finalize_scan start_dt (env_now env) idx ;;
  ret (0 <? success_count).

(** The slot [start] shows for a configured leg before any selection. *)
Definition placeholder_leg (details : LegConfig) : Leg :=
  {| strike := 0%float; token := 0; symbol := "Waiting...";
     expiry := None; action := None; ref_premium := None;
     status := L_IDLE; range_high := 0%float; range_low := 0%float;
     entry_price := 0%float; sl_price := 0%float; lots := cfg_lots details;
     sl_pct := None; entry_trigger_pct := None; reentry_trigger_pct := None;
     entries_count := None; exit_price := None; exit_reason := None |}.

(** [start], up to the loop: restore the state, then fill empty leg slots. *)
Definition startup : M unit :=
  load_state ;;;
  config <- get_strategy_settings ;;
  s <- get_state ;;
  match st_legs s with
  | [] =>
      for_each (cfg_legs config)
        (fun item =>
           modify_state
             (fun s => set_st_legs
                         (assoc_set (fst item) (placeholder_leg (snd item))
                            (st_legs s)) s))
  | _ => ret tt
  end.

(** [current_time >= t0 and current_time < time(h, m + width)]: the second
    operand, and with it the constructor, is evaluated only when the first
    holds. *)
Definition window_test (t0 : time) (h m width : Z) : Res bool :=
  if time_geb (env_now env) t0 then
    match mk_time h (m + width) with
    | Ok t1 => Ok (time_ltb (env_now env) t1)
    | Raise e => Raise e
    end
  else Ok false.

Definition in_window (t0 : time) (h m width : Z) : M bool :=
  lift (window_test t0 h m width).

(** TASK 1 of the loop. *)
Definition gap_check_task (settings : Settings) (check_time : time) : M unit :=
  let hm := check_condition (time_range settings) in
  open <- in_window check_time (fst hm) (snd hm)
            (gap_check_window_minutes (strategy_parameters settings)) ;;
  when open check_gap_condition.

(** TASK 2 of the loop. *)
Definition daily_exit_task (settings : Settings) (exit_time : time) : M unit :=
  let hm := strategy_exit (time_range settings) in
  open <- in_window exit_time (fst hm) (snd hm)
            (exit_check_window_minutes (strategy_parameters settings)) ;;
  when open
    (s <- get_state ;;
     when (negb (phase_eqb (st_status s) IDLE))
       (execute_strategy_exit ;;;
        modify_state reset_for_new_day ;;;
        save_state)).

(** TASK 3 of the loop. *)
Definition start_task (settings : Settings) (start_time : time) : M unit :=
  let start_buffer := time_add_minutes start_time (buffer_minutes settings) in
  s <- get_state ;;
  when (time_geb (env_now env) start_time
        && time_ltb (env_now env) start_buffer
        && phase_eqb (st_status s) IDLE)
    (success <- select_strikes ;;
     if success then modify_state (set_st_status MONITORING_RANGE) ;;; save_state
     else ret tt).

(** TASK 4 of the loop. *)
Definition range_end_task (end_time : time) : M unit :=
  s <- get_state ;;
  when (phase_eqb (st_status s) MONITORING_RANGE)
    (when (time_geb (env_now env) end_time)
       (finalize_ranges ;;;
        modify_state (set_st_status ACTIVE) ;;;
        save_state)).

(** TASK 5 of the loop. *)
Definition active_task : M unit :=
  s <- get_state ;;
  when (phase_eqb (st_status s) ACTIVE) monitor_and_execute.

(** One pass through the body of the [while True] loop of [start]. *)
Definition loop_iteration : M unit :=
  catch
    (match env_config env with
     | None => raise (KeyError "is_running")
     | Some config =>
       if negb (is_running config) then ret tt
       else
         let settings := strategy_settings config in
         let tr := time_range settings in
         start_time <- lift (mk_time (fst (tr_start tr)) (snd (tr_start tr))) ;;
         end_time <- lift (mk_time (fst (tr_end tr)) (snd (tr_end tr))) ;;
         check_time <- lift (mk_time (fst (check_condition tr))
                                     (snd (check_condition tr))) ;;
         exit_time <- lift (mk_time (fst (strategy_exit tr))
                                    (snd (strategy_exit tr))) ;;
         gap_check_task settings check_time ;;;
         daily_exit_task settings exit_time ;;;
         start_task settings start_time ;;;
         range_end_task end_time ;;;
         active_task
     end)
    (fun _ => ret tt).

End Engine.

(** The process at the moment [start] is first called: the state of
    [__init__], no state file, nothing traded. *)
Definition fresh_world : World :=
  {| mem := initial_state; disk := None; trace := [] |}.

(** A restart of the process keeps the file and the orders already sent,
    and nothing of the memory. *)
Definition restart (w : World) : World :=
  {| mem := initial_state; disk := disk w; trace := trace w |}.

(** ** [utils.py] *)

(** [get_closest_match]: the candidate whose price is closest to the target
    premium, [None] for an empty list. *)
Definition get_closest_match (target_premium : float)
    (candidates : list Candidate) : option Candidate :=
  match candidates with
  | [] => None
  | c :: cs =>
      Some (min_by (fun x => abs (last_price x - target_premium))%float c cs)
  end.

(** ** [config_manager.py] and [main.py]: the configuration file

    The file holds whatever JSON was last written; [None] is a file that is
    missing or cannot be read or parsed.  A write is taken to succeed. *)

#[warnings="-register-all"] Inductive Json : Type :=
| JNull
| JBool (b : bool)
| JInt (n : Z)
| JFloat (x : float)
| JStr (s : string)
| JArr (l : list Json)
| JObj (d : list (string * Json)).

(** Truth value of a decoded JSON value. *)
Definition truthy_json (v : Json) : bool :=
  match v with
  | JNull => false
  | JBool b => b
  | JInt n => negb (n =? 0)
  | JFloat x => truthy x
  | JStr s => negb (String.eqb s EmptyString)
  | JArr l => match l with [] => false | _ => true end
  | JObj d => match d with [] => false | _ => true end
  end.

(** How a request to the API can fail. *)
Inductive ApiError : Type :=
| Http400 (detail : string)
| ApiKeyError (key : string)
| ApiTypeError.

Definition Api (A : Type) : Type :=
  option Json -> (A + ApiError) * option Json.

(** [ConfigManager.get_config]: the decoded file, the empty dict when it
    cannot be read. *)
Definition get_config (file : option Json) : Json :=
  match file with
  | Some v => v
  | None => JObj []
  end.

(** [ConfigManager.update_config]. *)
Definition update_config (new_config : Json) : Api unit :=
  fun _ => (inl tt, Some new_config).

(** [config[k]] on a decoded value: only a dict can be indexed by a
    string. *)
Definition json_item (k : string) (v : Json) : Json + ApiError :=
  match v with
  | JObj d =>
      match assoc_get k d with
      | Some x => inl x
      | None => inr (ApiKeyError k)
      end
  | _ => inr ApiTypeError
  end.

(** [ConfigManager.set_is_running]. *)
Definition set_is_running (is_running : bool) : Api unit :=
  fun file =>
    match get_config file with
    | JObj d => update_config (JObj (assoc_set "is_running" (JBool is_running) d)) file
    | _ => (inr ApiTypeError, file)
    end.

(** [POST /config]; the body is a dict. *)
Definition post_config (config : list (string * Json)) : Api string :=
  fun file =>
    match json_item "is_running" (get_config file) with
    | inr e => (inr e, file)
    | inl flag =>
        if truthy_json flag
        then (inr (Http400 "Cannot update config while strategy is running"), file)
        else
          match update_config (JObj config) file with
          | (inl _, file') => (inl "Config updated", file')
          | (inr e, file') => (inr e, file')
          end
    end.

(** [POST /control/start]. *)
Definition start_strategy : Api string :=
  fun file =>
    match set_is_running true file with
    | (inl _, file') => (inl "Strategy Started", file')
    | (inr e, file') => (inr e, file')
    end.

(** [POST /control/stop]. *)
Definition stop_strategy : Api string :=
  fun file =>
    match set_is_running false file with
    | (inl _, file') => (inl "Strategy Stopped", file')
    | (inr e, file') => (inr e, file')
    end.

(** ** [utils.py] and [db_client.py]: trading symbols

    A symbol is a string of characters below code point 256 (the type
    [string]); everything said of the parser is said of such symbols only.
    Among these characters the decimal digits are ["0"] to ["9"]; beyond
    code point 255 Python's [\d] matches further digits, which this
    embedding does not represent. *)

(** [[A-Z]]. *)
Definition is_upper (c : ascii) : bool :=
  let n := N_of_ascii c in ((65 <=? n) && (n <=? 90))%N.

(** [\d] on a character below code point 256. *)
Definition is_digit (c : ascii) : bool :=
  let n := N_of_ascii c in ((48 <=? n) && (n <=? 57))%N.

(** The longest prefix of characters in a class, and the rest. *)
Fixpoint span (p : ascii -> bool) (s : string) : string * string :=
  match s with
  | EmptyString => (EmptyString, EmptyString)
  | String c s' =>
      if p c then (String c (fst (span p s')), snd (span p s'))
      else (EmptyString, s)
  end.

Definition newline : string := String (ascii_of_nat 10) EmptyString.

(** The dict [parse_tradingsymbol] returns; [sym_strike] holds the digits
    of group 4, of which the source stores the [float]. *)
Record Symbol : Type := {
  sym_name : string;
  sym_year : string;
  sym_month : string;
  sym_strike : string;
  sym_type : string;
  sym_expiry_str : string
}.

(** [[CP]E$]: the end of the symbol, where [$] also matches before one
    final newline. *)
Definition option_suffix (rest : string) : option string :=
  if String.eqb rest "CE" || String.eqb rest ("CE" ++ newline) then Some "CE"
  else if String.eqb rest "PE" || String.eqb rest ("PE" ++ newline) then Some "PE"
  else None.

(** [parse_tradingsymbol]: [re.match] of
    [^([A-Z]+)(\d{2})([A-Z]{3})(\d+)([CP]E)$].  Letters and digits
    alternate in the pattern, so each group is a longest run of its class:
    a shorter run would be followed by a character of the same class, which
    the next group refuses. *)
Definition parse_tradingsymbol (symbol : string) : option Symbol :=
  let g1 := span is_upper symbol in
  let g2 := span is_digit (snd g1) in
  let g3 := span is_upper (snd g2) in
  let g4 := span is_digit (snd g3) in
  match option_suffix (snd g4) with
  | Some ty =>
      if negb (String.eqb (fst g1) EmptyString)
         && Nat.eqb (String.length (fst g2)) 2
         && Nat.eqb (String.length (fst g3)) 3
         && negb (String.eqb (fst g4) EmptyString)
      then Some {| sym_name := fst g1; sym_year := fst g2;
                   sym_month := fst g3; sym_strike := fst g4;
                   sym_type := ty; sym_expiry_str := fst g2 ++ fst g3 |}
      else None
  | None => None
  end.

(** [str(strike)] for an [int] strike. *)
Definition str_of_int (n : Z) : string := NilZero.string_of_int (Z.to_int n).

(** The symbol [get_token_for_strike] asks the database for. *)
Definition target_symbol (instrument : string) (strike : Z)
    (option_type expiry_str : string) : string :=
  instrument ++ expiry_str ++ str_of_int strike ++ option_type.

(** The test [get_available_strikes] and [get_available_strikes_at] apply
    to the symbol of a row before they list it. *)
Definition lists_row (expiry_str option_type symbol : string) : bool :=
  match parse_tradingsymbol symbol with
  | Some parsed =>
      String.eqb (sym_expiry_str parsed) expiry_str
      && String.eqb (sym_type parsed) option_type
  | None => false
  end.

(** The test of [get_active_expiries]. *)
Definition expiry_of_row (instrument symbol : string) : option string :=
  match parse_tradingsymbol symbol with
  | Some parsed =>
      if String.eqb (sym_name parsed) instrument
      then Some (sym_expiry_str parsed) else None
  | None => None
  end.

(** ** Sample data: the settings of the repository's end-to-end test *)

Module Sample.

Definition leg_config (a : Action) (n : Z) : LegConfig :=
  {| cfg_lots := n; percentage_of_straddle := 10%float;
     expiry_type := "current"; cfg_action := a; sl_percentage := 20%float;
     entry_trigger_percentage := 10%float;
     reentry_trigger_percentage := 10%float |}.

Definition settings (paper : bool) (check : Z * Z) (gap_width : Z) : Settings :=
  {| cfg_instrument := "NIFTY BANK"; strike_step := 100; cfg_global_lots := 1;
     lot_sizes := [("NIFTY BANK", 15)]; paper_trading := paper;
     time_range := {| tr_start := (9, 30); tr_end := (10, 30);
                      check_condition := check; strategy_exit := (15, 20) |};
     buffer_minutes := 5;
     strategy_parameters := {| gap_check_window_minutes := gap_width;
                               exit_check_window_minutes := 5;
                               default_buffer_minutes := 5;
                               default_strike_step := 100 |};
     instrument_map := [("NIFTY BANK", "BANKNIFTY"); ("BANKNIFTY", "BANKNIFTY")];
     cfg_legs := [("sp10ce", leg_config BUY 5); ("sp10pe", leg_config BUY 1)] |}.

(** An environment in which every option trades at [live] (a fresh row),
    the spot query answers [spot], and the gateway answers [reply]. *)
Definition env_of (now : time) (cfg : Settings) (live : option float)
    (spot : option float) (reply : option string) : Env :=
  {| env_now := now;
     env_config := Some {| is_running := true; strategy_settings := cfg |};
     q_spot_at := fun _ _ => Ok spot;
     q_option_latest := fun _ => Ok (option_map (fun p => (p, 1000000)) live);
     q_option_at := fun _ _ => Ok (Some 200%float);
     q_active_expiries := fun _ => Ok ["26JAN"];
     q_token_for_strike := fun _ _ _ _ => Ok (Some 12345);
     q_strikes_at := fun _ _ _ _ =>
       Ok [ {| strike_price := 59100%float; last_price := 40%float;
               cand_token := 12345; cand_symbol := "BANKNIFTY26JAN59100CE" |} ];
     q_range_high_low := fun _ _ _ => Ok (Some (250%float, 150%float));
     gateway := fun _ => reply |}.

Definition at_time (h m : Z) : time := mk_time_raw h m 30 0.

(** A selected leg with the range of the test ([250]/[150]). *)
Definition leg (a : Action) (st : LegStatus) (entry sl : float) (count : Z) : Leg :=
  {| strike := 59100%float; token := 12345; symbol := "BANKNIFTY26JAN59100CE";
     expiry := Some "current"; action := Some a; ref_premium := Some 40%float;
     status := st; range_high := 250%float; range_low := 150%float;
     entry_price := entry; sl_price := sl; lots := 5;
     sl_pct := Some 20%float; entry_trigger_pct := Some 10%float;
     reentry_trigger_pct := Some 10%float; entries_count := Some count;
     exit_price := None; exit_reason := None |}.

(** The engine in phase [p] holding the single leg [l], all of it saved. *)
Definition world_of (p : Phase) (l : Leg) : World :=
  let s := {| st_status := p; st_legs := [("sp10ce", l)];
              current_phase := None; selected_expiry := None;
              exit_triggered := false; st_instrument := Some "NIFTY BANK" |} in
  {| mem := s; disk := Some s; trace := [] |}.

End Sample.

(** The status of the leg at position [i] of a state. *)
Definition status_at (s : State) (i : nat) : option LegStatus :=
  option_map (fun kl => status (snd kl)) (nth_error (st_legs s) i).

(** The leg at position [i] of a state. *)
Definition leg_at (s : State) (i : nat) : option Leg :=
  option_map snd (nth_error (st_legs s) i).

(** * Vocabulary of the properties *)

(** ** Orders, triggers and stop-loss *)

(** What a successful entry writes into the leg. *)
Definition entered (a : Action) (price pct : float) (n : Z) (l : Leg) : Leg :=
  set_entries_count (n + 1)
    (set_sl_price
       match a with
       | BUY => (price * (1 - pct / 100))%float
       | SELL => (price * (1 + pct / 100))%float
       end
       (set_entry_price price (set_status L_ACTIVE l))).

(** The request [execute_entry] builds for a leg. *)
Definition entry_request (c : Settings) (lot_size : Z) (a : Action) (l : Leg)
  : OrderReq :=
  {| o_symbol := symbol l; o_token := token l; o_side := a;
     o_qty := lots l * cfg_global_lots c * lot_size |}.

(** The order of an entry is acknowledged: paper trading, or a non-empty
    order id from the gateway. *)
Definition entry_acknowledged (env : Env) (c : Settings) (req : OrderReq) : Prop :=
  paper_trading c = true \/ truthy_str (gateway env req) = true.

(** What an exit writes into the leg, whatever the gateway answered. *)
Definition exited (price : float) (reason : string) (l : Leg) : Leg :=
  set_exit price reason (set_status EXITED l).

(** The entry trigger of a waiting leg. *)
Definition trigger_price (range_hi pct : float) : float :=
  (range_hi * (1 + pct / 100))%float.

(** The stop-loss test of an open leg. *)
Definition sl_hit (a : Action) (p sl : float) : bool :=
  match a with
  | BUY => (p <=? sl)%float
  | SELL => (sl <=? p)%float
  end.

(** No leg of the state is open. *)
Definition no_open_leg (w : World) : Prop :=
  forall kl, In kl (st_legs (mem w)) -> status (snd kl) <> L_ACTIVE.

(** ** Assertions on computations *)

(** [triple P m R Q]: from a world satisfying [P], the computation [m] ends
    normally with a result [a] in a world satisfying [R a], or raises in a
    world satisfying [Q]. *)
Definition triple {A : Type} (P : World -> Prop) (m : M A)
    (R : A -> World -> Prop) (Q : World -> Prop) : Prop :=
  forall w, P w ->
    match m w with
    | (Ok a, w') => R a w'
    | (Raise _, w') => Q w'
    end.

(** [m] keeps [P], however it ends. *)
Definition preserves {A : Type} (P : World -> Prop) (m : M A) : Prop :=
  triple P m (fun _ => P) P.

(** A scan that builds a task list: it keeps [P], and so does every task
    it returns. *)
Definition builds_tasks (P : World -> Prop) (scan : M (list (M unit))) : Prop :=
  triple P scan (fun tasks w => P w /\ Forall (preserves P) tasks) P.

(** Computations that only read. *)
Definition reads {A : Type} (m : M A) : Prop := forall w, snd (m w) = w.

(** ** The re-entry bound *)

(** What the engine maintains about a leg that counts its entries: at most
    two of them, none before the first entry and at most one while waiting
    to re-enter, and none at all before the phase is [ACTIVE]. *)
Definition leg_bound (ph : Phase) (l : Leg) : Prop :=
  forall n, entries_count l = Some n ->
    n <= 2 /\
    (status l = WAITING_ENTRY -> n = 0) /\
    (status l = WAITING_REENTRY -> n <= 1) /\
    (ph <> ACTIVE -> n = 0).

(** Every leg of a state satisfies the bound for the phase of the state. *)
Definition state_bound (s : State) : Prop :=
  forall kl, In kl (st_legs s) -> leg_bound (st_status s) (snd kl).

(** Memory and file both satisfy the bound. *)
Definition world_bound (w : World) : Prop :=
  state_bound (mem w) /\ forall d, disk w = Some d -> state_bound d.

(** The bound, with what is known of the phase. *)
Definition Inv (Q : Phase -> Prop) (w : World) : Prop :=
  world_bound w /\ Q (st_status (mem w)).

(** Nothing is known of the phase. *)
Definition any_phase (p : Phase) : Prop := True.

(** [L] holds of the leg at position [i], if there is one. *)
Definition at_leg (i : nat) (L : Leg -> Prop) (w : World) : Prop :=
  forall kl, nth_error (st_legs (mem w)) i = Some kl -> L (snd kl).

(** The leg has entered at most once. *)
Definition at_most_once (l : Leg) : Prop :=
  forall n, entries_count l = Some n -> n <= 1.

(** The bound holds, the phase is [ACTIVE], and the leg at [i] satisfies
    [L]. *)
Definition Inv_at (i : nat) (L : Leg -> Prop) (w : World) : Prop :=
  Inv (eq ACTIVE) w /\ at_leg i L w.

(** ** Runs of the engine *)

(** The worlds the engine can be in between two loop iterations: it starts
    on a machine without a state file, and from then on either runs one more
    iteration or is restarted. *)
Inductive reachable : World -> Prop :=
| reach_start (env : Env) :
    reachable (snd (startup env fresh_world))
| reach_iteration (env : Env) (w : World) :
    reachable w -> reachable (snd (loop_iteration env w))
| reach_restart (env : Env) (w : World) :
    reachable w -> reachable (snd (startup env (restart w))).

(** The daily-exit window is open in this iteration (the test of TASK 2
    succeeds). *)
Definition daily_exit_due (env : Env) : bool :=
  match env_config env with
  | Some c =>
      let hm := strategy_exit (time_range (strategy_settings c)) in
      match mk_time (fst hm) (snd hm) with
      | Ok exit_time =>
          match window_test env exit_time (fst hm) (snd hm)
                  (exit_check_window_minutes
                     (strategy_parameters (strategy_settings c))) with
          | Ok true => true
          | _ => false
          end
      | Raise _ => false
      end
  | None => false
  end.

(** The leg [kl0] sits at position [i], and the day has begun. *)
Definition holds_done (i : nat) (kl0 : string * Leg) (w : World) : Prop :=
  nth_error (st_legs (mem w)) i = Some kl0 /\ st_status (mem w) <> IDLE.

(** ** Permissions for leg updates *)

(** The updates [execute_entry] applies to the leg at position [i] are all
    permitted by [okU]. *)
Definition entry_ok (okU : nat -> (Leg -> Leg) -> Prop) (i : nat) : Prop :=
  (forall p, okU i (fun l => set_entry_price p (set_status L_ACTIVE l))) /\
  (forall v, okU i (set_sl_price v)) /\
  (forall n, okU i (set_entries_count n)).

(** The update [execute_exit] applies to the leg at position [i] is
    permitted. *)
Definition exit_ok (okU : nat -> (Leg -> Leg) -> Prop) (i : nat) : Prop :=
  forall p r, okU i (exited p r).

(** Every update [check_leg_logic] can apply to the leg at position [i] is
    permitted. *)
Definition monitor_ok (okU : nat -> (Leg -> Leg) -> Prop) (i : nat) : Prop :=
  entry_ok okU i /\ exit_ok okU i /\
  okU i (set_status WAITING_REENTRY) /\ okU i (set_status DONE).

(** The update of range finalisation is permitted. *)
Definition range_ok (okU : nat -> (Leg -> Leg) -> Prop) (i : nat) : Prop :=
  forall hi lo, okU i (fun l => set_status WAITING_ENTRY (set_range hi lo l)).

(** ** Observations on worlds *)

Definition is_paper (ev : Event) : bool :=
  match ev with
  | EvPaper _ _ => true
  | EvOrder _ _ => false
  end.

(** Since the trace was [t0], only paper trades were added to it. *)
Definition only_paper_since (t0 : list Event) (w : World) : Prop :=
  exists evs, trace w = (t0 ++ evs)%list /\ forallb is_paper evs = true.

(** Every configuration the environment can hand out is a paper-trading
    one. *)
Definition paper_mode (env : Env) : Prop :=
  forall c, env_config env = Some c ->
            paper_trading (strategy_settings c) = true.

(** What an entry writes and nothing else does. *)
Definition entry_record (l : Leg) : float * float * option Z :=
  (entry_price l, sl_price l, entries_count l).

(** The keys of the legs with their entry records, in order. *)
Definition entry_records (w : World) : list (string * (float * float * option Z)) :=
  map (fun kl => (fst kl, entry_record (snd kl))) (st_legs (mem w)).

(** Phase, instrument and the leg at position [j] are those of [w0]. *)
Definition same_elsewhere (j : nat) (w0 w : World) : Prop :=
  st_status (mem w) = st_status (mem w0) /\
  st_instrument (mem w) = st_instrument (mem w0) /\
  nth_error (st_legs (mem w)) j = nth_error (st_legs (mem w0)) j.

(** No order quantity can be computed: the instrument of the state has no
    lot size in any configuration the environment can hand out. *)
Definition lot_size_unknown (env : Env) (w : World) : Prop :=
  forall c inst,
    env_config env = Some c ->
    st_instrument (mem w) = Some inst ->
    assoc_get inst (lot_sizes (strategy_settings c)) = None.


(** A leg in a status on which the engine never acts: the placeholder
    status, a leg still waiting for its range, and the two final ones. *)
Definition dormant (l : Leg) : bool :=
  match status l with
  | L_IDLE | WAITING_RANGE | EXITED | DONE => true
  | _ => false
  end.

(** Every leg of the state is dormant. *)
Definition all_dormant (w : World) : Prop :=
  forall i leg, leg_at (mem w) i = Some leg -> dormant leg = true.


(** The request of an event of the trace. *)
Definition order_of (ev : Event) : OrderReq :=
  match ev with
  | EvOrder req _ => req
  | EvPaper req _ => req
  end.

(** The same contract and quantity on the other side. *)
Definition mirror (r : OrderReq) : OrderReq :=
  {| o_symbol := o_symbol r; o_token := o_token r;
     o_side := opposite (o_side r); o_qty := o_qty r |}.

(** A leg as strike selection stores it: waiting for its range, never
    entered, with no prices yet. *)
Definition freshly_selected (l : Leg) : Prop :=
  exists best details target, l = selected_leg best details target.

(** The request was answered, not failed. *)
Definition accepted {A : Type} (r : (A + ApiError) * option Json) : Prop :=
  exists a, fst r = inl a.

(** ** Trading symbols *)

Fixpoint all_chars (p : ascii -> bool) (s : string) : bool :=
  match s with
  | EmptyString => true
  | String c s' => p c && all_chars p s'
  end.

(** The string does not begin with a character of the class. *)
Definition stops (p : ascii -> bool) (s : string) : Prop :=
  match s with
  | EmptyString => True
  | String c _ => p c = false
  end.

(** What the pattern of [parse_tradingsymbol] means: the symbol is a name
    of capital letters, two digits, three capital letters, at least one
    digit and [CE] or [PE], in this order and with nothing else but one
    optional final newline. *)
Definition matches_pattern (s : string) (r : Symbol) : Prop :=
  exists tail,
    (tail = EmptyString \/ tail = newline) /\
    s = sym_name r ++ sym_year r ++ sym_month r ++ sym_strike r
        ++ sym_type r ++ tail /\
    sym_name r <> EmptyString /\ all_chars is_upper (sym_name r) = true /\
    String.length (sym_year r) = 2%nat /\ all_chars is_digit (sym_year r) = true /\
    String.length (sym_month r) = 3%nat /\ all_chars is_upper (sym_month r) = true /\
    sym_strike r <> EmptyString /\ all_chars is_digit (sym_strike r) = true /\
    (sym_type r = "CE" \/ sym_type r = "PE") /\
    sym_expiry_str r = sym_year r ++ sym_month r.

(** An expiry string as the database symbols carry it: two digits and three
    capital letters. *)
Definition expiry_shaped (e : string) : Prop :=
  exists yy mon,
    e = yy ++ mon /\
    String.length yy = 2%nat /\ all_chars is_digit yy = true /\
    String.length mon = 3%nat /\ all_chars is_upper mon = true.

(** The state [load_state] leaves in memory: the file's, or the one held
    when there is no file. *)
Definition loaded_state (w : World) : State :=
  match disk w with
  | Some s => s
  | None => mem w
  end.

(** The leg dict after the placeholders of the configured legs have been
    stored, one after the other. *)
Definition with_placeholders (items : list (string * LegConfig))
    (legs : list (string * Leg)) : list (string * Leg) :=
  fold_left (fun acc item => assoc_set (fst item) (placeholder_leg (snd item)) acc)
    items legs.

(** * Properties *)

(** ** Lists updated in place *)

Lemma nth_error_upd_nth_same {A : Type} (f : A -> A) (l : list A) (i : nat) :
  nth_error (upd_nth i f l) i = option_map f (nth_error l i).
Proof.
  revert i; induction l as [|x l IH]; intros [|i]; simpl; auto.
Qed.

Lemma nth_error_upd_nth_other {A : Type} (f : A -> A) (l : list A) (i j : nat) :
  i <> j -> nth_error (upd_nth i f l) j = nth_error l j.
Proof.
  revert i j; induction l as [|x l IH]; intros [|i] [|j] H; simpl; auto;
    congruence.
Qed.

Lemma length_upd_nth {A : Type} (f : A -> A) (l : list A) (i : nat) :
  List.length (upd_nth i f l) = List.length l.
Proof.
  revert i; induction l as [|x l IH]; intros [|i]; simpl; auto.
Qed.

Lemma In_upd_nth {A : Type} (f : A -> A) (l : list A) (i : nat) (y : A) :
  In y (upd_nth i f l) ->
  In y l \/ exists x, nth_error l i = Some x /\ y = f x.
Proof.
  revert i; induction l as [|x l IH]; intros [|i]; simpl; auto;
    intros [H | H]; eauto.
  destruct (IH _ H) as [H' | H']; auto.
Qed.

Lemma upd_nth_on_snd_twice {A B : Type} (i : nat) (f g : B -> B)
    (l : list (A * B)) :
  upd_nth i (on_snd g) (upd_nth i (on_snd f) l) =
  upd_nth i (on_snd (fun x => g (f x))) l.
Proof.
  revert i; induction l as [|x l IH]; intros [|i]; simpl; auto.
  now rewrite IH.
Qed.

(** ** The order executor *)

(** Unfolds the primitive operations of the monad in the goal. *)
Ltac mred :=
  cbv beta iota zeta delta
    [bind ret raise lift catch key when get_state modify_state emit
     leg_get leg_update save_state load_state leg_indices].

(** The entry path of the order executor: an order the gateway does not
    acknowledge changes neither the memory nor the file. *)
Lemma execute_entry_rejected (env : Env) (i : nat) (price : float)
    (description : string) (w : World) (c : Config) :
  env_config env = Some c ->
  paper_trading (strategy_settings c) = false ->
  (forall req, truthy_str (gateway env req) = false) ->
  mem (snd (execute_entry env i price description w)) = mem w /\
  disk (snd (execute_entry env i price description w)) = disk w.
Proof.
  intros Hc Hp Hg.
  unfold execute_entry, get_strategy_settings, lot_size_for.
  rewrite Hc. mred. simpl.
  destruct (st_instrument (mem w)); simpl; auto.
  destruct (assoc_get _ _); simpl; auto.
  destruct (nth_error _ _); simpl; auto.
  destruct (action _); simpl; auto.
  rewrite Hp, Hg. simpl. auto.
Qed.

Lemma paper_order_id_truthy (env : Env) :
  truthy_str (Some (paper_order_id env)) = true.
Proof. reflexivity. Qed.

(** An acknowledged entry: the leg becomes [entered ...], the state is
    saved, and no other leg is touched. *)
Lemma execute_entry_acknowledged (env : Env) (i : nat) (price : float)
    (description : string) (w : World) (c : Config) (inst : string) (sz : Z)
    (k : string) (leg : Leg) (a : Action) (pct : float) (n : Z) :
  env_config env = Some c ->
  st_instrument (mem w) = Some inst ->
  assoc_get inst (lot_sizes (strategy_settings c)) = Some sz ->
  nth_error (st_legs (mem w)) i = Some (k, leg) ->
  action leg = Some a ->
  sl_pct leg = Some pct ->
  entries_count leg = Some n ->
  entry_acknowledged env (strategy_settings c)
    (entry_request (strategy_settings c) sz a leg) ->
  exists ev,
    execute_entry env i price description w =
    (Ok tt,
     let s := set_st_legs
                (upd_nth i (on_snd (entered a price pct n)) (st_legs (mem w)))
                (mem w) in
     {| mem := s; disk := Some s; trace := trace w ++ [ev] |}).
Proof.
  intros Hc Hi Hsz Hleg Ha Hpct Hn Hack.
  unfold execute_entry, get_strategy_settings, lot_size_for.
  rewrite Hc. mred. simpl. rewrite Hi, Hsz, Hleg. simpl. rewrite Ha.
  unfold entry_acknowledged, entry_request in Hack.
  destruct (paper_trading (strategy_settings c)); simpl;
    [ | destruct Hack as [Hp | Hg]; [discriminate | rewrite Hg] ];
    simpl;
    rewrite !nth_error_upd_nth_same, Hleg; simpl; rewrite Hpct; simpl;
    rewrite !upd_nth_on_snd_twice, !nth_error_upd_nth_same, Hleg; simpl;
    rewrite Hn; simpl; rewrite !upd_nth_on_snd_twice;
    eexists; reflexivity.
Qed.

(** [execute_exit] on a leg with a direction and a configured lot size: the
    leg is marked [EXITED] and saved, after one order or paper trade. *)
Lemma execute_exit_runs (env : Env) (i : nat) (price : float)
    (reason : string) (w : World) (c : Config) (inst : string) (sz : Z)
    (k : string) (leg : Leg) (a : Action) :
  env_config env = Some c ->
  st_instrument (mem w) = Some inst ->
  assoc_get inst (lot_sizes (strategy_settings c)) = Some sz ->
  nth_error (st_legs (mem w)) i = Some (k, leg) ->
  action leg = Some a ->
  exists ev,
    execute_exit env i price reason w =
    (Ok tt,
     let s := set_st_legs
                (upd_nth i (on_snd (exited price reason)) (st_legs (mem w)))
                (mem w) in
     {| mem := s; disk := Some s; trace := trace w ++ [ev] |}).
Proof.
  intros Hc Hi Hsz Hleg Ha.
  unfold execute_exit, get_strategy_settings, lot_size_for.
  rewrite Hc. mred. simpl. rewrite Hi, Hsz, Hleg. simpl. rewrite Ha.
  destruct (paper_trading (strategy_settings c)); simpl;
    eexists; reflexivity.
Qed.

(** ** The leg monitor, case by case *)

(** No usable live price: nothing happens. *)
Lemma check_leg_logic_no_price (env : Env) (i : nat) (w : World) :
  (forall leg, leg_at (mem w) i = Some leg ->
               truthy_opt (get_option_price env (token leg)) = false) ->
  check_leg_logic env i w = (Ok tt, w).
Proof.
  intros H. unfold check_leg_logic, leg_at in *. mred.
  destruct (nth_error (st_legs (mem w)) i) as [[k leg]|]; simpl; auto.
  specialize (H leg eq_refl).
  destruct (get_option_price env (token leg)) as [p|]; simpl in *; auto.
  rewrite H. reflexivity.
Qed.

Lemma check_leg_logic_waiting (env : Env) (i : nat) (w : World)
    (k : string) (leg : Leg) (p : float) (a : Action) (tp : float) (tag : string) :
  nth_error (st_legs (mem w)) i = Some (k, leg) ->
  get_option_price env (token leg) = Some p ->
  truthy p = true ->
  action leg = Some a ->
  (status leg = WAITING_ENTRY /\ entry_trigger_pct leg = Some tp /\ tag = "ENTRY_1"
   \/ status leg = WAITING_REENTRY /\ reentry_trigger_pct leg = Some tp
      /\ tag = "ENTRY_2") ->
  check_leg_logic env i w =
  if (trigger_price (range_high leg) tp <? p)%float
  then catch (execute_entry env i p tag) (fun _ => ret tt) w
  else (Ok tt, w).
Proof.
  intros Hleg Hp Ht Ha Hst.
  unfold check_leg_logic, trigger_price. mred. rewrite Hleg. simpl.
  rewrite Hp, Ht. simpl. rewrite Hleg. simpl. rewrite Ha. simpl.
  destruct Hst as [(Hs & Htp & ->) | (Hs & Htp & ->)]; rewrite Hs, Htp;
    destruct (_ <? p)%float; try reflexivity;
    destruct (execute_entry env i p _ w) as [[u|e] w']; reflexivity.
Qed.

Lemma check_leg_logic_active (env : Env) (i : nat) (w : World)
    (k : string) (leg : Leg) (p : float) (a : Action) :
  nth_error (st_legs (mem w)) i = Some (k, leg) ->
  get_option_price env (token leg) = Some p ->
  truthy p = true ->
  action leg = Some a ->
  status leg = L_ACTIVE ->
  check_leg_logic env i w =
  if sl_hit a p (sl_price leg)
  then catch
         (bind (execute_exit env i p "SL_HIT")
            (fun _ =>
               bind (leg_get i)
                 (fun leg1 =>
                    bind (key "entries_count" (entries_count leg1))
                      (fun n =>
                         if n <? 2
                         then leg_update i (set_status WAITING_REENTRY)
                         else leg_update i (set_status DONE)))))
         (fun _ => ret tt) w
  else (Ok tt, w).
Proof.
  intros Hleg Hp Ht Ha Hs.
  unfold check_leg_logic, sl_hit. mred. rewrite Hleg. simpl.
  rewrite Hp, Ht. simpl. rewrite Hleg. simpl. rewrite Ha. simpl. rewrite Hs.
  destruct a; destruct (_ <=? _)%float; try reflexivity;
    destruct (execute_exit env i p _ w) as [[u|e] w']; reflexivity.
Qed.

(** A stop-loss hit on an open leg whose exit runs: the leg is saved as
    [EXITED], and only then set to [WAITING_REENTRY] or [DONE] in memory. *)
Lemma check_leg_logic_sl_hit (env : Env) (i : nat) (w : World) (c : Config)
    (inst : string) (sz : Z) (k : string) (leg : Leg) (p : float)
    (a : Action) (n : Z) :
  env_config env = Some c ->
  st_instrument (mem w) = Some inst ->
  assoc_get inst (lot_sizes (strategy_settings c)) = Some sz ->
  nth_error (st_legs (mem w)) i = Some (k, leg) ->
  get_option_price env (token leg) = Some p ->
  truthy p = true ->
  action leg = Some a ->
  status leg = L_ACTIVE ->
  entries_count leg = Some n ->
  sl_hit a p (sl_price leg) = true ->
  exists ev,
    check_leg_logic env i w =
    (Ok tt,
     let after := if n <? 2 then WAITING_REENTRY else DONE in
     {| mem := set_st_legs
                 (upd_nth i (on_snd (fun l => set_status after (exited p "SL_HIT" l)))
                    (st_legs (mem w)))
                 (mem w);
        disk := Some (set_st_legs
                        (upd_nth i (on_snd (exited p "SL_HIT")) (st_legs (mem w)))
                        (mem w));
        trace := trace w ++ [ev] |}).
Proof.
  intros Hc Hi Hsz Hleg Hp Ht Ha Hs Hn Hhit.
  rewrite (check_leg_logic_active env i w k leg p a) by assumption.
  rewrite Hhit.
  destruct (execute_exit_runs env i p "SL_HIT" w c inst sz k leg a)
    as [ev Hex]; try assumption.
  exists ev. mred. rewrite Hex. simpl.
  rewrite nth_error_upd_nth_same, Hleg. simpl. rewrite Hn.
  destruct (n <? 2); simpl; rewrite upd_nth_on_snd_twice; reflexivity.
Qed.

(** ** Stop-loss on entry *)

(** C8. On every acknowledged entry, the first one ([WAITING_ENTRY]) and the
    re-entry ([WAITING_REENTRY]) alike, the leg becomes active at the live
    price and its stop-loss is
    [price * (1 - sl_pct / 100)] for a BUY leg and
    [price * (1 + sl_pct / 100)] for a SELL leg; a leg entered at 200 with a
    stop-loss percentage of 20 gets 160 when bought and 240 when sold. *)
Theorem stop_loss_set_on_entry :
  (forall (env : Env) (i : nat) (w : World) (c : Config) (inst : string)
          (sz : Z) (k : string) (leg : Leg) (p tp pct : float) (a : Action)
          (n : Z) (tag : string),
      env_config env = Some c ->
      st_instrument (mem w) = Some inst ->
      assoc_get inst (lot_sizes (strategy_settings c)) = Some sz ->
      nth_error (st_legs (mem w)) i = Some (k, leg) ->
      get_option_price env (token leg) = Some p ->
      truthy p = true ->
      action leg = Some a ->
      sl_pct leg = Some pct ->
      entries_count leg = Some n ->
      (status leg = WAITING_ENTRY /\ entry_trigger_pct leg = Some tp
       /\ tag = "ENTRY_1"
       \/ status leg = WAITING_REENTRY /\ reentry_trigger_pct leg = Some tp
          /\ tag = "ENTRY_2") ->
      (trigger_price (range_high leg) tp <? p)%float = true ->
      entry_acknowledged env (strategy_settings c)
        (entry_request (strategy_settings c) sz a leg) ->
      exists leg',
        leg_at (mem (snd (check_leg_logic env i w))) i = Some leg' /\
        status leg' = L_ACTIVE /\
        entry_price leg' = p /\
        sl_price leg' = match a with
                        | BUY => (p * (1 - pct / 100))%float
                        | SELL => (p * (1 + pct / 100))%float
                        end) /\
  (let e := Sample.env_of (Sample.at_time 11 0)
              (Sample.settings true (9, 16) 5) None None None in
   option_map sl_price
     (leg_at (mem (snd (execute_entry e 0 200%float "ENTRY_1"
                          (Sample.world_of ACTIVE
                             (Sample.leg BUY WAITING_ENTRY 0 0 0))))) 0)
   = Some 160%float /\
   option_map sl_price
     (leg_at (mem (snd (execute_entry e 0 200%float "ENTRY_1"
                          (Sample.world_of ACTIVE
                             (Sample.leg SELL WAITING_ENTRY 0 0 0))))) 0)
   = Some 240%float).
Proof.
  split.
  - intros env i w c inst sz k leg p tp pct a n tag
           Hc Hi Hsz Hleg Hp Ht Ha Hpct Hn Hst Htrig Hack.
    rewrite (check_leg_logic_waiting env i w k leg p a tp tag) by assumption.
    rewrite Htrig.
    destruct (execute_entry_acknowledged env i p tag w c inst sz k leg a pct n)
      as [ev Hex]; try assumption.
    unfold catch. rewrite Hex. cbv zeta. unfold leg_at. simpl.
    rewrite nth_error_upd_nth_same, Hleg. simpl.
    eexists; split; [reflexivity|]. simpl. auto.
  - split; vm_compute; reflexivity.
Qed.

Lemma stop_loss_set_on_entry_witness :
  exists leg',
    leg_at (mem (snd (check_leg_logic
                        (Sample.env_of (Sample.at_time 11 0)
                           (Sample.settings true (9, 16) 5)
                           (Some 276%float) None None)
                        0
                        (Sample.world_of ACTIVE
                           (Sample.leg SELL WAITING_ENTRY 0 0 0))))) 0
    = Some leg' /\
    status leg' = L_ACTIVE /\
    entry_price leg' = 276%float /\
    sl_price leg' = (276 * (1 + 20 / 100))%float.
Proof.
  apply (proj1 stop_loss_set_on_entry
           (Sample.env_of (Sample.at_time 11 0)
              (Sample.settings true (9, 16) 5) (Some 276%float) None None)
           0%nat
           (Sample.world_of ACTIVE (Sample.leg SELL WAITING_ENTRY 0 0 0))
           {| is_running := true;
              strategy_settings := Sample.settings true (9, 16) 5 |}
           "NIFTY BANK" 15 "sp10ce"
           (Sample.leg SELL WAITING_ENTRY 0 0 0)
           276%float 10%float 20%float SELL 0 "ENTRY_1");
    try reflexivity.
  - left. repeat split.
  - left. reflexivity.
Defined.

(** ** Entry trigger *)

(** C9. A leg in [WAITING_ENTRY] whose live price is available and whose
    order is acknowledged becomes active exactly when the live price is
    strictly greater than [range_high * (1 + entry_trigger_pct / 100)]; when
    it is not, the leg is left as it was.  For a range high of 250 and a
    trigger percentage of 10 the trigger price is 275, and a live price of
    274.99 leaves the leg waiting. *)
Theorem entry_trigger_strict :
  (forall (env : Env) (i : nat) (w : World) (c : Config) (inst : string)
          (sz : Z) (k : string) (leg : Leg) (p tp pct : float) (a : Action)
          (n : Z),
      env_config env = Some c ->
      st_instrument (mem w) = Some inst ->
      assoc_get inst (lot_sizes (strategy_settings c)) = Some sz ->
      nth_error (st_legs (mem w)) i = Some (k, leg) ->
      get_option_price env (token leg) = Some p ->
      truthy p = true ->
      action leg = Some a ->
      sl_pct leg = Some pct ->
      entries_count leg = Some n ->
      status leg = WAITING_ENTRY ->
      entry_trigger_pct leg = Some tp ->
      entry_acknowledged env (strategy_settings c)
        (entry_request (strategy_settings c) sz a leg) ->
      (status_at (mem (snd (check_leg_logic env i w))) i = Some L_ACTIVE
       <-> (trigger_price (range_high leg) tp <? p)%float = true) /\
      ((trigger_price (range_high leg) tp <? p)%float = false ->
       check_leg_logic env i w = (Ok tt, w))) /\
  trigger_price 250 10 = 275%float /\
  (let w := Sample.world_of ACTIVE (Sample.leg BUY WAITING_ENTRY 0 0 0) in
   check_leg_logic
     (Sample.env_of (Sample.at_time 11 0) (Sample.settings true (9, 16) 5)
        (Some 0x1.12fd70a3d70a4p+8%float) None None) 0 w
   = (Ok tt, w)).
Proof.
  split; [|split].
  - intros env i w c inst sz k leg p tp pct a n
           Hc Hi Hsz Hleg Hp Ht Ha Hpct Hn Hst Htp Hack.
    rewrite (check_leg_logic_waiting env i w k leg p a tp "ENTRY_1")
      by (try assumption; left; auto).
    destruct (trigger_price (range_high leg) tp <? p)%float eqn:Htrig.
    + destruct (execute_entry_acknowledged env i p "ENTRY_1" w c inst sz k leg
                  a pct n) as [ev Hex]; try assumption.
      unfold catch. rewrite Hex. cbv zeta. unfold status_at. simpl.
      rewrite nth_error_upd_nth_same, Hleg. simpl.
      split; [tauto | discriminate].
    + unfold status_at. simpl. rewrite Hleg. simpl. rewrite Hst.
      split; [split; discriminate | reflexivity].
  - reflexivity.
  - vm_compute. reflexivity.
Qed.

Lemma entry_trigger_strict_witness :
  let e := Sample.env_of (Sample.at_time 11 0) (Sample.settings true (9, 16) 5)
             (Some 276%float) None None in
  let w := Sample.world_of ACTIVE (Sample.leg BUY WAITING_ENTRY 0 0 0) in
  (status_at (mem (snd (check_leg_logic e 0 w))) 0 = Some L_ACTIVE
   <-> (trigger_price 250 10 <? 276)%float = true) /\
  ((trigger_price 250 10 <? 276)%float = false ->
   check_leg_logic e 0 w = (Ok tt, w)).
Proof.
  intros e w.
  apply (proj1 entry_trigger_strict e 0%nat w
           {| is_running := true;
              strategy_settings := Sample.settings true (9, 16) 5 |}
           "NIFTY BANK" 15 "sp10ce" (Sample.leg BUY WAITING_ENTRY 0 0 0)
           276%float 10%float 20%float BUY 0);
    try reflexivity.
  left. reflexivity.
Defined.

(** ** A price of zero *)

(** C10. A live price of 0 is handled as a missing price: the evaluation of
    a leg whose latest price is 0 does what the evaluation does when there
    is no price at all, namely nothing (no transition, no order, nothing
    saved), and the as-of spot lookup answers [None] for a stored 0. *)
Theorem zero_price_is_unavailable (env : Env) (i : nat) (w : World)
    (inst : string) (ts : time) :
  (forall leg, leg_at (mem w) i = Some leg ->
               get_option_price env (token leg) = Some 0%float \/
               get_option_price env (token leg) = None) ->
  q_spot_at env inst ts = Ok (Some 0%float) ->
  check_leg_logic env i w = (Ok tt, w) /\
  get_spot_price_at env inst ts w = (Ok None, w).
Proof.
  intros Hlive Hspot. split.
  - apply check_leg_logic_no_price. intros leg Hleg.
    destruct (Hlive leg Hleg) as [H | H]; rewrite H; reflexivity.
  - unfold get_spot_price_at. mred. rewrite Hspot. reflexivity.
Qed.

Lemma zero_price_is_unavailable_witness :
  let e := Sample.env_of (Sample.at_time 11 0) (Sample.settings true (9, 16) 5)
             (Some 0%float) (Some 0%float) None in
  let w := Sample.world_of ACTIVE (Sample.leg BUY L_ACTIVE 200 160 1) in
  check_leg_logic e 0 w = (Ok tt, w) /\
  get_spot_price_at e "NIFTY BANK" (Sample.at_time 9 30) w = (Ok None, w).
Proof.
  intros e w.
  apply (zero_price_is_unavailable e 0%nat w "NIFTY BANK" (Sample.at_time 9 30)).
  - intros leg H. left. vm_compute in H. inversion H. reflexivity.
  - reflexivity.
Defined.

(** ** Failed orders *)

(** C1 (the code departs from it on the exit path).  With a gateway that
    acknowledges nothing, the entry of a triggered leg leaves memory and
    file as they were, but the exit of an open leg marks it [EXITED] with
    exit price and reason, in memory and in the file. *)
Theorem exit_path_mutates_on_failed_order :
  let cfg := Sample.settings false (9, 16) 5 in
  let waiting := Sample.world_of ACTIVE (Sample.leg BUY WAITING_ENTRY 0 0 0) in
  let held := Sample.leg BUY L_ACTIVE 200 160 1 in
  let after_entry :=
    snd (execute_entry
           (Sample.env_of (Sample.at_time 11 0) cfg (Some 276%float) None None)
           0 276%float "ENTRY_1" waiting) in
  let after_exit :=
    snd (execute_exit
           (Sample.env_of (Sample.at_time 11 0) cfg (Some 150%float) None None)
           0 150%float "SL_HIT" (Sample.world_of ACTIVE held)) in
  (mem after_entry = mem waiting /\ disk after_entry = disk waiting) /\
  leg_at (mem after_exit) 0 = Some (exited 150%float "SL_HIT" held) /\
  disk after_exit = Some (mem after_exit) /\
  trace after_exit =
    [EvOrder {| o_symbol := "BANKNIFTY26JAN59100CE"; o_token := 12345;
                o_side := SELL; o_qty := 75 |} None].
Proof.
  vm_compute. repeat split; reflexivity.
Qed.

(** ** Persistence of the stop-loss transition *)

(** C2 (the code departs from it).  A stop-loss hit leaves the leg
    [WAITING_REENTRY] in memory while the file, written inside
    [execute_exit], still says [EXITED]; a restart then reloads [EXITED]. *)
Theorem stop_loss_transition_not_saved :
  let e := Sample.env_of (Sample.at_time 11 0) (Sample.settings true (9, 16) 5)
             (Some 150%float) None None in
  let w := snd (loop_iteration e
                  (Sample.world_of ACTIVE (Sample.leg BUY L_ACTIVE 200 160 1))) in
  status_at (mem w) 0 = Some WAITING_REENTRY /\
  option_map (fun d => status_at d 0) (disk w) = Some (Some EXITED) /\
  status_at (mem (snd (startup e (restart w)))) 0 = Some EXITED.
Proof.
  vm_compute. repeat split; reflexivity.
Qed.

(** ** The gap check *)

(** C3 (the code departs from it for SELL legs).  The gap check compares
    [price <= sl_price] whatever the direction: an open SELL leg with
    stop-loss 240 is left alone at a live price of 250, which has breached
    it, and is exited with [GAP_SL_HIT] at 200, which has not. *)
Theorem gap_check_ignores_direction :
  let cfg := Sample.settings true (9, 16) 5 in
  let held := Sample.leg SELL L_ACTIVE 200 240 1 in
  let w := Sample.world_of ACTIVE held in
  sl_hit SELL 250 240 = true /\
  check_gap_condition
    (Sample.env_of (Sample.at_time 9 17) cfg (Some 250%float) None None) w
  = (Ok tt, w) /\
  sl_hit SELL 200 240 = false /\
  leg_at (mem (snd (check_gap_condition
                      (Sample.env_of (Sample.at_time 9 17) cfg
                         (Some 200%float) None None) w))) 0
  = Some (exited 200%float "GAP_SL_HIT" held).
Proof.
  vm_compute. repeat split; reflexivity.
Qed.

(** ** Time windows *)

(** Without a carry the window test is the half-open interval. *)
Lemma window_test_no_carry (env : Env) (h m width : Z) :
  0 <= h <= 23 -> 0 <= m + width <= 59 ->
  window_test env (mk_time_raw h m 0 0) h m width =
  Ok (time_geb (env_now env) (mk_time_raw h m 0 0)
      && time_ltb (env_now env) (mk_time_raw h (m + width) 0 0)).
Proof.
  intros Hh Hm. unfold window_test, mk_time.
  replace ((0 <=? h) && (h <=? 23)) with true by (symmetry; apply andb_true_iff; lia).
  replace ((0 <=? m + width) && (m + width <=? 59)) with true
    by (symmetry; apply andb_true_iff; lia).
  simpl. destruct (time_geb _ _); reflexivity.
Qed.

(** With a carry, and from the window start on, the test raises. *)
Lemma window_test_carry (env : Env) (t0 : time) (h m width : Z) :
  time_geb (env_now env) t0 = true ->
  0 <= h <= 23 -> 59 < m + width ->
  window_test env t0 h m width = Raise (ValueError "minute must be in 0..59").
Proof.
  intros Hge Hh Hm. unfold window_test, mk_time. rewrite Hge.
  replace ((0 <=? h) && (h <=? 23)) with true by (symmetry; apply andb_true_iff; lia).
  replace ((0 <=? m + width) && (m + width <=? 59)) with false
    by (symmetry; apply andb_false_iff; right; apply Z.leb_gt; lia).
  reflexivity.
Qed.

(** C6 (the code departs from it when the minutes carry).  With the check
    time 09:58 and a window of 5 minutes, at 10:01:30 the clock lies in
    [09:58, 10:03), yet the window test raises [ValueError] (minute 63), the
    iteration is abandoned and changes nothing, although an open leg has
    breached its stop-loss; the start window, built by adding a time delta,
    does carry. *)
Theorem gap_window_fails_on_minute_carry :
  let cfg := Sample.settings true (9, 58) 5 in
  let e := Sample.env_of (Sample.at_time 10 1) cfg (Some 150%float) None None in
  let check_time := mk_time_raw 9 58 0 0 in
  let w := Sample.world_of ACTIVE (Sample.leg BUY L_ACTIVE 200 160 1) in
  (time_geb (env_now e) check_time
   && time_ltb (env_now e) (time_add_minutes check_time 5)) = true /\
  window_test e check_time 9 58 5 = Raise (ValueError "minute must be in 0..59") /\
  fst (gap_check_task e cfg check_time w)
  = Raise (ValueError "minute must be in 0..59") /\
  loop_iteration e w = (Ok tt, w) /\
  time_add_minutes (mk_time_raw 9 58 0 0) 5 = mk_time_raw 10 3 0 0.
Proof.
  vm_compute. repeat split; reflexivity.
Qed.

(** ** Strike selection without a spot price *)

(** C4, as stated, fails: with no spot price [select_strikes] answers
    [False] but has already stored the instrument. *)
Lemma select_strikes_failure_stores_instrument :
  let e := Sample.env_of (Sample.at_time 9 31) (Sample.settings true (9, 16) 5)
             None None None in
  fst (select_strikes e fresh_world) = Ok false /\
  mem (snd (select_strikes e fresh_world)) <> mem fresh_world.
Proof.
  split.
  - vm_compute. reflexivity.
  - intros H. apply (f_equal st_instrument) in H. vm_compute in H.
    discriminate H.
Qed.

(** C4, amended.  If the start time is a valid time, the instrument has a
    market symbol and the spot price as of the selection time (the start
    time, or the clock when that is earlier) is missing (no row, or a price
    of 0), whatever the database holds for other times, [select_strikes]
    answers [False] and changes nothing but the [instrument] field of the
    state, which it sets to the configured instrument: no leg, not the
    phase, not the file, no order. *)
Theorem select_strikes_without_spot (env : Env) (w : World) (c : Config)
    (t0 : time) (db_instrument : string) (val : option float) :
  env_config env = Some c ->
  mk_time (fst (tr_start (time_range (strategy_settings c))))
          (snd (tr_start (time_range (strategy_settings c)))) = Ok t0 ->
  assoc_get (cfg_instrument (strategy_settings c))
            (instrument_map (strategy_settings c)) = Some db_instrument ->
  q_spot_at env (cfg_instrument (strategy_settings c))
    (if time_ltb (env_now env) t0 then env_now env else t0) = Ok val ->
  truthy_opt val = false ->
  select_strikes env w =
  (Ok false,
   {| mem := set_st_instrument (Some (cfg_instrument (strategy_settings c)))
               (mem w);
      disk := disk w;
      trace := trace w |}).
Proof.
  intros Hc Ht Hmap Hq Hv.
  unfold select_strikes, get_strategy_settings, get_spot_price_at.
  rewrite Hc. mred. rewrite Ht, Hmap.
  rewrite Hq, Hv. reflexivity.
Qed.

Lemma select_strikes_without_spot_witness :
  let e0 := Sample.env_of (Sample.at_time 9 31) (Sample.settings true (9, 16) 5)
              None None None in
  let e := {| env_now := env_now e0; env_config := env_config e0;
              q_spot_at := fun _ ts =>
                if time_ltb (mk_time_raw 9 30 0 0) ts
                then Ok (Some 59130%float) else Ok None;
              q_option_latest := q_option_latest e0;
              q_option_at := q_option_at e0;
              q_active_expiries := q_active_expiries e0;
              q_token_for_strike := q_token_for_strike e0;
              q_strikes_at := q_strikes_at e0;
              q_range_high_low := q_range_high_low e0;
              gateway := gateway e0 |} in
  select_strikes e fresh_world =
  (Ok false,
   {| mem := set_st_instrument (Some "NIFTY BANK") (mem fresh_world);
      disk := None; trace := [] |}).
Proof.
  intros e0 e.
  apply (select_strikes_without_spot e fresh_world
           {| is_running := true;
              strategy_settings := Sample.settings true (9, 16) 5 |}
           (mk_time_raw 9 30 0 0) "BANKNIFTY" None);
    reflexivity.
Defined.

(** ** The daily exit, run twice *)

Lemma no_open_leg_update (i : nat) (f : Leg -> Leg) (w : World) :
  (forall l, status l <> L_ACTIVE -> status (f l) <> L_ACTIVE) ->
  no_open_leg w ->
  no_open_leg (snd (leg_update i f w)).
Proof.
  intros Hf Hw kl Hin. simpl in Hin.
  apply In_upd_nth in Hin. destruct Hin as [Hin | (x & Hx & ->)].
  - apply Hw, Hin.
  - simpl. apply Hf, Hw. eapply nth_error_In, Hx.
Qed.

(** With no open leg the scan of [execute_strategy_exit] builds no task and
    places no order. *)
Lemma exit_scan_no_open_leg (env : Env) (idx : list nat) (w : World) :
  no_open_leg w ->
  no_open_leg (snd (exit_scan env idx w)) /\
  trace (snd (exit_scan env idx w)) = trace w /\
  (forall tasks, fst (exit_scan env idx w) = Ok tasks -> tasks = []).
Proof.
  revert w. induction idx as [|i rest IH]; intros w Hw.
  - simpl. repeat split; auto. intros tasks H. inversion H. reflexivity.
  - simpl. unfold bind, leg_get.
    destruct (nth_error (st_legs (mem w)) i) as [kl|] eqn:Hi.
    + assert (Hst : status (snd kl) <> L_ACTIVE)
        by (apply Hw; eapply nth_error_In, Hi).
      pose proof (no_open_leg_update i (set_status DONE) w) as Hu.
      simpl in Hu.
      destruct (status (snd kl)) eqn:Hs; try congruence;
        try (apply IH; assumption);
        simpl;
        destruct (IH _ (Hu ltac:(simpl; congruence) Hw)) as (H1 & H2 & H3);
        repeat split; assumption.
    + simpl. repeat split; auto. discriminate.
Qed.

(** The scan reads legs by positions below the number of legs, so it ends
    normally. *)
Lemma exit_scan_never_raises (env : Env) (idx : list nat) (w0 : World) :
  (forall i, In i idx -> (i < List.length (st_legs (mem w0)))%nat) ->
  forall e w1, exit_scan env idx w0 <> (Raise e, w1).
Proof.
  revert w0.
  induction idx as [|i rest IH]; intros w0 Hlt e0 w1; simpl.
  - unfold ret. discriminate.
  - unfold bind, leg_get, ret.
    destruct (nth_error (st_legs (mem w0)) i) as [kl|] eqn:Hi.
    + assert (Hrest : forall j, In j rest ->
                                (j < List.length (st_legs (mem w0)))%nat)
        by (intros j Hj; apply Hlt; right; exact Hj).
      destruct (status (snd kl)); try (apply IH; assumption).
      * simpl. apply IH. simpl.
        intros j Hj. rewrite length_upd_nth. auto.
      * intros Hc.
        destruct (exit_scan env rest w0) as [[ts|e1] w2] eqn:Hr;
          [discriminate|].
        eapply IH; eauto.
      * simpl. apply IH. simpl.
        intros j Hj. rewrite length_upd_nth. auto.
    + exfalso. apply nth_error_None in Hi.
      specialize (Hlt i (or_introl eq_refl)). lia.
Qed.

(** C7. Once the daily-exit task has run to its end in an open exit window,
    the phase is [IDLE], and a further run of the task, at any time and
    under any settings, changes nothing: no order, no paper trade, no state
    change.  Besides, [execute_strategy_exit] places no order at all when no
    leg is [ACTIVE], so legs already [EXITED] or [DONE] never get one. *)
Theorem daily_exit_twice_places_no_order :
  (forall (env : Env) (settings : Settings) (exit_time : time) (w : World),
      window_test env exit_time
        (fst (strategy_exit (time_range settings)))
        (snd (strategy_exit (time_range settings)))
        (exit_check_window_minutes (strategy_parameters settings)) = Ok true ->
      fst (daily_exit_task env settings exit_time w) = Ok tt ->
      let w1 := snd (daily_exit_task env settings exit_time w) in
      st_status (mem w1) = IDLE /\
      forall (env' : Env) (settings' : Settings) (exit_time' : time),
        snd (daily_exit_task env' settings' exit_time' w1) = w1) /\
  (forall (env : Env) (w : World),
      no_open_leg w ->
      fst (execute_strategy_exit env w) = Ok tt /\
      trace (snd (execute_strategy_exit env w)) = trace w).
Proof.
  split.
  - intros env settings exit_time w Hwin Hok w1.
    assert (Hidle : st_status (mem w1) = IDLE).
    { subst w1. revert Hok. unfold daily_exit_task, in_window. mred.
      rewrite Hwin.
      destruct (st_status (mem w)) eqn:Hph; simpl; auto;
        destruct (execute_strategy_exit env w) as [[u|e] w2]; simpl; auto;
        discriminate. }
    split; [exact Hidle|].
    intros env' settings' exit_time'.
    unfold daily_exit_task, in_window. mred.
    destruct (window_test env' exit_time' _ _ _) as [[|]|e]; simpl; auto.
    rewrite Hidle. reflexivity.
  - intros env w Hw. unfold execute_strategy_exit. mred.
    destruct (exit_scan_no_open_leg env (seq 0 (List.length (st_legs (mem w)))) w Hw)
      as (_ & Htr & Hts).
    destruct (exit_scan env _ w) as [[tasks|e] w'] eqn:Hscan.
    + simpl in *. rewrite (Hts tasks eq_refl). simpl. auto.
    + simpl in *. exfalso.
      revert Hscan. apply exit_scan_never_raises.
      intros i Hi. apply in_seq in Hi. lia.
Qed.

Lemma daily_exit_twice_places_no_order_witness :
  let e := Sample.env_of (Sample.at_time 15 21) (Sample.settings true (9, 16) 5)
             (Some 150%float) None None in
  let cfg := Sample.settings true (9, 16) 5 in
  let w := Sample.world_of ACTIVE (Sample.leg BUY L_ACTIVE 200 160 1) in
  let w1 := snd (daily_exit_task e cfg (mk_time_raw 15 20 0 0) w) in
  st_status (mem w1) = IDLE /\
  forall (env' : Env) (settings' : Settings) (exit_time' : time),
    snd (daily_exit_task env' settings' exit_time' w1) = w1.
Proof.
  intros e cfg w.
  apply (proj1 daily_exit_twice_places_no_order e cfg (mk_time_raw 15 20 0 0) w);
    reflexivity.
Defined.

(** ** A Hoare logic for the engine's monad *)

Lemma preserves_snd {A : Type} (P : World -> Prop) (m : M A) (w : World) :
  preserves P m -> P w -> P (snd (m w)).
Proof.
  intros H Hw. specialize (H w Hw). destruct (m w) as [[a|e] w']; exact H.
Qed.

Lemma triple_weaken {A : Type} (P P' : World -> Prop) (m : M A)
    (R R' : A -> World -> Prop) (Q Q' : World -> Prop) :
  triple P' m R' Q' ->
  (forall w, P w -> P' w) ->
  (forall a w, R' a w -> R a w) ->
  (forall w, Q' w -> Q w) ->
  triple P m R Q.
Proof.
  intros H HP HR HQ w Hw. specialize (H w (HP w Hw)).
  destruct (m w) as [[a|e] w']; auto.
Qed.

(** A fact that follows from the precondition may be used as a premise. *)
Lemma triple_assume {A : Type} (F : Prop) (P : World -> Prop) (m : M A)
    (R : A -> World -> Prop) (Q : World -> Prop) :
  (forall w, P w -> F) ->
  (F -> triple P m R Q) ->
  triple P m R Q.
Proof.
  intros HF H w Hw. exact (H (HF w Hw) w Hw).
Qed.

Lemma triple_ret {A : Type} (P : World -> Prop) (a : A)
    (R : A -> World -> Prop) (Q : World -> Prop) :
  (forall w, P w -> R a w) -> triple P (ret a) R Q.
Proof. intros H w Hw. apply H, Hw. Qed.

Lemma triple_raise {A : Type} (P : World -> Prop) (e : Exn)
    (R : A -> World -> Prop) (Q : World -> Prop) :
  (forall w, P w -> Q w) -> triple P (raise e) R Q.
Proof. intros H w Hw. apply H, Hw. Qed.

Lemma triple_bind {A B : Type} (P : World -> Prop) (m : M A) (k : A -> M B)
    (R1 : A -> World -> Prop) (R : B -> World -> Prop) (Q : World -> Prop) :
  triple P m R1 Q ->
  (forall a, triple (R1 a) (k a) R Q) ->
  triple P (bind m k) R Q.
Proof.
  intros Hm Hk w Hw. unfold bind. specialize (Hm w Hw).
  destruct (m w) as [[a|e] w']; auto. apply Hk, Hm.
Qed.

Lemma triple_catch {A : Type} (P : World -> Prop) (m : M A) (h : Exn -> M A)
    (R : A -> World -> Prop) (Q1 Q : World -> Prop) :
  triple P m R Q1 ->
  (forall e, triple Q1 (h e) R Q) ->
  triple P (catch m h) R Q.
Proof.
  intros Hm Hh w Hw. unfold catch. specialize (Hm w Hw).
  destruct (m w) as [[a|e] w']; auto. apply Hh, Hm.
Qed.

(** A step that keeps [P], followed by a continuation. *)
Lemma bind_keeps {A B : Type} (P : World -> Prop) (m : M A) (k : A -> M B)
    (R : B -> World -> Prop) (Q : World -> Prop) :
  preserves P m ->
  (forall w, P w -> Q w) ->
  (forall a, triple P (k a) R Q) ->
  triple P (bind m k) R Q.
Proof.
  intros Hm HQ Hk. apply triple_bind with (R1 := fun _ => P); auto.
  eapply triple_weaken; [exact Hm| | |]; auto.
Qed.

(** Steps that read: the continuation learns what was read. *)
Lemma bind_lift {A B : Type} (P : World -> Prop) (r : Res A) (k : A -> M B)
    (R : B -> World -> Prop) (Q : World -> Prop) :
  (forall w, P w -> Q w) ->
  (forall a, r = Ok a -> triple P (k a) R Q) ->
  triple P (bind (lift r) k) R Q.
Proof.
  intros HQ Hk w Hw. unfold bind, lift.
  destruct r as [a|e]; auto. apply (Hk a eq_refl), Hw.
Qed.

Lemma bind_key {A B : Type} (P : World -> Prop) (name : string) (v : option A)
    (k : A -> M B) (R : B -> World -> Prop) (Q : World -> Prop) :
  (forall w, P w -> Q w) ->
  (forall a, v = Some a -> triple P (k a) R Q) ->
  triple P (bind (key name v) k) R Q.
Proof.
  intros HQ Hk w Hw. unfold bind, key.
  destruct v as [a|]; simpl; auto. apply (Hk a eq_refl), Hw.
Qed.

Lemma bind_get_state {B : Type} (P : World -> Prop) (k : State -> M B)
    (R : B -> World -> Prop) (Q : World -> Prop) :
  (forall s, triple (fun w => P w /\ mem w = s) (k s) R Q) ->
  triple P (bind get_state k) R Q.
Proof.
  intros Hk w Hw. unfold bind, get_state. apply Hk. auto.
Qed.

Lemma bind_leg_get {B : Type} (P : World -> Prop) (i : nat) (k : Leg -> M B)
    (R : B -> World -> Prop) (Q : World -> Prop) :
  (forall w, P w -> Q w) ->
  (forall kl,
      triple (fun w => P w /\ nth_error (st_legs (mem w)) i = Some kl)
        (k (snd kl)) R Q) ->
  triple P (bind (leg_get i) k) R Q.
Proof.
  intros HQ Hk w Hw. unfold bind, leg_get.
  destruct (nth_error (st_legs (mem w)) i) as [kl|] eqn:Hi; auto.
  apply Hk. auto.
Qed.

Lemma bind_settings {B : Type} (env : Env) (P : World -> Prop)
    (k : Settings -> M B) (R : B -> World -> Prop) (Q : World -> Prop) :
  (forall w, P w -> Q w) ->
  (forall c, env_config env = Some c -> triple P (k (strategy_settings c)) R Q) ->
  triple P (bind (get_strategy_settings env) k) R Q.
Proof.
  intros HQ Hk w Hw. unfold bind, get_strategy_settings.
  destruct (env_config env) as [c|]; simpl; auto. apply (Hk c eq_refl), Hw.
Qed.

Lemma preserves_ret {A : Type} (P : World -> Prop) (a : A) :
  preserves P (ret a).
Proof. apply triple_ret. auto. Qed.

Lemma preserves_raise {A : Type} (P : World -> Prop) (e : Exn) :
  preserves P (@raise A e).
Proof. apply triple_raise. auto. Qed.

Lemma preserves_lift {A : Type} (P : World -> Prop) (r : Res A) :
  preserves P (lift r).
Proof. intros w Hw. unfold lift. destruct r; exact Hw. Qed.

Lemma preserves_key {A : Type} (P : World -> Prop) (name : string)
    (v : option A) :
  preserves P (key name v).
Proof. intros w Hw. unfold key. destruct v; exact Hw. Qed.

Lemma preserves_bind {A B : Type} (P : World -> Prop) (m : M A) (k : A -> M B) :
  preserves P m -> (forall a, preserves P (k a)) -> preserves P (bind m k).
Proof. intros Hm Hk. apply bind_keeps; auto. Qed.

Lemma preserves_catch {A : Type} (P : World -> Prop) (m : M A) (h : Exn -> M A) :
  preserves P m -> (forall e, preserves P (h e)) -> preserves P (catch m h).
Proof. intros Hm Hh. eapply triple_catch; eauto. Qed.

Lemma preserves_when (P : World -> Prop) (c : bool) (m : M unit) :
  preserves P m -> preserves P (when c m).
Proof. intros Hm. destruct c; simpl; auto. apply preserves_ret. Qed.

Lemma preserves_gather (P : World -> Prop) (tasks : list (M unit)) :
  Forall (preserves P) tasks -> preserves P (gather tasks).
Proof.
  induction 1 as [|t ts Ht Hts IH]; simpl.
  - apply preserves_ret.
  - intros w Hw. specialize (Ht w Hw).
    destruct (t w) as [[u|e] w'].
    + apply IH, Ht.
    + apply (preserves_snd P (gather ts) w' IH Ht).
Qed.

Lemma preserves_for_each {A : Type} (P : World -> Prop) (l : list A)
    (body : A -> M unit) :
  (forall x, preserves P (body x)) -> preserves P (for_each l body).
Proof.
  intros Hb. induction l as [|x l IH]; simpl.
  - apply preserves_ret.
  - apply preserves_bind; auto.
Qed.

Lemma preserves_scan_then_gather (P : World -> Prop)
    (scan : M (list (M unit))) :
  builds_tasks P scan ->
  preserves P (bind scan (fun tasks =>
                            match tasks with
                            | [] => ret tt
                            | _ => gather tasks
                            end)).
Proof.
  intros Hs. eapply triple_bind; [exact Hs|].
  intros tasks w [Hw Hts]. destruct tasks as [|t ts].
  - exact Hw.
  - apply (preserves_gather P (t :: ts) Hts w Hw).
Qed.

Lemma preserves_reads {A : Type} (P : World -> Prop) (m : M A) :
  reads m -> preserves P m.
Proof.
  intros H w Hw. specialize (H w).
  destruct (m w) as [[a|e] w']; simpl in H; subst; exact Hw.
Qed.

Lemma reads_ret {A : Type} (a : A) : reads (ret a).
Proof. intros w. reflexivity. Qed.

Lemma reads_raise {A : Type} (e : Exn) : reads (@raise A e).
Proof. intros w. reflexivity. Qed.

Lemma reads_lift {A : Type} (r : Res A) : reads (lift r).
Proof. intros w. reflexivity. Qed.

Lemma reads_key {A : Type} (name : string) (v : option A) : reads (key name v).
Proof. intros w. destruct v; reflexivity. Qed.

Lemma reads_get_state : reads get_state.
Proof. intros w. reflexivity. Qed.

Lemma reads_leg_get (i : nat) : reads (leg_get i).
Proof.
  intros w. unfold leg_get. destruct (nth_error _ _); reflexivity.
Qed.

Lemma reads_bind {A B : Type} (m : M A) (k : A -> M B) :
  reads m -> (forall a, reads (k a)) -> reads (bind m k).
Proof.
  intros Hm Hk w. unfold bind. specialize (Hm w).
  destruct (m w) as [[a|e] w']; simpl in Hm; subst; auto. apply Hk.
Qed.

Lemma reads_settings (env : Env) : reads (get_strategy_settings env).
Proof.
  intros w. unfold get_strategy_settings. destruct (env_config env); reflexivity.
Qed.

Create HintDb reads.
#[export] Hint Resolve reads_ret reads_raise reads_lift reads_key
  reads_get_state reads_leg_get reads_settings : reads.

(** Decides [reads] goals by following the structure of the computation. *)
Ltac reads_tac :=
  repeat (intros;
          first [ solve [auto with reads]
                | apply reads_bind
                | match goal with
                  | |- reads (match ?x with _ => _ end) => destruct x
                  | |- reads (if ?x then _ else _) => destruct x
                  end ]).

Lemma reads_lot_size_for (c : Settings) : reads (lot_size_for c).
Proof. unfold lot_size_for. reads_tac. Qed.

Lemma reads_leg_indices : reads leg_indices.
Proof. unfold leg_indices. reads_tac. Qed.

Lemma reads_get_spot_price_at (env : Env) (inst : string) (ts : time) :
  reads (get_spot_price_at env inst ts).
Proof. unfold get_spot_price_at. reads_tac. Qed.

Lemma reads_get_option_price_at (env : Env) (tok : Z) (ts : time) :
  reads (get_option_price_at env tok ts).
Proof. unfold get_option_price_at. reads_tac. Qed.

Lemma reads_get_expiry (env : Env) (inst pref : string) :
  reads (get_expiry env inst pref).
Proof. unfold get_expiry. reads_tac. Qed.

#[export] Hint Resolve reads_lot_size_for reads_leg_indices
  reads_get_spot_price_at reads_get_option_price_at reads_get_expiry : reads.

Lemma reads_find_leg (env : Env) (db : string) (ts : time) (sp pct : float)
    (ot pref : string) :
  reads (find_leg env db ts sp pct ot pref).
Proof. unfold find_leg. reads_tac. Qed.

Lemma reads_atm_strike_of (spot : float) (step : Z) :
  reads (atm_strike_of spot step).
Proof. unfold atm_strike_of. reads_tac. Qed.

Lemma reads_in_window (env : Env) (t0 : time) (h m width : Z) :
  reads (in_window env t0 h m width).
Proof. unfold in_window. reads_tac. Qed.

#[export] Hint Resolve reads_find_leg reads_atm_strike_of reads_in_window : reads.

(** ** The re-entry bound *)

Lemma Inv_weaken (Q Q' : Phase -> Prop) (w : World) :
  (forall p, Q p -> Q' p) -> Inv Q w -> Inv Q' w.
Proof. intros H [Hb Hq]. split; auto. Qed.

Lemma Inv_emit (Q : Phase -> Prop) (ev : Event) : preserves (Inv Q) (emit ev).
Proof. intros w Hw. exact Hw. Qed.

Lemma Inv_save_state (Q : Phase -> Prop) : preserves (Inv Q) save_state.
Proof.
  intros w [[Hm Hd] Hq]. simpl. split; [split|]; auto.
  intros d Hd'. simpl in Hd'. inversion Hd'. subst. exact Hm.
Qed.

Lemma Inv_set_instrument (Q : Phase -> Prop) (v : option string) :
  preserves (Inv Q) (modify_state (set_st_instrument v)).
Proof. intros w Hw. exact Hw. Qed.

(** An update of one leg keeps the bound when it does so on the leg that is
    there. *)
Lemma Inv_leg_update_at (Q : Phase -> Prop) (i : nat) (f : Leg -> Leg)
    (kl : string * Leg) :
  (forall ph, Q ph -> leg_bound ph (snd kl) -> leg_bound ph (f (snd kl))) ->
  triple (fun w => Inv Q w /\ nth_error (st_legs (mem w)) i = Some kl)
    (leg_update i f) (fun _ => Inv Q) (Inv Q).
Proof.
  intros Hf w [[[Hm Hd] Hq] Hi]. simpl. split; [split|]; auto.
  intros x Hx. simpl in Hx. apply In_upd_nth in Hx.
  destruct Hx as [Hx | (y & Hy & ->)].
  - apply Hm, Hx.
  - simpl. rewrite Hi in Hy. inversion Hy. subst y.
    apply Hf; auto. apply Hm. eapply nth_error_In, Hi.
Qed.

Lemma Inv_leg_update (Q : Phase -> Prop) (i : nat) (f : Leg -> Leg) :
  (forall ph l, Q ph -> leg_bound ph l -> leg_bound ph (f l)) ->
  preserves (Inv Q) (leg_update i f).
Proof.
  intros Hf w Hw.
  destruct (nth_error (st_legs (mem w)) i) as [kl|] eqn:Hi.
  - apply (Inv_leg_update_at Q i f kl); auto.
  - destruct Hw as [[Hm Hd] Hq]. simpl. split; [split|]; auto.
    intros x Hx. simpl in Hx. apply In_upd_nth in Hx.
    destruct Hx as [Hx | (y & Hy & ->)]; [apply Hm, Hx | congruence].
Qed.

Lemma In_assoc_set {V : Type} (k : string) (v : V) (d : list (string * V))
    (x : string * V) :
  In x (assoc_set k v d) -> In x d \/ snd x = v.
Proof.
  induction d as [|[k' v'] d IH]; simpl.
  - intros [<- | []]. auto.
  - destruct (String.eqb k k'); simpl.
    + intros [<- | H]; auto.
    + intros [<- | H]; auto. destruct (IH H); auto.
Qed.

(** Storing a leg that satisfies the bound in every phase. *)
Lemma Inv_store_leg (Q : Phase -> Prop) (k : string) (l : Leg) :
  (forall ph, leg_bound ph l) ->
  preserves (Inv Q)
    (modify_state (fun s => set_st_legs (assoc_set k l (st_legs s)) s)).
Proof.
  intros Hl w [[Hm Hd] Hq]. simpl. split; [split|]; auto.
  intros x Hx. simpl in Hx. apply In_assoc_set in Hx.
  destruct Hx as [Hx | ->]; [apply Hm, Hx | apply Hl].
Qed.

(** The leg updates of the source and the bound. *)
Lemma leg_bound_exited (ph : Phase) (price : float) (reason : string) (l : Leg) :
  leg_bound ph l -> leg_bound ph (exited price reason l).
Proof.
  intros H n Hn. destruct (H n Hn) as (H1 & H2 & H3 & H4).
  simpl. repeat split; auto; discriminate.
Qed.

Lemma leg_bound_done (ph : Phase) (l : Leg) :
  leg_bound ph l -> leg_bound ph (set_status DONE l).
Proof.
  intros H n Hn. destruct (H n Hn) as (H1 & H2 & H3 & H4).
  simpl. repeat split; auto; discriminate.
Qed.

Lemma leg_bound_selected (ph : Phase) (best : Candidate) (details : LegConfig)
    (target : float) :
  leg_bound ph (selected_leg best details target).
Proof.
  intros n Hn. simpl in Hn. inversion Hn. subst.
  repeat split; auto; lia.
Qed.

Lemma leg_bound_placeholder (ph : Phase) (details : LegConfig) :
  leg_bound ph (placeholder_leg details).
Proof. intros n Hn. discriminate Hn. Qed.

Lemma leg_bound_ranged (ph : Phase) (hi lo : float) (l : Leg) :
  ph <> ACTIVE ->
  leg_bound ph l -> leg_bound ph (set_status WAITING_ENTRY (set_range hi lo l)).
Proof.
  intros Hph H n Hn. destruct (H n Hn) as (H1 & H2 & H3 & H4).
  simpl. repeat split; auto. intros _. rewrite (H4 Hph). lia.
Qed.

(** Proves that a computation built from the steps above keeps [Inv Q]. *)
Ltac keeps_tac :=
  repeat (intros;
          first [ apply preserves_ret
                | apply preserves_raise
                | apply Inv_emit
                | apply Inv_save_state
                | apply Inv_set_instrument
                | apply preserves_reads; solve [reads_tac]
                | apply Inv_leg_update; intros;
                  solve [ apply leg_bound_exited; assumption
                        | apply leg_bound_done; assumption ]
                | apply preserves_bind
                | apply preserves_when
                | match goal with
                  | |- preserves _ (match ?x with _ => _ end) => destruct x
                  | |- preserves _ (if ?x then _ else _) => destruct x
                  end ]).

Lemma execute_exit_bound (Q : Phase -> Prop) (env : Env) (i : nat)
    (price : float) (reason : string) :
  preserves (Inv Q) (execute_exit env i price reason).
Proof. unfold execute_exit. keeps_tac. Qed.

Lemma Inv_at_weaken (i : nat) (L : Leg -> Prop) (w : World) :
  Inv_at i L w -> Inv (eq ACTIVE) w.
Proof. intros [H _]. exact H. Qed.

Lemma Inv_at_leg_update (i : nat) (f : Leg -> Leg) (L L' : Leg -> Prop) :
  (forall ph l, leg_bound ph l -> leg_bound ph (f l)) ->
  (forall l, L l -> L' (f l)) ->
  triple (Inv_at i L) (leg_update i f) (fun _ => Inv_at i L') (Inv_at i L').
Proof.
  intros Hf HL w [Hinv Hat]. simpl. split.
  - apply (preserves_snd (Inv (eq ACTIVE)) (leg_update i f) w); auto.
    apply Inv_leg_update. auto.
  - intros kl Hkl. simpl in Hkl.
    rewrite nth_error_upd_nth_same in Hkl.
    destruct (nth_error (st_legs (mem w)) i) as [kl0|] eqn:H0; [|discriminate].
    simpl in Hkl. inversion Hkl. subst kl. simpl. apply HL, Hat, H0.
Qed.

Lemma leg_bound_opened (ph : Phase) (price : float) (l : Leg) :
  leg_bound ph l -> leg_bound ph (set_entry_price price (set_status L_ACTIVE l)).
Proof.
  intros H n Hn. destruct (H n Hn) as (H1 & H2 & H3 & H4).
  simpl. repeat split; auto; discriminate.
Qed.

Lemma leg_bound_sl_price (ph : Phase) (v : float) (l : Leg) :
  leg_bound ph l -> leg_bound ph (set_sl_price v l).
Proof. intros H n Hn. exact (H n Hn). Qed.

(** An entry on a leg that has entered at most once keeps the bound. *)
Lemma execute_entry_bound (env : Env) (i : nat) (price : float)
    (description : string) :
  triple (Inv_at i at_most_once) (execute_entry env i price description)
    (fun _ => Inv (eq ACTIVE)) (Inv (eq ACTIVE)).
Proof.
  pose proof (Inv_at_weaken i at_most_once) as Hweak.
  set (open_once := fun l => status l = L_ACTIVE /\ at_most_once l).
  pose proof (Inv_at_weaken i open_once) as Hweak'.
  assert (Hemit : forall ev, preserves (Inv_at i at_most_once) (emit ev))
    by (intros ev w Hw; exact Hw).
  unfold execute_entry.
  apply bind_settings; [exact Hweak|]. intros c Hc.
  apply bind_keeps; [apply preserves_reads; reads_tac | exact Hweak |].
  intros lot_size.
  apply bind_keeps; [apply preserves_reads; reads_tac | exact Hweak |].
  intros leg.
  apply bind_key; [exact Hweak|]. intros a Ha.
  apply bind_keeps; [ | exact Hweak | ].
  { destruct (paper_trading _);
      (apply preserves_bind; [apply Hemit | intros; apply preserves_ret]). }
  intros order_id. destruct (truthy_str order_id).
  2:{ apply triple_ret. exact Hweak. }
  apply triple_bind with (R1 := fun _ => Inv_at i open_once).
  { eapply triple_weaken;
      [ apply (Inv_at_leg_update i _ at_most_once open_once) | | | ]; auto.
    - intros; apply leg_bound_opened; assumption.
    - intros l Hl. split; [reflexivity | exact Hl]. }
  intros _.
  apply bind_keeps; [apply preserves_reads; reads_tac | exact Hweak' |].
  intros leg1.
  apply bind_key; [exact Hweak'|]. intros pct Hpct.
  apply bind_keeps; [ | exact Hweak' | ].
  { apply (Inv_at_leg_update i _ open_once open_once).
    - intros; apply leg_bound_sl_price; assumption.
    - intros l Hl. exact Hl. }
  intros _.
  apply bind_leg_get; [exact Hweak'|]. intros kl.
  apply bind_key; [intros w [H _]; apply Hweak', H|]. intros n Hn.
  apply (triple_assume (status (snd kl) = L_ACTIVE /\ n <= 1)).
  { intros w [[_ Hat] Hkl]. destruct (Hat kl Hkl) as [Hs Ho]. auto. }
  intros [Hs Hle].
  apply triple_bind with (R1 := fun _ => Inv (eq ACTIVE)).
  - eapply triple_weaken.
    + apply (Inv_leg_update_at (eq ACTIVE) i (set_entries_count (n + 1)) kl).
      intros ph Hph Hb m Hm. simpl in Hm. inversion Hm. subst m.
      simpl. rewrite Hs. repeat split; try congruence. lia.
    + intros w [[Hinv Hone] Hkl]. split; [exact Hinv | exact Hkl].
    + auto.
    + auto.
  - intros _. apply Inv_save_state.
Qed.

Lemma triple_pre {A : Type} (P P' : World -> Prop) (m : M A)
    (R : A -> World -> Prop) (Q : World -> Prop) :
  (forall w, P w -> P' w) -> triple P' m R Q -> triple P m R Q.
Proof. intros HP H w Hw. apply H, HP, Hw. Qed.

(** What follows a stop-loss exit in [check_leg_logic]: the leg waits for a
    re-entry if it has entered fewer than two times, and is done otherwise. *)
Lemma after_stop_loss_bound (i : nat) :
  preserves (Inv (eq ACTIVE))
    (bind (leg_get i)
       (fun leg1 =>
          bind (key "entries_count" (entries_count leg1))
            (fun n =>
               if n <? 2
               then leg_update i (set_status WAITING_REENTRY)
               else leg_update i (set_status DONE)))).
Proof.
  apply bind_leg_get; [auto|]. intros kl.
  apply bind_key; [intros w [H _]; exact H|]. intros n Hn.
  destruct (n <? 2) eqn:Hlt.
  - apply (Inv_leg_update_at (eq ACTIVE) i (set_status WAITING_REENTRY) kl).
    intros ph Hph Hb m Hm. simpl in Hm.
    assert (Hmn : m = n) by congruence.
    destruct (Hb n Hn) as (H1 & H2 & H3 & H4).
    apply Z.ltb_lt in Hlt. simpl. repeat split; try congruence; lia.
  - apply (triple_pre _ (Inv (eq ACTIVE))); [intros w [H _]; exact H|].
    apply Inv_leg_update. intros; apply leg_bound_done; assumption.
Qed.

(** The evaluation of a leg keeps the bound. *)
Lemma check_leg_logic_bound (env : Env) (i : nat) :
  preserves (Inv (eq ACTIVE)) (check_leg_logic env i).
Proof.
  unfold check_leg_logic.
  apply preserves_catch; [|intros; apply preserves_ret].
  apply bind_keeps; [apply preserves_reads; reads_tac | auto |].
  intros leg0.
  destruct (get_option_price env (token leg0)) as [p|]; [|apply preserves_ret].
  destruct (negb (truthy p)); [apply preserves_ret|].
  apply bind_leg_get; [auto|]. intros kl.
  assert (Hdrop : forall w,
             Inv (eq ACTIVE) w /\ nth_error (st_legs (mem w)) i = Some kl ->
             Inv (eq ACTIVE) w) by (intros w [H _]; exact H).
  assert (Hentry : forall tag,
             (forall n, entries_count (snd kl) = Some n ->
                        leg_bound ACTIVE (snd kl) -> n <= 1) ->
             triple
               (fun w => Inv (eq ACTIVE) w /\
                         nth_error (st_legs (mem w)) i = Some kl)
               (execute_entry env i p tag)
               (fun _ => Inv (eq ACTIVE)) (Inv (eq ACTIVE))).
  { intros tag Hone.
    apply (triple_pre _ (Inv_at i at_most_once)); [|apply execute_entry_bound].
    intros w [Hinv Hkl]. split; [exact Hinv|].
    intros kl' Hkl' n Hn. rewrite Hkl in Hkl'. inversion Hkl'. subst kl'.
    apply Hone; auto.
    destruct Hinv as [[Hm _] Hph]. rewrite Hph.
    apply Hm. eapply nth_error_In, Hkl. }
  apply bind_key; [exact Hdrop|]. intros a Ha.
  destruct (status (snd kl)) eqn:Hst;
    try (apply triple_ret; exact Hdrop).
  - apply bind_key; [exact Hdrop|]. intros tp Htp.
    destruct (_ <? p)%float; [|apply triple_ret; exact Hdrop].
    apply Hentry. intros n Hn Hb.
    destruct (Hb n Hn) as (_ & H2 & _). rewrite (H2 Hst). lia.
  - destruct (match a with BUY => _ | SELL => _ end);
      [|apply triple_ret; exact Hdrop].
    apply (triple_pre _ (Inv (eq ACTIVE))); [exact Hdrop|].
    apply bind_keeps; [apply execute_exit_bound | auto |].
    intros ?. apply after_stop_loss_bound.
  - apply bind_key; [exact Hdrop|]. intros tp Htp.
    destruct (_ <? p)%float; [|apply triple_ret; exact Hdrop].
    apply Hentry. intros n Hn Hb.
    destruct (Hb n Hn) as (_ & _ & H3 & _). auto.
Qed.

Lemma monitor_and_execute_bound (env : Env) :
  preserves (Inv (eq ACTIVE)) (monitor_and_execute env).
Proof.
  unfold monitor_and_execute.
  apply bind_keeps; [apply preserves_reads; reads_tac | auto |].
  intros idx. apply preserves_gather.
  apply Forall_forall. intros t Ht. apply in_map_iff in Ht.
  destruct Ht as (i & <- & _). apply check_leg_logic_bound.
Qed.

Lemma gap_scan_bound (Q : Phase -> Prop) (env : Env) (idx : list nat) :
  builds_tasks (Inv Q) (gap_scan env idx).
Proof.
  induction idx as [|i rest IH]; simpl.
  - apply triple_ret. auto.
  - apply bind_keeps; [apply preserves_reads; reads_tac | auto |].
    intros leg. destruct (status leg); try exact IH.
    destruct (get_option_price env (token leg)) as [p|]; [|exact IH].
    destruct (negb (truthy p)); [exact IH|].
    destruct (p <=? sl_price leg)%float; [|exact IH].
    eapply triple_bind; [exact IH|].
    intros tasks. apply triple_ret. intros w [Hw Hts]. split; auto.
    constructor; auto. apply execute_exit_bound.
Qed.

Lemma check_gap_condition_bound (Q : Phase -> Prop) (env : Env) :
  preserves (Inv Q) (check_gap_condition env).
Proof.
  unfold check_gap_condition.
  apply bind_keeps; [apply preserves_reads; reads_tac | auto |].
  intros idx. apply preserves_scan_then_gather, gap_scan_bound.
Qed.

Lemma exit_scan_bound (Q : Phase -> Prop) (env : Env) (idx : list nat) :
  builds_tasks (Inv Q) (exit_scan env idx).
Proof.
  induction idx as [|i rest IH]; simpl.
  - apply triple_ret. auto.
  - apply bind_keeps; [apply preserves_reads; reads_tac | auto |].
    intros leg. destruct (status leg); try exact IH.
    + apply bind_keeps; [ | auto | intros ?; exact IH ].
      apply Inv_leg_update. intros; apply leg_bound_done; assumption.
    + eapply triple_bind; [exact IH|].
      intros tasks. apply triple_ret. intros w [Hw Hts]. split; auto.
      constructor; auto. apply execute_exit_bound.
    + apply bind_keeps; [ | auto | intros ?; exact IH ].
      apply Inv_leg_update. intros; apply leg_bound_done; assumption.
Qed.

Lemma execute_strategy_exit_bound (Q : Phase -> Prop) (env : Env) :
  preserves (Inv Q) (execute_strategy_exit env).
Proof.
  unfold execute_strategy_exit.
  apply bind_keeps; [apply preserves_reads; reads_tac | auto |].
  intros idx. apply preserves_scan_then_gather, exit_scan_bound.
Qed.

Lemma select_strikes_bound (Q : Phase -> Prop) (env : Env) :
  preserves (Inv Q) (select_strikes env).
Proof.
  unfold select_strikes.
  repeat (intros;
          first [ apply preserves_ret
                | apply Inv_set_instrument
                | apply preserves_reads; solve [reads_tac]
                | apply Inv_store_leg; intros; apply leg_bound_selected
                | apply preserves_for_each
                | apply preserves_bind
                | match goal with
                  | |- preserves _ (match ?x with _ => _ end) => destruct x
                  | |- preserves _ (if ?x then _ else _) => destruct x
                  end ]).
Qed.

Lemma finalize_scan_bound (Q : Phase -> Prop) (env : Env) (t0 t1 : time)
    (idx : list nat) :
  (forall ph, Q ph -> ph <> ACTIVE) ->
  preserves (Inv Q) (finalize_scan env t0 t1 idx).
Proof.
  intros HQ. induction idx as [|i rest IH]; simpl.
  - apply preserves_ret.
  - apply bind_keeps; [apply preserves_reads; reads_tac | auto |].
    intros leg.
    assert (Hstep : preserves (Inv Q)
              (bind (lift (q_range_high_low env (token leg) t0 t1))
                 (fun high_low =>
                    match high_low with
                    | Some (hi, lo) =>
                        bind (leg_update i
                                (fun l => set_status WAITING_ENTRY
                                            (set_range hi lo l)))
                          (fun _ => bind (finalize_scan env t0 t1 rest)
                                      (fun n => ret (n + 1)))
                    | None => finalize_scan env t0 t1 rest
                    end))).
    { apply preserves_bind; [apply preserves_lift|].
      intros [[hi lo]|]; [|exact IH].
      apply preserves_bind.
      - apply Inv_leg_update. intros ph l Hph Hb.
        apply leg_bound_ranged; auto.
      - intros ?. apply preserves_bind; [exact IH|].
        intros n. apply preserves_ret. }
    destruct (status leg); first [exact Hstep | exact IH].
Qed.

Lemma finalize_ranges_bound (Q : Phase -> Prop) (env : Env) :
  (forall ph, Q ph -> ph <> ACTIVE) ->
  preserves (Inv Q) (finalize_ranges env).
Proof.
  intros HQ. unfold finalize_ranges.
  apply bind_settings; [auto|]. intros c Hc.
  apply bind_lift; [auto|]. intros t0 Ht0.
  apply bind_keeps; [apply preserves_reads; reads_tac | auto |].
  intros idx.
  apply preserves_bind; [apply finalize_scan_bound, HQ|].
  intros n. apply preserves_ret.
Qed.

Lemma phase_eqb_eq (a b : Phase) : phase_eqb a b = true -> a = b.
Proof. destruct a, b; simpl; congruence. Qed.

(** A change of phase keeps the bound unless it leaves [ACTIVE] with the
    legs in place. *)
Lemma Inv_set_status (Q : Phase -> Prop) (p : Phase) :
  (p <> ACTIVE -> forall ph, Q ph -> ph <> ACTIVE) ->
  triple (Inv Q) (modify_state (set_st_status p))
    (fun _ => Inv any_phase) (Inv any_phase).
Proof.
  intros Hp w [[Hm Hd] Hq]. simpl. split; [split|exact I]; auto.
  intros kl Hkl n Hn. simpl in *.
  destruct (Hm kl Hkl n Hn) as (H1 & H2 & H3 & H4).
  repeat split; auto; intros Hne; apply H4; apply (Hp Hne); exact Hq.
Qed.

Lemma Inv_reset (Q : Phase -> Prop) :
  triple (Inv Q) (modify_state reset_for_new_day)
    (fun _ => Inv any_phase) (Inv any_phase).
Proof.
  intros w [[Hm Hd] Hq]. simpl. split; [split|exact I]; auto.
  intros kl [].
Qed.

Lemma Inv_load_state : preserves (Inv any_phase) load_state.
Proof.
  intros w [[Hm Hd] Hq]. unfold load_state.
  destruct (disk w) as [d|] eqn:Hdisk.
  - split; [split|exact I]; simpl.
    + apply Hd. reflexivity.
    + exact Hd.
  - split; [split|exact I]; simpl.
    + exact Hm.
    + rewrite Hdisk. exact Hd.
Qed.

Lemma Inv_any (Q : Phase -> Prop) (w : World) : Inv Q w -> Inv any_phase w.
Proof. apply Inv_weaken. intros; exact I. Qed.

Lemma gap_check_task_bound (Q : Phase -> Prop) (env : Env) (s : Settings)
    (t : time) :
  preserves (Inv Q) (gap_check_task env s t).
Proof.
  unfold gap_check_task.
  apply bind_keeps; [apply preserves_reads; reads_tac | auto |].
  intros open. apply preserves_when, check_gap_condition_bound.
Qed.

Lemma daily_exit_task_bound (env : Env) (s : Settings) (t : time) :
  preserves (Inv any_phase) (daily_exit_task env s t).
Proof.
  unfold daily_exit_task.
  apply bind_keeps; [apply preserves_reads; reads_tac | auto |].
  intros open. apply preserves_when.
  apply bind_keeps; [apply preserves_reads; reads_tac | auto |].
  intros st. apply preserves_when.
  apply bind_keeps; [apply execute_strategy_exit_bound | auto |].
  intros ?. eapply triple_bind; [apply Inv_reset|].
  intros ?. apply Inv_save_state.
Qed.

Lemma start_task_bound (env : Env) (s : Settings) (t : time) :
  preserves (Inv any_phase) (start_task env s t).
Proof.
  unfold start_task. apply bind_get_state. intros st.
  destruct (time_geb _ _ && time_ltb _ _ && phase_eqb (st_status st) IDLE)
    eqn:Hc; simpl.
  2:{ apply triple_ret. intros w [H _]. exact H. }
  apply andb_true_iff in Hc. destruct Hc as [_ Hc]. apply phase_eqb_eq in Hc.
  apply (triple_pre _ (Inv (eq IDLE))).
  { intros w [[Hb _] Hm]. split; [exact Hb|]. rewrite Hm. auto. }
  apply triple_bind with (R1 := fun _ => Inv (eq IDLE)).
  { eapply triple_weaken; [apply (select_strikes_bound (eq IDLE))| | |]; auto.
    apply Inv_any. }
  intros [|]; [|apply triple_ret; apply Inv_any].
  eapply triple_bind.
  - apply Inv_set_status. intros _ ph <-. discriminate.
  - intros ?. apply Inv_save_state.
Qed.

Lemma range_end_task_bound (env : Env) (t : time) :
  preserves (Inv any_phase) (range_end_task env t).
Proof.
  unfold range_end_task. apply bind_get_state. intros st.
  destruct (phase_eqb (st_status st) MONITORING_RANGE) eqn:Hc; simpl.
  2:{ apply triple_ret. intros w [H _]. exact H. }
  apply phase_eqb_eq in Hc.
  destruct (time_geb _ _); simpl.
  2:{ apply triple_ret. intros w [H _]. exact H. }
  apply (triple_pre _ (Inv (eq MONITORING_RANGE))).
  { intros w [[Hb _] Hm]. split; [exact Hb|]. rewrite Hm. auto. }
  apply triple_bind with (R1 := fun _ => Inv (eq MONITORING_RANGE)).
  { eapply triple_weaken;
      [apply (finalize_ranges_bound (eq MONITORING_RANGE))| | |]; auto.
    - intros ph <-. discriminate.
    - apply Inv_any. }
  intros ?. eapply triple_bind.
  - apply Inv_set_status. intros H. contradiction H. reflexivity.
  - intros ?. apply Inv_save_state.
Qed.

Lemma active_task_bound (env : Env) :
  preserves (Inv any_phase) (active_task env).
Proof.
  unfold active_task. apply bind_get_state. intros st.
  destruct (phase_eqb (st_status st) ACTIVE) eqn:Hc; simpl.
  2:{ apply triple_ret. intros w [H _]. exact H. }
  apply phase_eqb_eq in Hc.
  eapply triple_weaken; [apply monitor_and_execute_bound| | |].
  - intros w [[Hb _] Hm]. split; [exact Hb|]. rewrite Hm. auto.
  - intros ? w. apply Inv_any.
  - intros w. apply Inv_any.
Qed.

(** One loop iteration keeps the bound. *)
Lemma loop_iteration_bound (env : Env) :
  preserves (Inv any_phase) (loop_iteration env).
Proof.
  unfold loop_iteration.
  apply preserves_catch; [|intros; apply preserves_ret].
  destruct (env_config env) as [c|]; [|apply preserves_raise].
  destruct (negb (is_running c)); [apply preserves_ret|].
  repeat (apply preserves_bind; [apply preserves_lift | intros ?]).
  apply preserves_bind; [apply gap_check_task_bound | intros ?].
  apply preserves_bind; [apply daily_exit_task_bound | intros ?].
  apply preserves_bind; [apply start_task_bound | intros ?].
  apply preserves_bind; [apply range_end_task_bound | intros ?].
  apply active_task_bound.
Qed.

Lemma startup_bound (env : Env) : preserves (Inv any_phase) (startup env).
Proof.
  unfold startup.
  apply preserves_bind; [apply Inv_load_state | intros ?].
  apply bind_settings; [auto|]. intros c Hc.
  apply bind_keeps; [apply preserves_reads; reads_tac | auto |].
  intros st. destruct (st_legs st); [|apply preserves_ret].
  apply preserves_for_each. intros item.
  apply Inv_store_leg. intros ph. apply leg_bound_placeholder.
Qed.

(** ** Runs of the engine *)

Lemma reachable_bound (w : World) : reachable w -> Inv any_phase w.
Proof.
  induction 1 as [env | env w Hw IH | env w Hw IH].
  - apply preserves_snd; [apply startup_bound|].
    split; [split|exact I].
    + intros kl [].
    + intros d Hd. discriminate Hd.
  - apply preserves_snd; [apply loop_iteration_bound | exact IH].
  - apply preserves_snd; [apply startup_bound|].
    destruct IH as [[Hm Hd] _]. split; [split|exact I].
    + intros kl [].
    + exact Hd.
Qed.

(** ** A leg that is done stays as it is *)

Section DoneLeg.

Variable i : nat.
Variable kl0 : string * Leg.
Hypothesis Hdone : status (snd kl0) = DONE.

Lemma holds_done_emit (ev : Event) : preserves (holds_done i kl0) (emit ev).
Proof. intros w Hw. exact Hw. Qed.

Lemma holds_done_save_state : preserves (holds_done i kl0) save_state.
Proof. intros w Hw. exact Hw. Qed.

Lemma holds_done_leg_update (j : nat) (f : Leg -> Leg) :
  j <> i -> preserves (holds_done i kl0) (leg_update j f).
Proof.
  intros Hji w [Hkl Hph]. split; [|exact Hph]. simpl.
  rewrite nth_error_upd_nth_other; auto.
Qed.

(** Whoever finds another status than [DONE] at position [j] is not looking
    at position [i]. *)
Lemma other_position (j : nat) (kl : string * Leg) (w : World) :
  (holds_done i kl0) w /\ nth_error (st_legs (mem w)) j = Some kl ->
  status (snd kl) = DONE \/ j <> i.
Proof.
  intros [[Hkl _] Hj]. destruct (Nat.eq_dec j i) as [->|Hne]; auto.
  left. rewrite Hkl in Hj. inversion Hj. subst kl. exact Hdone.
Qed.

Lemma holds_done_drop (j : nat) (kl : string * Leg) (w : World) :
  (holds_done i kl0) w /\ nth_error (st_legs (mem w)) j = Some kl -> (holds_done i kl0) w.
Proof. intros [H _]. exact H. Qed.

(** Steps on a position other than [i]. *)
Ltac frame_tac Hji :=
  repeat (intros;
          first [ apply preserves_ret
                | apply preserves_raise
                | apply holds_done_emit
                | apply holds_done_save_state
                | apply holds_done_leg_update; exact Hji
                | apply preserves_reads; solve [reads_tac]
                | apply preserves_bind
                | apply preserves_when
                | match goal with
                  | |- preserves _ (match ?x with _ => _ end) => destruct x
                  | |- preserves _ (if ?x then _ else _) => destruct x
                  end ]).

Lemma execute_exit_frame (env : Env) (j : nat) (price : float)
    (reason : string) :
  j <> i -> preserves (holds_done i kl0) (execute_exit env j price reason).
Proof. intros Hji. unfold execute_exit. frame_tac Hji. Qed.

Lemma execute_entry_frame (env : Env) (j : nat) (price : float)
    (description : string) :
  j <> i -> preserves (holds_done i kl0) (execute_entry env j price description).
Proof. intros Hji. unfold execute_entry. frame_tac Hji. Qed.

Lemma check_leg_logic_frame (env : Env) (j : nat) :
  preserves (holds_done i kl0) (check_leg_logic env j).
Proof.
  unfold check_leg_logic.
  apply preserves_catch; [|intros; apply preserves_ret].
  apply bind_keeps; [apply preserves_reads; reads_tac | auto |].
  intros leg0.
  destruct (get_option_price env (token leg0)) as [p|]; [|apply preserves_ret].
  destruct (negb (truthy p)); [apply preserves_ret|].
  apply bind_leg_get; [auto|]. intros kl.
  apply (triple_assume _ _ _ _ _ (other_position j kl)).
  intros Hpos.
  apply bind_key; [apply holds_done_drop|]. intros a Ha.
  destruct Hpos as [Hst | Hji].
  - rewrite Hst. apply triple_ret. apply holds_done_drop.
  - apply (triple_pre _ (holds_done i kl0)); [apply holds_done_drop|].
    destruct (status (snd kl)); try apply preserves_ret.
    + apply preserves_bind; [apply preserves_key|]. intros tp.
      destruct (_ <? p)%float; [|apply preserves_ret].
      apply execute_entry_frame, Hji.
    + destruct (match a with BUY => _ | SELL => _ end);
        [|apply preserves_ret].
      apply preserves_bind; [apply execute_exit_frame, Hji|].
      frame_tac Hji.
    + apply preserves_bind; [apply preserves_key|]. intros tp.
      destruct (_ <? p)%float; [|apply preserves_ret].
      apply execute_entry_frame, Hji.
Qed.

Lemma monitor_and_execute_frame (env : Env) :
  preserves (holds_done i kl0) (monitor_and_execute env).
Proof.
  unfold monitor_and_execute.
  apply bind_keeps; [apply preserves_reads; reads_tac | auto |].
  intros idx. apply preserves_gather.
  apply Forall_forall. intros t Ht. apply in_map_iff in Ht.
  destruct Ht as (j & <- & _). apply check_leg_logic_frame.
Qed.

Lemma gap_scan_frame (env : Env) (idx : list nat) :
  builds_tasks (holds_done i kl0) (gap_scan env idx).
Proof.
  induction idx as [|j rest IH]; simpl.
  - apply triple_ret. auto.
  - apply bind_leg_get; [auto|]. intros kl.
    apply (triple_assume _ _ _ _ _ (other_position j kl)).
    intros Hpos.
    apply (triple_pre _ (holds_done i kl0)); [apply holds_done_drop|].
    destruct (status (snd kl)) eqn:Hst; try exact IH.
    destruct Hpos as [Hd | Hji]; [discriminate Hd|].
    destruct (get_option_price env (token (snd kl))) as [p|]; [|exact IH].
    destruct (negb (truthy p)); [exact IH|].
    destruct (p <=? sl_price (snd kl))%float; [|exact IH].
    eapply triple_bind; [exact IH|].
    intros tasks. apply triple_ret. intros w [Hw Hts]. split; auto.
    constructor; auto. apply execute_exit_frame, Hji.
Qed.

Lemma check_gap_condition_frame (env : Env) :
  preserves (holds_done i kl0) (check_gap_condition env).
Proof.
  unfold check_gap_condition.
  apply bind_keeps; [apply preserves_reads; reads_tac | auto |].
  intros idx. apply preserves_scan_then_gather, gap_scan_frame.
Qed.

Lemma finalize_scan_frame (env : Env) (t0 t1 : time) (idx : list nat) :
  preserves (holds_done i kl0) (finalize_scan env t0 t1 idx).
Proof.
  induction idx as [|j rest IH]; simpl.
  - apply preserves_ret.
  - apply bind_leg_get; [auto|]. intros kl.
    apply (triple_assume _ _ _ _ _ (other_position j kl)).
    intros Hpos.
    apply (triple_pre _ (holds_done i kl0)); [apply holds_done_drop|].
    destruct Hpos as [Hd | Hji]; [rewrite Hd; exact IH|].
    assert (Hstep : preserves (holds_done i kl0)
              (bind (lift (q_range_high_low env (token (snd kl)) t0 t1))
                 (fun high_low =>
                    match high_low with
                    | Some (hi, lo) =>
                        bind (leg_update j
                                (fun l => set_status WAITING_ENTRY
                                            (set_range hi lo l)))
                          (fun _ => bind (finalize_scan env t0 t1 rest)
                                      (fun n => ret (n + 1)))
                    | None => finalize_scan env t0 t1 rest
                    end))).
    { apply preserves_bind; [apply preserves_lift|].
      intros [[hi lo]|]; [|exact IH].
      apply preserves_bind; [apply holds_done_leg_update, Hji|].
      intros ?. apply preserves_bind; [exact IH|].
      intros n. apply preserves_ret. }
    destruct (status (snd kl)); first [exact Hstep | exact IH].
Qed.

Lemma range_end_task_frame (env : Env) (t : time) :
  preserves (holds_done i kl0) (range_end_task env t).
Proof.
  unfold range_end_task.
  apply bind_keeps; [apply preserves_reads; reads_tac | auto |].
  intros st. apply preserves_when, preserves_when.
  apply preserves_bind.
  - unfold finalize_ranges.
    apply bind_settings; [auto|]. intros c Hc.
    apply bind_lift; [auto|]. intros t0 Ht0.
    apply bind_keeps; [apply preserves_reads; reads_tac | auto |].
    intros idx.
    apply preserves_bind; [apply finalize_scan_frame|].
    intros n. apply preserves_ret.
  - intros ?. apply preserves_bind; [|intros; apply holds_done_save_state].
    intros w [Hkl Hph]. split; [exact Hkl | discriminate].
Qed.

Lemma start_task_frame (env : Env) (s : Settings) (t : time) :
  preserves (holds_done i kl0) (start_task env s t).
Proof.
  unfold start_task. apply bind_get_state. intros st.
  apply (triple_assume (phase_eqb (st_status st) IDLE = false)).
  { intros w [[_ Hph] <-]. destruct (st_status (mem w)); auto.
    contradiction Hph. reflexivity. }
  intros ->. rewrite andb_false_r. apply triple_ret. intros w [H _]. exact H.
Qed.

Lemma loop_iteration_frame (env : Env) :
  daily_exit_due env = false ->
  preserves (holds_done i kl0) (loop_iteration env).
Proof.
  intros Hdue. unfold loop_iteration.
  apply preserves_catch; [|intros; apply preserves_ret].
  unfold daily_exit_due in Hdue.
  destruct (env_config env) as [c|]; [|apply preserves_raise].
  destruct (negb (is_running c)); [apply preserves_ret|].
  apply preserves_bind; [apply preserves_lift | intros start_time].
  apply preserves_bind; [apply preserves_lift | intros end_time].
  apply preserves_bind; [apply preserves_lift | intros check_time].
  apply bind_lift; [auto|]. intros exit_time Hexit. rewrite Hexit in Hdue.
  apply preserves_bind.
  { unfold gap_check_task.
    apply bind_keeps; [apply preserves_reads; reads_tac | auto |].
    intros open. apply preserves_when, check_gap_condition_frame. }
  intros ?. apply preserves_bind.
  { apply preserves_reads. intros w.
    unfold daily_exit_task, in_window, bind, lift.
    destruct (window_test env exit_time _ _ _) as [[|]|e];
      try discriminate Hdue; reflexivity. }
  intros ?. apply preserves_bind; [apply start_task_frame|].
  intros ?. apply preserves_bind; [apply range_end_task_frame|].
  intros ?. unfold active_task.
  apply bind_keeps; [apply preserves_reads; reads_tac | auto |].
  intros st. apply preserves_when, monitor_and_execute_frame.
Qed.

End DoneLeg.

(** C5. In every world the engine can reach, no leg has entered more than
    twice.  When a stop-loss fires on an open leg that has entered twice
    (and the exit runs), the leg becomes [DONE], not [WAITING_REENTRY].  And
    a leg that is [DONE] is still there, unchanged, after any loop iteration
    in which the daily exit is not due. *)
Theorem reentry_bound :
  (forall w, reachable w ->
     forall kl n, In kl (st_legs (mem w)) ->
                  entries_count (snd kl) = Some n -> n <= 2) /\
  (forall (env : Env) (i : nat) (w : World) (c : Config) (inst : string)
          (sz : Z) (k : string) (leg : Leg) (p : float) (a : Action) (n : Z),
      env_config env = Some c ->
      st_instrument (mem w) = Some inst ->
      assoc_get inst (lot_sizes (strategy_settings c)) = Some sz ->
      nth_error (st_legs (mem w)) i = Some (k, leg) ->
      get_option_price env (token leg) = Some p ->
      truthy p = true ->
      action leg = Some a ->
      status leg = L_ACTIVE ->
      entries_count leg = Some n ->
      2 <= n ->
      sl_hit a p (sl_price leg) = true ->
      status_at (mem (snd (check_leg_logic env i w))) i = Some DONE) /\
  (forall (env : Env) (i : nat) (kl : string * Leg) (w : World),
      status (snd kl) = DONE ->
      holds_done i kl w ->
      daily_exit_due env = false ->
      holds_done i kl (snd (loop_iteration env w))).
Proof.
  split; [|split].
  - intros w Hw kl n Hin Hn.
    destruct (reachable_bound w Hw) as [[Hm _] _].
    exact (proj1 (Hm kl Hin n Hn)).
  - intros env i w c inst sz k leg p a n
           Hc Hi Hsz Hleg Hp Ht Ha Hs Hn Hge Hhit.
    destruct (check_leg_logic_sl_hit env i w c inst sz k leg p a n)
      as [ev Hex]; try assumption.
    rewrite Hex. cbv zeta. unfold status_at. simpl.
    rewrite nth_error_upd_nth_same, Hleg. simpl.
    replace (n <? 2) with false by (symmetry; apply Z.ltb_ge; lia).
    reflexivity.
  - intros env i kl w Hdone Hw Hdue.
    apply preserves_snd; [|exact Hw].
    apply loop_iteration_frame; assumption.
Qed.

Lemma reentry_bound_witness :
  let cfg := Sample.settings true (9, 16) 5 in
  let e0 := Sample.env_of (Sample.at_time 9 31) cfg (Some 276%float)
              (Some 59137%float) None in
  let e1 := Sample.env_of (Sample.at_time 11 0) cfg (Some 150%float) None None in
  let held := Sample.leg BUY L_ACTIVE 200 160 2 in
  let done := ("sp10ce", Sample.leg BUY DONE 200 160 2) in
  0 <= 2 /\
  status_at (mem (snd (check_leg_logic e1 0 (Sample.world_of ACTIVE held)))) 0
  = Some DONE /\
  holds_done 0 done
    (snd (loop_iteration e1 (Sample.world_of ACTIVE (snd done)))).
Proof.
  intros cfg e0 e1 held done.
  split; [|split].
  - apply (proj1 reentry_bound
             (snd (loop_iteration e0 (snd (startup e0 fresh_world))))
             (reach_iteration e0 _ (reach_start e0))
             ("sp10ce",
              selected_leg
                {| strike_price := 59100%float; last_price := 40%float;
                   cand_token := 12345;
                   cand_symbol := "BANKNIFTY26JAN59100CE" |}
                (Sample.leg_config BUY 5) 40%float)
             0).
    + vm_compute. left. reflexivity.
    + reflexivity.
  - apply (proj1 (proj2 reentry_bound) e1 0%nat (Sample.world_of ACTIVE held)
             {| is_running := true; strategy_settings := cfg |}
             "NIFTY BANK" 15 "sp10ce" held 150%float BUY 2);
      try reflexivity; lia.
  - apply (proj2 (proj2 reentry_bound) e1 0%nat done
             (Sample.world_of ACTIVE (snd done))).
    + reflexivity.
    + split; [reflexivity | discriminate].
    + reflexivity.
Defined.

(** * Further properties of the code *)

(** ** The order of floats *)

Lemma SFltb_trans (a b c : spec_float) :
  SFltb a b = true -> SFltb b c = true -> SFltb a c = true.
Proof.
  unfold SFltb, SFcompare.
  destruct a as [sa|sa| |sa ma ea], b as [sb|sb| |sb mb eb],
           c as [sc|sc| |sc mc ec];
    try destruct sa; try destruct sb; try destruct sc;
    try discriminate; try reflexivity;
    rewrite ?Pos.compare_cont_spec; simpl;
    destruct (Z.compare_spec ea eb); destruct (Z.compare_spec eb ec);
    destruct (Z.compare_spec ea ec);
    try discriminate; try reflexivity; try lia;
    subst;
    destruct (Pos.compare_spec ma mb); destruct (Pos.compare_spec mb mc);
    destruct (Pos.compare_spec ma mc);
    simpl; try discriminate; try reflexivity; try lia.
Qed.

Lemma float_ltb_trans (x y z : float) :
  (x <? y)%float = true -> (y <? z)%float = true -> (x <? z)%float = true.
Proof. rewrite !ltb_spec. apply SFltb_trans. Qed.

(** ** Closest-premium selection *)

Lemma min_by_In {A : Type} (f : A -> float) (best : A) (l : list A) :
  In (min_by f best l) (best :: l).
Proof.
  revert best. induction l as [|x l IH]; intros best; simpl; auto.
  destruct (f x <? f best)%float.
  - destruct (IH x) as [H | H]; auto.
  - destruct (IH best) as [H | H]; auto.
Qed.

(** The key of the result is not above the key of the running best. *)
Lemma min_by_below_best {A : Type} (f : A -> float) (best : A) (l : list A) :
  min_by f best l = best \/ (f (min_by f best l) <? f best)%float = true.
Proof.
  revert best. induction l as [|x l IH]; intros best; simpl; auto.
  destruct (f x <? f best)%float eqn:Hx.
  - right. destruct (IH x) as [-> | H]; auto.
    eapply float_ltb_trans; eauto.
  - apply IH.
Qed.

Lemma min_by_least {A : Type} (f : A -> float) (best : A) (l : list A) (x : A) :
  In x (best :: l) -> (f x <? f (min_by f best l))%float = false.
Proof.
  revert x best. induction l as [|y l IH]; intros x best Hin; simpl.
  - destruct Hin as [<- | []].
    destruct (f best <? f best)%float eqn:H; auto.
    rewrite ltb_spec in H. unfold SFltb, SFcompare in H.
    destruct (Prim2SF (f best)) as [s|s| |s m e]; try destruct s;
      try discriminate H;
      rewrite Z.compare_refl, Pos.compare_cont_spec, Pos.compare_refl in H;
      discriminate H.
  - destruct (f y <? f best)%float eqn:Hy.
    + destruct Hin as [<- | [<- | Hin]].
      * destruct (f best <? f (min_by f y l))%float eqn:Hb; auto.
        exfalso.
        assert (Hc : (f y <? f (min_by f y l))%float = true)
          by (eapply float_ltb_trans; eauto).
        rewrite (IH y y (or_introl eq_refl)) in Hc. discriminate Hc.
      * apply IH. left. reflexivity.
      * apply IH. right. exact Hin.
    + destruct Hin as [<- | [<- | Hin]].
      * apply IH. left. reflexivity.
      * destruct (f y <? f (min_by f best l))%float eqn:Hb; auto.
        exfalso.
        destruct (min_by_below_best f best l) as [He | Hlt].
        -- rewrite He in Hb. congruence.
        -- assert (Hc : (f y <? f best)%float = true)
             by (eapply float_ltb_trans; eauto).
           congruence.
      * apply IH. right. exact Hin.
Qed.

Lemma min_by_keeps_first {A : Type} (f : A -> float) (best : A) (l : list A) :
  (forall x, In x l -> (f x <? f best)%float = false) ->
  min_by f best l = best.
Proof.
  induction l as [|x l IH]; intros H; simpl; auto.
  rewrite (H x (or_introl eq_refl)). apply IH.
  intros y Hy. apply H. right. exact Hy.
Qed.

Lemma SFltb_not_leb (a b : spec_float) :
  SFltb a b = true -> SFleb b a = false.
Proof.
  unfold SFltb, SFleb, SFcompare.
  destruct a as [sa|sa| |sa ma ea], b as [sb|sb| |sb mb eb];
    try destruct sa; try destruct sb;
    try discriminate; try reflexivity;
    rewrite ?Pos.compare_cont_spec; simpl;
    destruct (Z.compare_spec ea eb); destruct (Z.compare_spec eb ea);
    try discriminate; try reflexivity; try lia;
    subst;
    destruct (Pos.compare_spec ma mb); destruct (Pos.compare_spec mb ma);
    simpl; try discriminate; try reflexivity; try lia.
Qed.

Lemma SFleb_ltb_trans (a b c : spec_float) :
  SFleb a b = true -> SFltb b c = true -> SFltb a c = true.
Proof.
  unfold SFltb, SFleb, SFcompare.
  destruct a as [sa|sa| |sa ma ea], b as [sb|sb| |sb mb eb],
           c as [sc|sc| |sc mc ec];
    try destruct sa; try destruct sb; try destruct sc;
    try discriminate; try reflexivity;
    rewrite ?Pos.compare_cont_spec; simpl;
    destruct (Z.compare_spec ea eb); destruct (Z.compare_spec eb ec);
    destruct (Z.compare_spec ea ec);
    try discriminate; try reflexivity; try lia;
    subst;
    destruct (Pos.compare_spec ma mb); destruct (Pos.compare_spec mb mc);
    destruct (Pos.compare_spec ma mc);
    simpl; try discriminate; try reflexivity; try lia.
Qed.

Lemma float_ltb_not_leb (x y : float) :
  (x <? y)%float = true -> (y <=? x)%float = false.
Proof. rewrite ltb_spec, leb_spec. apply SFltb_not_leb. Qed.

Lemma float_leb_ltb_trans (x y z : float) :
  (x <=? y)%float = true -> (y <? z)%float = true -> (x <? z)%float = true.
Proof. rewrite leb_spec, !ltb_spec. apply SFleb_ltb_trans. Qed.

(** Where the result stands in the list: it is the running best, or it
    stands after candidates none of which is as close, and before
    candidates none of which is strictly closer. *)
Lemma min_by_position {A : Type} (f : A -> float) (l : list A) :
  forall best,
    (min_by f best l = best /\
     forall x, In x l -> (f x <? f best)%float = false) \/
    exists pre post,
      l = (pre ++ min_by f best l :: post)%list /\
      (f (min_by f best l) <? f best)%float = true /\
      (forall x, In x pre -> (f x <=? f (min_by f best l))%float = false) /\
      (forall x, In x post -> (f x <? f (min_by f best l))%float = false).
Proof.
  induction l as [|y l IH]; intros best; simpl.
  - left. split; [reflexivity | intros x []].
  - destruct (f y <? f best)%float eqn:Hy.
    + right. destruct (IH y) as [[He Hall] | (pre & post & Hl & Hlt & Hpre & Hpost)].
      * exists [], l. rewrite He. simpl. repeat split; auto.
        intros x [].
      * exists (y :: pre), post. split; [|split; [|split]].
        -- simpl. rewrite <- Hl. reflexivity.
        -- eapply float_ltb_trans; eauto.
        -- intros x [<- | Hx]; [|apply Hpre, Hx].
           apply float_ltb_not_leb, Hlt.
        -- exact Hpost.
    + destruct (IH best) as [[He Hall] | (pre & post & Hl & Hlt & Hpre & Hpost)].
      * left. split; [exact He|]. intros x [<- | Hx]; auto.
      * right. exists (y :: pre), post. split; [|split; [|split]].
        -- simpl. rewrite <- Hl. reflexivity.
        -- exact Hlt.
        -- intros x [<- | Hx]; [|apply Hpre, Hx].
           destruct (f y <=? f (min_by f best l))%float eqn:Hle; auto.
           rewrite (float_leb_ltb_trans _ _ _ Hle Hlt) in Hy. discriminate Hy.
        -- exact Hpost.
Qed.

Lemma min_by_app {A : Type} (f : A -> float) (pre l : list A) :
  forall best, min_by f best (pre ++ l) = min_by f (min_by f best pre) l.
Proof.
  induction pre as [|x pre IH]; intros best; simpl; [reflexivity|].
  destruct (f x <? f best)%float; apply IH.
Qed.

(** X1. [get_closest_match] answers [None] exactly for an empty list;
    otherwise it answers one of the candidates, and no candidate is strictly
    closer to the target premium than the one chosen.  Among candidates
    equally close the one seen first is chosen, wherever it stands in the
    list: no candidate before the chosen one is as close as it is, and a
    candidate that is strictly closer than every one before it and not
    beaten by any one after it is the one chosen.  [find_leg] chooses by the
    same rule, with target [straddle_premium * (target_pct / 100)]. *)
Theorem closest_match_is_least :
  (forall t cs, get_closest_match t cs = None <-> cs = []) /\
  (forall t cs r,
      get_closest_match t cs = Some r ->
      In r cs /\
      forall x, In x cs ->
        (abs (last_price x - t) <? abs (last_price r - t))%float = false) /\
  (forall t c cs,
      (forall x, In x cs ->
         (abs (last_price x - t) <? abs (last_price c - t))%float = false) ->
      get_closest_match t (c :: cs) = Some c) /\
  (forall t cs r,
      get_closest_match t cs = Some r ->
      exists pre post,
        cs = (pre ++ r :: post)%list /\
        (forall x, In x pre ->
           (abs (last_price x - t) <=? abs (last_price r - t))%float = false) /\
        (forall x, In x post ->
           (abs (last_price x - t) <? abs (last_price r - t))%float = false)) /\
  (forall t pre r post,
      (forall x, In x pre ->
         (abs (last_price r - t) <? abs (last_price x - t))%float = true) ->
      (forall x, In x post ->
         (abs (last_price x - t) <? abs (last_price r - t))%float = false) ->
      get_closest_match t (pre ++ r :: post) = Some r) /\
  (forall env db ts sp pct ot pref e cands w,
      get_expiry env db pref w = (Ok (Some e), w) ->
      e <> EmptyString ->
      q_strikes_at env db e ot ts = Ok cands ->
      find_leg env db ts sp pct ot pref w =
      (Ok (get_closest_match (sp * (pct / 100))%float cands,
           (sp * (pct / 100))%float), w)).
Proof.
  split; [|split; [|split; [|split; [|split]]]].
  - intros t [|c cs]; simpl; split; intros H; try reflexivity; discriminate.
  - intros t [|c cs] r H; simpl in H; [discriminate|].
    inversion H. subst r. split.
    + apply (min_by_In (fun x => abs (last_price x - t))%float c cs).
    + intros x Hx.
      exact (min_by_least (fun x => abs (last_price x - t))%float c cs x Hx).
  - intros t c cs H. simpl. f_equal.
    apply (min_by_keeps_first (fun x => abs (last_price x - t))%float c cs H).
  - intros t [|c cs] r H; simpl in H; [discriminate|].
    inversion H as [Hr]. clear H.
    destruct (min_by_position (fun x => abs (last_price x - t))%float cs c)
      as [[He Hall] | (pre & post & Hl & Hlt & Hpre & Hpost)].
    + exists [], cs. rewrite He. simpl. split; [reflexivity|].
      split; [intros x [] | exact Hall].
    + exists (c :: pre), post. split; [|split].
      * simpl. rewrite <- Hl. reflexivity.
      * intros x [<- | Hx]; [|apply (Hpre x Hx)].
        apply float_ltb_not_leb, Hlt.
      * exact Hpost.
  - intros t [|c pre] r post Hpre Hpost; simpl.
    + f_equal.
      apply (min_by_keeps_first (fun x => abs (last_price x - t))%float
               r post Hpost).
    + f_equal. rewrite min_by_app. simpl.
      rewrite (Hpre _ (min_by_In (fun x => abs (last_price x - t))%float c pre)).
      apply (min_by_keeps_first (fun x => abs (last_price x - t))%float
               r post Hpost).
  - intros env db ts sp pct ot pref e cands w He Hne Hq.
    unfold find_leg, bind. rewrite He.
    destruct e as [|ch e']; [contradiction Hne; reflexivity|].
    unfold lift. rewrite Hq. destruct cands; reflexivity.
Qed.

Lemma closest_match_is_least_witness :
  let c := fun (k : Z) (p : float) =>
             {| strike_price := 59100%float; last_price := p;
                cand_token := k; cand_symbol := "BANKNIFTY26JAN59100CE" |} in
  get_closest_match 50%float [c 1 70%float; c 2 48%float; c 3 52%float]
  = Some (c 2 48%float).
Proof.
  intros c.
  apply (proj1 (proj2 (proj2 (proj2 (proj2 closest_match_is_least))))
           50%float [c 1 70%float] (c 2 48%float) [c 3 52%float]).
  - intros x [<- | []]. vm_compute. reflexivity.
  - intros x [<- | []]. vm_compute. reflexivity.
Defined.

(** ** Predicates every step of the engine keeps

    A predicate [P] on worlds that is kept by paper trades, by gateway
    orders of a live configuration, by saving, and by the leg updates that
    [okU] permits, is kept by the functions of the engine that only take
    such steps. *)

Lemma preserves_option_match {A B : Type} (P : World -> Prop) (o : option A)
    (f : A -> M B) (g : M B) :
  (forall a, o = Some a -> preserves P (f a)) ->
  preserves P g ->
  preserves P (match o with Some a => f a | None => g end).
Proof. intros Hf Hg. destruct o; auto. Qed.

Section Stable.

Variable env : Env.
Variable P : World -> Prop.
Variable okU : nat -> (Leg -> Leg) -> Prop.

Hypothesis P_paper : forall req price, preserves P (emit (EvPaper req price)).
Hypothesis P_order :
  forall c req,
    env_config env = Some c ->
    paper_trading (strategy_settings c) = false ->
    preserves P (emit (EvOrder req (gateway env req))).
Hypothesis P_save : preserves P save_state.
Hypothesis P_update : forall i f, okU i f -> preserves P (leg_update i f).

Lemma execute_exit_stable (i : nat) (price : float) (reason : string) :
  exit_ok okU i -> preserves P (execute_exit env i price reason).
Proof.
  intros Hok. unfold execute_exit.
  apply bind_settings; [auto|]. intros c Hc.
  apply bind_keeps; [apply preserves_reads; reads_tac | auto |].
  intros lot_size.
  apply bind_keeps; [apply preserves_reads; reads_tac | auto |].
  intros leg.
  apply bind_key; [auto|]. intros a Ha.
  apply preserves_bind.
  - destruct (paper_trading (strategy_settings c)) eqn:Hp;
      [apply P_paper | apply (P_order c); assumption].
  - intros ?. apply preserves_bind; [|intros; apply P_save].
    apply P_update. apply (Hok price reason).
Qed.

Lemma execute_entry_stable (i : nat) (price : float) (description : string) :
  entry_ok okU i -> preserves P (execute_entry env i price description).
Proof.
  intros (H1 & H2 & H3). unfold execute_entry.
  apply bind_settings; [auto|]. intros c Hc.
  apply bind_keeps; [apply preserves_reads; reads_tac | auto |].
  intros lot_size.
  apply bind_keeps; [apply preserves_reads; reads_tac | auto |].
  intros leg.
  apply bind_key; [auto|]. intros a Ha.
  apply preserves_bind.
  - destruct (paper_trading (strategy_settings c)) eqn:Hp;
      (apply preserves_bind; [|intros; apply preserves_ret]);
      [apply P_paper | apply (P_order c); assumption].
  - intros order_id. destruct (truthy_str order_id); [|apply preserves_ret].
    apply preserves_bind; [apply P_update, H1|]. intros ?.
    apply preserves_bind; [apply preserves_reads; reads_tac|]. intros leg1.
    apply preserves_bind; [apply preserves_key|]. intros pct.
    apply preserves_bind; [apply P_update, H2|]. intros ?.
    apply preserves_bind; [apply preserves_reads; reads_tac|]. intros leg2.
    apply preserves_bind; [apply preserves_key|]. intros n.
    apply preserves_bind; [apply P_update, H3|]. intros ?.
    apply P_save.
Qed.

Lemma check_leg_logic_stable (i : nat) :
  monitor_ok okU i -> preserves P (check_leg_logic env i).
Proof.
  intros (Hentry & Hexit & Hre & Hdn). unfold check_leg_logic.
  apply preserves_catch; [|intros; apply preserves_ret].
  apply preserves_bind; [apply preserves_reads; reads_tac|]. intros leg0.
  destruct (get_option_price env (token leg0)) as [p|]; [|apply preserves_ret].
  destruct (negb (truthy p)); [apply preserves_ret|].
  apply preserves_bind; [apply preserves_reads; reads_tac|]. intros leg.
  apply preserves_bind; [apply preserves_key|]. intros a.
  destruct (status leg); try apply preserves_ret.
  - apply preserves_bind; [apply preserves_key|]. intros tp.
    destruct (_ <? p)%float; [|apply preserves_ret].
    apply execute_entry_stable, Hentry.
  - destruct (match a with BUY => _ | SELL => _ end); [|apply preserves_ret].
    apply preserves_bind; [apply execute_exit_stable, Hexit|]. intros ?.
    apply preserves_bind; [apply preserves_reads; reads_tac|]. intros leg1.
    apply preserves_bind; [apply preserves_key|]. intros n.
    destruct (n <? 2); apply P_update; assumption.
  - apply preserves_bind; [apply preserves_key|]. intros tp.
    destruct (_ <? p)%float; [|apply preserves_ret].
    apply execute_entry_stable, Hentry.
Qed.

Lemma monitor_and_execute_stable :
  (forall i, monitor_ok okU i) -> preserves P (monitor_and_execute env).
Proof.
  intros Hok. unfold monitor_and_execute.
  apply preserves_bind; [apply preserves_reads; reads_tac|].
  intros idx. apply preserves_gather.
  apply Forall_forall. intros t Ht. apply in_map_iff in Ht.
  destruct Ht as (i & <- & _). apply check_leg_logic_stable, Hok.
Qed.

Lemma gap_scan_stable (idx : list nat) :
  (forall i, exit_ok okU i) -> builds_tasks P (gap_scan env idx).
Proof.
  intros Hok. induction idx as [|i rest IH]; simpl.
  - apply triple_ret. auto.
  - apply bind_keeps; [apply preserves_reads; reads_tac | auto |].
    intros leg. destruct (status leg); try exact IH.
    destruct (get_option_price env (token leg)) as [p|]; [|exact IH].
    destruct (negb (truthy p)); [exact IH|].
    destruct (p <=? sl_price leg)%float; [|exact IH].
    eapply triple_bind; [exact IH|].
    intros tasks. apply triple_ret. intros w [Hw Hts]. split; auto.
    constructor; auto. apply execute_exit_stable, Hok.
Qed.

Lemma check_gap_condition_stable :
  (forall i, exit_ok okU i) -> preserves P (check_gap_condition env).
Proof.
  intros Hok. unfold check_gap_condition.
  apply preserves_bind; [apply preserves_reads; reads_tac|].
  intros idx. apply preserves_scan_then_gather, gap_scan_stable, Hok.
Qed.

Lemma exit_scan_stable (idx : list nat) :
  (forall i, exit_ok okU i) -> (forall i, okU i (set_status DONE)) ->
  builds_tasks P (exit_scan env idx).
Proof.
  intros Hok Hdn. induction idx as [|i rest IH]; simpl.
  - apply triple_ret. auto.
  - apply bind_keeps; [apply preserves_reads; reads_tac | auto |].
    intros leg. destruct (status leg); try exact IH.
    + apply bind_keeps; [ | auto | intros ?; exact IH ].
      apply P_update, Hdn.
    + eapply triple_bind; [exact IH|].
      intros tasks. apply triple_ret. intros w [Hw Hts]. split; auto.
      constructor; auto. apply execute_exit_stable, Hok.
    + apply bind_keeps; [ | auto | intros ?; exact IH ].
      apply P_update, Hdn.
Qed.

Lemma execute_strategy_exit_stable :
  (forall i, exit_ok okU i) -> (forall i, okU i (set_status DONE)) ->
  preserves P (execute_strategy_exit env).
Proof.
  intros Hok Hdn. unfold execute_strategy_exit.
  apply preserves_bind; [apply preserves_reads; reads_tac|].
  intros idx. apply preserves_scan_then_gather, exit_scan_stable; assumption.
Qed.

Lemma finalize_scan_stable (t0 t1 : time) (idx : list nat) :
  (forall i, range_ok okU i) ->
  preserves P (finalize_scan env t0 t1 idx).
Proof.
  intros Hok. induction idx as [|i rest IH]; simpl.
  - apply preserves_ret.
  - apply preserves_bind; [apply preserves_reads; reads_tac|]. intros leg.
    assert (Hstep : preserves P
              (bind (lift (q_range_high_low env (token leg) t0 t1))
                 (fun high_low =>
                    match high_low with
                    | Some (hi, lo) =>
                        bind (leg_update i
                                (fun l => set_status WAITING_ENTRY
                                            (set_range hi lo l)))
                          (fun _ => bind (finalize_scan env t0 t1 rest)
                                      (fun n => ret (n + 1)))
                    | None => finalize_scan env t0 t1 rest
                    end))).
    { apply preserves_bind; [apply preserves_lift|].
      intros [[hi lo]|]; [|exact IH].
      apply preserves_bind; [apply P_update, Hok|].
      intros ?. apply preserves_bind; [exact IH|].
      intros n. apply preserves_ret. }
    destruct (status leg); first [exact Hstep | exact IH].
Qed.

Lemma finalize_ranges_stable :
  (forall i, range_ok okU i) -> preserves P (finalize_ranges env).
Proof.
  intros Hok. unfold finalize_ranges.
  apply bind_settings; [auto|]. intros c Hc.
  apply bind_lift; [auto|]. intros t0 Ht0.
  apply preserves_bind; [apply preserves_reads; reads_tac|]. intros idx.
  apply preserves_bind; [apply finalize_scan_stable, Hok|].
  intros n. apply preserves_ret.
Qed.

Lemma gap_check_task_stable (settings : Settings) (t : time) :
  (forall i, exit_ok okU i) -> preserves P (gap_check_task env settings t).
Proof.
  intros Hok. unfold gap_check_task.
  apply preserves_bind; [apply preserves_reads; reads_tac|].
  intros open. apply preserves_when, check_gap_condition_stable, Hok.
Qed.

Lemma active_task_stable :
  (forall i, monitor_ok okU i) -> preserves P (active_task env).
Proof.
  intros Hok. unfold active_task.
  apply preserves_bind; [apply preserves_reads; reads_tac|].
  intros st. apply preserves_when, monitor_and_execute_stable, Hok.
Qed.

(** Steps on the state as a whole. *)
Hypothesis P_instrument :
  forall v, preserves P (modify_state (set_st_instrument v)).
Hypothesis P_store :
  forall k best details target,
    preserves P
      (modify_state
         (fun s => set_st_legs
                     (assoc_set k (selected_leg best details target)
                        (st_legs s)) s)).

Lemma select_strikes_stable : preserves P (select_strikes env).
Proof.
  unfold select_strikes.
  repeat (intros;
          first [ apply preserves_ret
                | apply P_instrument
                | apply preserves_reads; solve [reads_tac]
                | apply P_store
                | apply preserves_for_each
                | apply preserves_bind
                | match goal with
                  | |- preserves _ (match ?x with _ => _ end) => destruct x
                  | |- preserves _ (if ?x then _ else _) => destruct x
                  end ]).
Qed.

Hypothesis P_phase : forall p, preserves P (modify_state (set_st_status p)).
Hypothesis P_reset : preserves P (modify_state reset_for_new_day).
Hypothesis ok_all :
  forall i, monitor_ok okU i /\ range_ok okU i.

Lemma loop_iteration_stable : preserves P (loop_iteration env).
Proof.
  assert (Hexit : forall i, exit_ok okU i)
    by (intros i; apply (proj1 (ok_all i))).
  assert (Hdone : forall i, okU i (set_status DONE))
    by (intros i; apply (proj1 (ok_all i))).
  unfold loop_iteration.
  apply preserves_catch; [|intros; apply preserves_ret].
  apply preserves_option_match; [|apply preserves_raise]. intros c Hc.
  destruct (negb (is_running c)); [apply preserves_ret|].
  repeat (apply preserves_bind; [apply preserves_lift | intros ?]).
  apply preserves_bind; [apply gap_check_task_stable, Hexit|].
  intros ?. apply preserves_bind.
  { unfold daily_exit_task.
    apply preserves_bind; [apply preserves_reads; reads_tac|].
    intros open. apply preserves_when.
    apply preserves_bind; [apply preserves_reads; reads_tac|].
    intros st. apply preserves_when.
    apply preserves_bind;
      [apply execute_strategy_exit_stable; assumption|].
    intros ?. apply preserves_bind; [apply P_reset|].
    intros ?. apply P_save. }
  intros ?. apply preserves_bind.
  { unfold start_task.
    apply preserves_bind; [apply preserves_reads; reads_tac|].
    intros st. apply preserves_when.
    apply preserves_bind; [apply select_strikes_stable|].
    intros [|]; [|apply preserves_ret].
    apply preserves_bind; [apply P_phase|]. intros ?. apply P_save. }
  intros ?. apply preserves_bind.
  { unfold range_end_task.
    apply preserves_bind; [apply preserves_reads; reads_tac|].
    intros st. apply preserves_when, preserves_when.
    apply preserves_bind;
      [apply finalize_ranges_stable; intros i; apply (proj2 (ok_all i))|].
    intros ?. apply preserves_bind; [apply P_phase|]. intros ?. apply P_save. }
  intros ?. apply active_task_stable.
  intros i. apply (proj1 (ok_all i)).
Qed.

End Stable.

(** ** Paper trading *)

(** X2. Under a paper-trading configuration one loop iteration adds nothing
    but paper trades to the trace: the order gateway is never called,
    whatever the clock, the market data and the state. *)
Theorem paper_mode_never_calls_gateway (env : Env) (w : World) :
  paper_mode env ->
  only_paper_since (trace w) (snd (loop_iteration env w)).
Proof.
  intros Hpaper.
  apply (preserves_snd (only_paper_since (trace w))).
  - apply (loop_iteration_stable env _ (fun _ _ => True)).
    + intros req price w' (evs & He & Hp). exists (evs ++ [EvPaper req price])%list.
      simpl. rewrite He, app_assoc. split; [reflexivity|].
      rewrite forallb_app, Hp. reflexivity.
    + intros c req Hc Hlive. rewrite (Hpaper c Hc) in Hlive. discriminate.
    + intros w' H. exact H.
    + intros i f _ w' H. exact H.
    + intros v w' H. exact H.
    + intros k best details target w' H. exact H.
    + intros p w' H. exact H.
    + intros w' H. exact H.
    + intros i. unfold monitor_ok, entry_ok, exit_ok, range_ok. tauto.
  - exists []. rewrite app_nil_r. split; reflexivity.
Qed.

Lemma paper_mode_never_calls_gateway_witness :
  only_paper_since []
    (snd (loop_iteration
            (Sample.env_of (Sample.at_time 11 0)
               (Sample.settings true (9, 16) 5) (Some 276%float) None
               (Some "1000001"))
            (Sample.world_of ACTIVE (Sample.leg BUY WAITING_ENTRY 0 0 0)))).
Proof.
  apply (paper_mode_never_calls_gateway
           (Sample.env_of (Sample.at_time 11 0)
              (Sample.settings true (9, 16) 5) (Some 276%float) None
              (Some "1000001"))
           (Sample.world_of ACTIVE (Sample.leg BUY WAITING_ENTRY 0 0 0))).
  intros c Hc. inversion Hc. reflexivity.
Defined.

(** ** Phase changes and the state file *)




(** ** The entry records of the legs *)

Lemma entry_records_update (i : nat) (f : Leg -> Leg) (w : World) :
  (forall l, entry_record (f l) = entry_record l) ->
  entry_records (snd (leg_update i f w)) = entry_records w.
Proof.
  intros Hf. unfold entry_records. simpl.
  generalize (st_legs (mem w)). intros l. revert i.
  induction l as [|x l IH]; intros [|i]; simpl; auto.
  - rewrite Hf. reflexivity.
  - rewrite IH. reflexivity.
Qed.

(** X4. An exit, the gap check, the daily square-off and range
    finalisation leave the entry price, the stop-loss price and the entry
    count of every leg, and the order of the leg keys, as they were.  Strike
    selection does write them: every record it leaves is one that was there
    before or the record of a freshly selected leg, with both prices [0]
    and the count [0]. *)
Theorem entry_records_untouched (env : Env) (i : nat) (price : float)
    (reason : string) (w : World) :
  entry_records (snd (execute_exit env i price reason w)) = entry_records w /\
  entry_records (snd (check_gap_condition env w)) = entry_records w /\
  entry_records (snd (execute_strategy_exit env w)) = entry_records w /\
  entry_records (snd (finalize_ranges env w)) = entry_records w /\
  (forall kr, In kr (entry_records (snd (select_strikes env w))) ->
              In kr (entry_records w) \/
              snd kr = (0%float, 0%float, Some 0)).
Proof.
  set (okU := fun (_ : nat) (f : Leg -> Leg) =>
                forall l, entry_record (f l) = entry_record l).
  set (P := fun w' => entry_records w' = entry_records w).
  assert (Hpaper : forall req p, preserves P (emit (EvPaper req p)))
    by (intros req p w' H; exact H).
  assert (Horder : forall (c : Config) req,
             env_config env = Some c ->
             paper_trading (strategy_settings c) = false ->
             preserves P (emit (EvOrder req (gateway env req))))
    by (intros c req _ _ w' H; exact H).
  assert (Hsave : preserves P save_state) by (intros w' H; exact H).
  assert (Hupd : forall j f, okU j f -> preserves P (leg_update j f)).
  { intros j f Hf w' H. unfold P in *. simpl.
    rewrite <- H. apply (entry_records_update j f w' Hf). }
  assert (Hexit : forall j, exit_ok okU j) by (intros j p r l; reflexivity).
  assert (Hdone : forall j, okU j (set_status DONE)) by (intros j l; reflexivity).
  assert (Hrange : forall j, range_ok okU j) by (intros j hi lo l; reflexivity).
  split; [|split; [|split; [|split]]].
  - apply (preserves_snd P); [|reflexivity].
    apply (execute_exit_stable env P okU); auto.
  - apply (preserves_snd P); [|reflexivity].
    apply (check_gap_condition_stable env P okU); auto.
  - apply (preserves_snd P); [|reflexivity].
    apply (execute_strategy_exit_stable env P okU); auto.
  - apply (preserves_snd P); [|reflexivity].
    apply (finalize_ranges_stable env P okU); auto.
  - apply (preserves_snd
             (fun w' => forall kr, In kr (entry_records w') ->
                In kr (entry_records w) \/
                snd kr = (0%float, 0%float, Some 0))).
    + apply select_strikes_stable.
      * intros v w' H. exact H.
      * intros k best details target w' H kr Hin.
        unfold entry_records in Hin. simpl in Hin.
        apply in_map_iff in Hin. destruct Hin as (kl & <- & Hkl).
        apply In_assoc_set in Hkl. destruct Hkl as [Hkl | Hkl].
        -- apply H. unfold entry_records. apply in_map_iff.
           exists kl. split; [reflexivity | exact Hkl].
        -- right. simpl. rewrite Hkl. reflexivity.
    + intros kr Hin. left. exact Hin.
Qed.

Lemma entry_records_untouched_witness :
  let e := Sample.env_of (Sample.at_time 9 31) (Sample.settings true (9, 16) 5)
             None (Some 59130%float) None in
  let w := snd (startup e fresh_world) in
  let kr := ("sp10ce", (0%float, 0%float, Some 0)) in
  In kr (entry_records (snd (select_strikes e w))) /\
  ~ In kr (entry_records w) /\
  (In kr (entry_records w) \/ snd kr = (0%float, 0%float, Some 0)).
Proof.
  intros e w kr. split; [|split].
  - vm_compute. left. reflexivity.
  - intros H. vm_compute in H. destruct H as [H | [H | []]]; discriminate H.
  - apply (proj2 (proj2 (proj2 (proj2
             (entry_records_untouched e 0%nat 0%float EmptyString w)))) kr).
    vm_compute. left. reflexivity.
Defined.

(** ** Legs are evaluated independently *)

Lemma check_leg_logic_returns (env : Env) (i : nat) (w : World) :
  fst (check_leg_logic env i w) = Ok tt.
Proof.
  unfold check_leg_logic, catch.
  match goal with
  | |- fst (match ?m with _ => _ end) = _ => destruct m as [[[]|e] w']
  end; reflexivity.
Qed.

Lemma gather_returns (tasks : list (M unit)) (w : World) :
  (forall t w', In t tasks -> fst (t w') = Ok tt) ->
  fst (gather tasks w) = Ok tt.
Proof.
  revert w. induction tasks as [|t ts IH]; intros w H; simpl; auto.
  pose proof (H t w (or_introl eq_refl)) as Ht.
  destruct (t w) as [[[]|e] w']; simpl in Ht; [|discriminate].
  apply IH. intros t' w'' Hin. apply H. right. exact Hin.
Qed.

(** X5. The evaluation of a leg never raises, and it changes neither the
    phase, nor the instrument, nor any leg at another position; hence a full
    round of monitoring never raises either, whatever the database and the
    gateway answer. *)
Theorem legs_evaluated_independently (env : Env) (i : nat) (w : World) :
  fst (check_leg_logic env i w) = Ok tt /\
  (forall j, j <> i -> same_elsewhere j w (snd (check_leg_logic env i w))) /\
  fst (monitor_and_execute env w) = Ok tt.
Proof.
  split; [apply check_leg_logic_returns|split].
  - intros j Hji.
    apply (preserves_snd (same_elsewhere j w)); [|repeat split].
    apply (check_leg_logic_stable env _ (fun i' _ => i' <> j)).
    + intros req p w' H. exact H.
    + intros c req _ _ w' H. exact H.
    + intros w' H. exact H.
    + intros i' f Hne w' (H1 & H2 & H3). repeat split; auto.
      simpl. rewrite nth_error_upd_nth_other; auto.
    + unfold monitor_ok, entry_ok, exit_ok. repeat split; intros; congruence.
  - unfold monitor_and_execute, bind, leg_indices, get_state, ret.
    apply gather_returns. intros t w' Ht. apply in_map_iff in Ht.
    destruct Ht as (j & <- & _). apply check_leg_logic_returns.
Qed.

Lemma legs_evaluated_independently_witness :
  let e := Sample.env_of (Sample.at_time 11 0) (Sample.settings true (9, 16) 5)
             (Some 150%float) None None in
  let w := Sample.world_of ACTIVE (Sample.leg BUY L_ACTIVE 200 160 1) in
  same_elsewhere 1 w (snd (check_leg_logic e 0 w)).
Proof.
  intros e w.
  apply (proj1 (proj2 (legs_evaluated_independently e 0%nat w)) 1%nat).
  discriminate.
Defined.

(** ** No lot size *)

Lemma lot_size_for_unknown (env : Env) (w : World) (c : Config) :
  lot_size_unknown env w -> env_config env = Some c ->
  exists e, lot_size_for (strategy_settings c) w = (Raise e, w).
Proof.
  intros H Hc. unfold lot_size_for, bind, get_state.
  destruct (st_instrument (mem w)) as [inst|] eqn:Hi.
  - rewrite (H c inst Hc Hi). eexists. reflexivity.
  - eexists. reflexivity.
Qed.

Lemma execute_entry_unknown (env : Env) (i : nat) (p : float) (d : string)
    (w : World) :
  lot_size_unknown env w ->
  exists e, execute_entry env i p d w = (Raise e, w).
Proof.
  intros H. unfold execute_entry, get_strategy_settings.
  destruct (env_config env) as [c|] eqn:Hc.
  - destruct (lot_size_for_unknown env w c H Hc) as [e He].
    unfold bind, ret. rewrite He. eexists. reflexivity.
  - eexists. reflexivity.
Qed.

Lemma execute_exit_unknown (env : Env) (i : nat) (p : float) (r : string)
    (w : World) :
  lot_size_unknown env w ->
  exists e, execute_exit env i p r w = (Raise e, w).
Proof.
  intros H. unfold execute_exit, get_strategy_settings.
  destruct (env_config env) as [c|] eqn:Hc.
  - destruct (lot_size_for_unknown env w c H Hc) as [e He].
    unfold bind, ret. rewrite He. eexists. reflexivity.
  - eexists. reflexivity.
Qed.

(** X6. When the instrument of the state has no lot size in the settings
    (or the state has no instrument), the evaluation of a leg does nothing at
    all: no entry on a trigger and no exit on a stop-loss hit, the
    [KeyError] being swallowed; the gap check and the daily square-off, which
    do not catch it, raise as soon as they have an open leg to exit. *)
Theorem no_lot_size_no_trade (env : Env) (i : nat) (p : float) (r : string)
    (w : World) :
  lot_size_unknown env w ->
  check_leg_logic env i w = (Ok tt, w) /\
  exists e, execute_exit env i p r w = (Raise e, w).
Proof.
  intros H. split; [|apply execute_exit_unknown, H].
  unfold check_leg_logic. mred.
  destruct (nth_error (st_legs (mem w)) i) as [[k leg]|] eqn:Hleg;
    [|reflexivity].
  simpl.
  destruct (get_option_price env (token leg)) as [q|]; [|reflexivity].
  destruct (truthy q); simpl; [|reflexivity].
  rewrite Hleg. simpl.
  destruct (action leg) as [a|]; [|reflexivity].
  destruct (status leg); try reflexivity.
  - destruct (entry_trigger_pct leg) as [tp|]; [|reflexivity].
    destruct (_ <? q)%float; [|reflexivity].
    destruct (execute_entry_unknown env i q "ENTRY_1" w H) as [e He].
    rewrite He. reflexivity.
  - destruct (match a with BUY => _ | SELL => _ end); [|reflexivity].
    destruct (execute_exit_unknown env i q "SL_HIT" w H) as [e He].
    rewrite He. reflexivity.
  - destruct (reentry_trigger_pct leg) as [tp|]; [|reflexivity].
    destruct (_ <? q)%float; [|reflexivity].
    destruct (execute_entry_unknown env i q "ENTRY_2" w H) as [e He].
    rewrite He. reflexivity.
Qed.

Lemma no_lot_size_no_trade_witness :
  let cfg := Sample.settings true (9, 16) 5 in
  let e := Sample.env_of (Sample.at_time 11 0) cfg (Some 150%float) None None in
  let w := {| mem := set_st_instrument (Some "SENSEX")
                       (mem (Sample.world_of ACTIVE
                               (Sample.leg BUY L_ACTIVE 200 160 1)));
              disk := None; trace := [] |} in
  check_leg_logic e 0 w = (Ok tt, w) /\
  exists x, execute_exit e 0 150%float "GAP_SL_HIT" w = (Raise x, w).
Proof.
  intros cfg e w.
  apply (no_lot_size_no_trade e 0%nat 150%float "GAP_SL_HIT" w).
  intros c inst Hc Hi. inversion Hc. inversion Hi. reflexivity.
Defined.

(** ** What a trade leaves in the state file *)

(** X7. An exit that returns has saved the state it leaves; an entry that
    returns has either left the memory as it was (the order was not
    acknowledged) or saved the state it leaves; and a state that was saved
    with at least one leg is the state the engine holds after a restart,
    when the settings can be read. *)
Theorem trades_are_saved (env : Env) (i : nat) (price : float)
    (tag : string) (w : World) :
  (fst (execute_exit env i price tag w) = Ok tt ->
   let w1 := snd (execute_exit env i price tag w) in
   disk w1 = Some (mem w1)) /\
  (fst (execute_entry env i price tag w) = Ok tt ->
   let w1 := snd (execute_entry env i price tag w) in
   mem w1 = mem w \/ disk w1 = Some (mem w1)) /\
  (forall c, env_config env = Some c -> st_legs (mem w) <> [] ->
   startup env (restart (snd (save_state w))) =
   (Ok tt, {| mem := mem w; disk := Some (mem w); trace := trace w |})).
Proof.
  split; [|split].
  - unfold execute_exit, get_strategy_settings, lot_size_for.
    destruct (env_config env) as [c|]; [|discriminate].
    mred. simpl.
    destruct (st_instrument (mem w)) as [inst|]; [|discriminate].
    destruct (assoc_get inst (lot_sizes (strategy_settings c))); [|discriminate].
    simpl.
    destruct (nth_error (st_legs (mem w)) i) as [[k leg]|]; [|discriminate].
    simpl. destruct (action leg); [|discriminate].
    destruct (paper_trading (strategy_settings c)); simpl; reflexivity.
  - unfold execute_entry, get_strategy_settings, lot_size_for.
    destruct (env_config env) as [c|]; [|discriminate].
    mred. simpl.
    destruct (st_instrument (mem w)) as [inst|]; [|discriminate].
    destruct (assoc_get inst (lot_sizes (strategy_settings c))); [|discriminate].
    simpl.
    destruct (nth_error (st_legs (mem w)) i) as [[k leg]|] eqn:Hleg;
      [|discriminate].
    simpl. destruct (action leg); [|discriminate].
    destruct (paper_trading (strategy_settings c)); simpl.
    + rewrite !nth_error_upd_nth_same, Hleg. simpl.
      destruct (sl_pct leg); [|discriminate]. simpl.
      rewrite !upd_nth_on_snd_twice, !nth_error_upd_nth_same, Hleg. simpl.
      destruct (entries_count leg); [|discriminate]. simpl.
      intros _. right. reflexivity.
    + destruct (truthy_str (gateway env _)); simpl; [|intros _; left; reflexivity].
      rewrite !nth_error_upd_nth_same, Hleg. simpl.
      destruct (sl_pct leg); [|discriminate]. simpl.
      rewrite !upd_nth_on_snd_twice, !nth_error_upd_nth_same, Hleg. simpl.
      destruct (entries_count leg); [|discriminate]. simpl.
      intros _. right. reflexivity.
  - intros c Hc Hlegs. unfold startup, get_strategy_settings. rewrite Hc.
    mred. simpl. destruct (st_legs (mem w)); [contradiction Hlegs; reflexivity|].
    reflexivity.
Qed.

Lemma trades_are_saved_witness :
  let e := Sample.env_of (Sample.at_time 11 0) (Sample.settings true (9, 16) 5)
             (Some 150%float) None None in
  let w := Sample.world_of ACTIVE (Sample.leg BUY L_ACTIVE 200 160 1) in
  let w1 := snd (execute_exit e 0 150%float "SL_HIT" w) in
  disk w1 = Some (mem w1).
Proof.
  intros e w.
  apply (proj1 (trades_are_saved e 0%nat 150%float "SL_HIT" w)).
  reflexivity.
Defined.

(** ** The daily reset *)




(** ** Dormant legs *)

Lemma check_leg_logic_dormant (env : Env) (i : nat) (w : World) :
  (forall leg, leg_at (mem w) i = Some leg ->
               dormant leg = true \/ action leg = None) ->
  check_leg_logic env i w = (Ok tt, w).
Proof.
  intros H. unfold check_leg_logic. mred. unfold leg_at in H.
  destruct (nth_error (st_legs (mem w)) i) as [[k leg]|] eqn:Hleg;
    [|reflexivity].
  simpl. specialize (H leg eq_refl).
  destruct (get_option_price env (token leg)) as [q|]; [|reflexivity].
  destruct (truthy q); simpl; [|reflexivity].
  rewrite Hleg. simpl.
  destruct (action leg) as [a|]; [|reflexivity].
  unfold dormant in H.
  destruct (status leg); try reflexivity;
    destruct H as [H | H]; discriminate H.
Qed.

Lemma gather_idle (tasks : list (M unit)) (w : World) :
  (forall t, In t tasks -> t w = (Ok tt, w)) -> gather tasks w = (Ok tt, w).
Proof.
  induction tasks as [|t ts IH]; intros H; simpl; [reflexivity|].
  rewrite (H t (or_introl eq_refl)). apply IH.
  intros t' Hin. apply H. right. exact Hin.
Qed.

Lemma leg_at_in_range (w : World) (i : nat) :
  (i < List.length (st_legs (mem w)))%nat ->
  exists kl, nth_error (st_legs (mem w)) i = Some kl.
Proof.
  intros Hi. destruct (nth_error (st_legs (mem w)) i) as [kl|] eqn:H.
  - exists kl. reflexivity.
  - apply nth_error_None in H. lia.
Qed.

Lemma gap_scan_dormant (env : Env) (w : World) (idx : list nat) :
  all_dormant w ->
  (forall i, In i idx -> (i < List.length (st_legs (mem w)))%nat) ->
  gap_scan env idx w = (Ok [], w).
Proof.
  intros Hd. induction idx as [|i rest IH]; intros Hin; simpl; [reflexivity|].
  unfold bind, leg_get.
  destruct (leg_at_in_range w i (Hin i (or_introl eq_refl))) as [[k leg] Hleg].
  rewrite Hleg. simpl.
  assert (Hl : dormant leg = true).
  { apply (Hd i). unfold leg_at. rewrite Hleg. reflexivity. }
  assert (Hrest : gap_scan env rest w = (Ok [], w))
    by (apply IH; intros j Hj; apply Hin; right; exact Hj).
  unfold dormant in Hl. destruct (status leg); try discriminate Hl; exact Hrest.
Qed.

Lemma exit_scan_dormant (env : Env) (w : World) (idx : list nat) :
  all_dormant w ->
  (forall i, In i idx -> (i < List.length (st_legs (mem w)))%nat) ->
  exit_scan env idx w = (Ok [], w).
Proof.
  intros Hd. induction idx as [|i rest IH]; intros Hin; simpl; [reflexivity|].
  unfold bind, leg_get.
  destruct (leg_at_in_range w i (Hin i (or_introl eq_refl))) as [[k leg] Hleg].
  rewrite Hleg. simpl.
  assert (Hl : dormant leg = true).
  { apply (Hd i). unfold leg_at. rewrite Hleg. reflexivity. }
  assert (Hrest : exit_scan env rest w = (Ok [], w))
    by (apply IH; intros j Hj; apply Hin; right; exact Hj).
  unfold dormant in Hl. destruct (status leg); try discriminate Hl; exact Hrest.
Qed.

(** X9. The engine acts on a leg only in status [WAITING_ENTRY], [ACTIVE] or
    [WAITING_REENTRY].  A leg in any other status, or one without a
    direction (a placeholder), is left as it is by the leg monitor; and when
    every leg is in such a status (placeholders, legs whose range was never
    found, legs exited by the gap check, finished legs), a monitoring round,
    the gap check and the daily square-off change nothing and place no
    order. *)
Theorem dormant_legs_are_left_alone (env : Env) (w : World) :
  (forall i,
      (forall leg, leg_at (mem w) i = Some leg ->
                   dormant leg = true \/ action leg = None) ->
      check_leg_logic env i w = (Ok tt, w)) /\
  (all_dormant w ->
   monitor_and_execute env w = (Ok tt, w) /\
   check_gap_condition env w = (Ok tt, w) /\
   execute_strategy_exit env w = (Ok tt, w)).
Proof.
  split; [intros i; apply check_leg_logic_dormant|].
  intros Hd.
  assert (Hidx : forall i, In i (seq 0 (List.length (st_legs (mem w)))) ->
                           (i < List.length (st_legs (mem w)))%nat)
    by (intros i Hi; apply in_seq in Hi; lia).
  split; [|split].
  - unfold monitor_and_execute, bind, leg_indices, get_state, ret.
    apply gather_idle. intros t Ht. apply in_map_iff in Ht.
    destruct Ht as (i & <- & _). apply check_leg_logic_dormant.
    intros leg Hleg. left. exact (Hd i leg Hleg).
  - unfold check_gap_condition. mred.
    rewrite (gap_scan_dormant env w _ Hd Hidx). reflexivity.
  - unfold execute_strategy_exit. mred.
    rewrite (exit_scan_dormant env w _ Hd Hidx). reflexivity.
Qed.

Lemma dormant_legs_are_left_alone_witness :
  let e := Sample.env_of (Sample.at_time 11 0) (Sample.settings false (9, 16) 5)
             (Some 150%float) None (Some "A1") in
  let w := Sample.world_of ACTIVE (Sample.leg BUY EXITED 200 160 1) in
  monitor_and_execute e w = (Ok tt, w) /\
  check_gap_condition e w = (Ok tt, w) /\
  execute_strategy_exit e w = (Ok tt, w).
Proof.
  intros e w. apply (proj2 (dormant_legs_are_left_alone e w)).
  intros [|[|i]] leg H; simpl in H; inversion H; reflexivity.
Defined.

(** ** Expiry lookup *)

(** X10. [get_expiry] looks its argument up in the instrument map, and
    [select_strikes] hands it the database symbol, which it has itself just
    taken from that map.  So a map that translates the instrument but has no
    entry for the database symbol makes every strike selection fail with a
    [KeyError] once the spot price is there and the at-the-money strike has
    been computed (a step that is not zero and converts to a float, a
    quotient that can be rounded), the instrument being stored all the
    same.  With the key present the answer is the second active
    expiry when ["next"] is asked for and there are two, the first
    otherwise, and [None] when there is none. *)
Theorem expiry_lookup_needs_db_symbol (env : Env) (c : Config) (w : World) :
  env_config env = Some c ->
  (forall inst pref,
      assoc_get inst (instrument_map (strategy_settings c)) = None ->
      get_expiry env inst pref w = (Raise (KeyError inst), w)) /\
  (forall inst db pref l,
      assoc_get inst (instrument_map (strategy_settings c)) = Some db ->
      q_active_expiries env db = Ok l ->
      get_expiry env inst pref w =
      (Ok (match l with
           | [] => None
           | [first] => Some first
           | first :: second :: _ =>
               Some (if String.eqb pref "next" then second else first)
           end), w)) /\
  (forall db start_t spot d r,
      let s := strategy_settings c in
      mk_time (fst (tr_start (time_range s))) (snd (tr_start (time_range s)))
        = Ok start_t ->
      assoc_get (cfg_instrument s) (instrument_map s) = Some db ->
      assoc_get db (instrument_map s) = None ->
      q_spot_at env (cfg_instrument s)
        (if time_ltb (env_now env) start_t then env_now env else start_t)
        = Ok (Some spot) ->
      truthy spot = true ->
      strike_step s <> 0 ->
      float_of_Z (strike_step s) = Ok d ->
      py_round (spot / d)%float = Ok r ->
      select_strikes env w =
      (Raise (KeyError db),
       {| mem := set_st_instrument (Some (cfg_instrument s)) (mem w);
          disk := disk w; trace := trace w |})).
Proof.
  intros Hc. split; [|split].
  - intros inst pref Hnone. unfold get_expiry, get_strategy_settings.
    rewrite Hc. mred. rewrite Hnone. reflexivity.
  - intros inst db pref l Hdb Hl. unfold get_expiry, get_strategy_settings.
    rewrite Hc. mred. rewrite Hdb. rewrite Hl.
    destruct l as [|a [|b l']]; try reflexivity.
    destruct (String.eqb pref "next"); reflexivity.
  - intros db start_t spot d r s Ht Hdb Hnone Hspot Htr Hstep Hd Hr.
    unfold select_strikes, get_strategy_settings, get_spot_price_at,
      atm_strike_of, get_expiry, get_strategy_settings.
    rewrite Hc. mred. fold s. rewrite Ht. simpl. rewrite Hdb. rewrite Hspot.
    simpl. rewrite Htr.
    destruct (Z.eqb_spec (strike_step s) 0) as [E | _]; [contradiction|].
    mred. rewrite Hd. rewrite Hr. rewrite Hnone. reflexivity.
Qed.

Lemma expiry_lookup_needs_db_symbol_witness :
  let s := {| cfg_instrument := "NIFTY BANK"; strike_step := 100;
              cfg_global_lots := 1; lot_sizes := [("NIFTY BANK", 15)];
              paper_trading := true;
              time_range := time_range (Sample.settings true (9, 16) 5);
              buffer_minutes := 5;
              strategy_parameters :=
                strategy_parameters (Sample.settings true (9, 16) 5);
              instrument_map := [("NIFTY BANK", "BANKNIFTY")];
              cfg_legs := cfg_legs (Sample.settings true (9, 16) 5) |} in
  let e := Sample.env_of (Sample.at_time 9 31) s None (Some 59130%float) None in
  select_strikes e fresh_world =
  (Raise (KeyError "BANKNIFTY"),
   {| mem := set_st_instrument (Some "NIFTY BANK") initial_state;
      disk := None; trace := [] |}).
Proof.
  intros s e.
  apply (proj2 (proj2 (expiry_lookup_needs_db_symbol e
                         {| is_running := true; strategy_settings := s |}
                         fresh_world eq_refl))
           "BANKNIFTY" (mk_time_raw 9 30 0 0) 59130%float 100%float 591).
  - reflexivity.
  - reflexivity.
  - reflexivity.
  - reflexivity.
  - vm_compute. reflexivity.
  - simpl. lia.
  - vm_compute. reflexivity.
  - vm_compute. reflexivity.
Defined.

(** ** Range finalisation *)

Lemma finalize_scan_count (env : Env) (t0 t1 : time) (idx : list nat) :
  forall w n w',
    finalize_scan env t0 t1 idx w = (Ok n, w') ->
    0 <= n /\ (n = 0 -> w' = w).
Proof.
  induction idx as [|i rest IH]; intros w n w'; simpl.
  - unfold ret. intros H. inversion H. split; [lia | reflexivity].
  - unfold bind at 1. unfold leg_get.
    destruct (nth_error (st_legs (mem w)) i) as [[k leg]|]; [|discriminate].
    simpl.
    assert (Hstep :
      bind (lift (q_range_high_low env (token leg) t0 t1))
        (fun high_low =>
           match high_low with
           | Some (hi, lo) =>
               bind (leg_update i
                       (fun l => set_status WAITING_ENTRY (set_range hi lo l)))
                 (fun _ => bind (finalize_scan env t0 t1 rest)
                             (fun n => ret (n + 1)))
           | None => finalize_scan env t0 t1 rest
           end) w = (Ok n, w') ->
      0 <= n /\ (n = 0 -> w' = w)).
    { unfold bind at 1. unfold lift.
      destruct (q_range_high_low env (token leg) t0 t1) as [[[hi lo]|]|e];
        [| apply IH | discriminate].
      unfold bind. unfold leg_update, modify_state at 1.
      match goal with
      | |- context [finalize_scan env t0 t1 rest ?w1] =>
          destruct (finalize_scan env t0 t1 rest w1) as [[m|e] w2] eqn:Hs
      end; [|discriminate].
      unfold ret. intros H. inversion H. subst.
      destruct (IH _ _ _ Hs) as [Hm _]. split; lia. }
    destruct (status leg); first [exact Hstep | apply IH].
Qed.

(** X11. Range finalisation that answers [False] has changed nothing at
    all; and the range-end task does not look at the answer: once the end
    time is reached in phase [MONITORING_RANGE], the phase becomes [ACTIVE]
    and is saved whenever finalisation returns, also when no leg got a
    range. *)
Theorem range_end_ignores_answer (env : Env) (t : time) (w : World) :
  (forall w', finalize_ranges env w = (Ok false, w') -> w' = w) /\
  (forall b w',
      st_status (mem w) = MONITORING_RANGE ->
      time_geb (env_now env) t = true ->
      finalize_ranges env w = (Ok b, w') ->
      range_end_task env t w =
      (Ok tt, {| mem := set_st_status ACTIVE (mem w');
                 disk := Some (set_st_status ACTIVE (mem w'));
                 trace := trace w' |})).
Proof.
  split.
  - intros w'. unfold finalize_ranges, get_strategy_settings.
    destruct (env_config env) as [c|]; [|discriminate].
    mred.
    destruct (mk_time _ _) as [t0|e]; [|discriminate].
    destruct (finalize_scan env t0 (env_now env) _ w) as [[n|e] w1] eqn:Hs;
      [|discriminate].
    intros H. inversion H. subst w1.
    destruct (finalize_scan_count env _ _ _ _ _ _ Hs) as [Hn Hz].
    apply Hz. apply Z.ltb_ge in H1. lia.
  - intros b w' Hph Ht Hf. unfold range_end_task. mred.
    rewrite Hph. simpl. rewrite Ht. rewrite Hf. reflexivity.
Qed.

Lemma range_end_ignores_answer_witness :
  let e0 := Sample.env_of (Sample.at_time 10 31) (Sample.settings true (9, 16) 5)
              None None None in
  let e := {| env_now := env_now e0; env_config := env_config e0;
              q_spot_at := q_spot_at e0; q_option_latest := q_option_latest e0;
              q_option_at := q_option_at e0;
              q_active_expiries := q_active_expiries e0;
              q_token_for_strike := q_token_for_strike e0;
              q_strikes_at := q_strikes_at e0;
              q_range_high_low := fun _ _ _ => Ok None;
              gateway := gateway e0 |} in
  let w := Sample.world_of MONITORING_RANGE
             (Sample.leg BUY WAITING_RANGE 0 0 0) in
  range_end_task e (mk_time_raw 10 30 0 0) w =
  (Ok tt, {| mem := set_st_status ACTIVE (mem w);
             disk := Some (set_st_status ACTIVE (mem w));
             trace := trace w |}).
Proof.
  intros e0 e w.
  apply (proj2 (range_end_ignores_answer e (mk_time_raw 10 30 0 0) w) false w).
  - reflexivity.
  - reflexivity.
  - reflexivity.
Defined.

(** ** The orders of a round trip *)

Lemma execute_entry_event (env : Env) (i : nat) (price : float)
    (description : string) (w : World) (c : Config) (inst : string) (sz : Z)
    (k : string) (leg : Leg) (a : Action) (pct : float) (n : Z) :
  env_config env = Some c ->
  st_instrument (mem w) = Some inst ->
  assoc_get inst (lot_sizes (strategy_settings c)) = Some sz ->
  nth_error (st_legs (mem w)) i = Some (k, leg) ->
  action leg = Some a ->
  sl_pct leg = Some pct ->
  entries_count leg = Some n ->
  entry_acknowledged env (strategy_settings c)
    (entry_request (strategy_settings c) sz a leg) ->
  exists ev,
    order_of ev = entry_request (strategy_settings c) sz a leg /\
    execute_entry env i price description w =
    (Ok tt,
     let s := set_st_legs
                (upd_nth i (on_snd (entered a price pct n)) (st_legs (mem w)))
                (mem w) in
     {| mem := s; disk := Some s; trace := trace w ++ [ev] |}).
Proof.
  intros Hc Hi Hsz Hleg Ha Hpct Hn Hack.
  unfold execute_entry, get_strategy_settings, lot_size_for.
  rewrite Hc. mred. simpl. rewrite Hi, Hsz, Hleg. simpl. rewrite Ha.
  unfold entry_acknowledged, entry_request in Hack.
  destruct (paper_trading (strategy_settings c)); simpl;
    [ | destruct Hack as [Hp | Hg]; [discriminate | rewrite Hg] ];
    simpl;
    rewrite !nth_error_upd_nth_same, Hleg; simpl; rewrite Hpct; simpl;
    rewrite !upd_nth_on_snd_twice, !nth_error_upd_nth_same, Hleg; simpl;
    rewrite Hn; simpl; rewrite !upd_nth_on_snd_twice;
    eexists; (split; [|reflexivity]); reflexivity.
Qed.

Lemma execute_exit_event (env : Env) (i : nat) (price : float)
    (reason : string) (w : World) (c : Config) (inst : string) (sz : Z)
    (k : string) (leg : Leg) (a : Action) :
  env_config env = Some c ->
  st_instrument (mem w) = Some inst ->
  assoc_get inst (lot_sizes (strategy_settings c)) = Some sz ->
  nth_error (st_legs (mem w)) i = Some (k, leg) ->
  action leg = Some a ->
  exists ev,
    order_of ev = mirror (entry_request (strategy_settings c) sz a leg) /\
    trace (snd (execute_exit env i price reason w)) = (trace w ++ [ev])%list.
Proof.
  intros Hc Hi Hsz Hleg Ha.
  unfold execute_exit, get_strategy_settings, lot_size_for.
  rewrite Hc. mred. simpl. rewrite Hi, Hsz, Hleg. simpl. rewrite Ha.
  destruct (paper_trading (strategy_settings c)); simpl;
    eexists; (split; [|reflexivity]); reflexivity.
Qed.

(** X12. An acknowledged entry followed by an exit of the same leg, of
    whatever kind, adds two requests to the trace: the entry for the leg's
    contract on the leg's side, and an exit for the same contract on the
    other side.  Each quantity is the leg's lots times the global lots and
    the lot size of the settings read at that moment, so the two quantities
    agree when those settings do. *)
Theorem exit_order_mirrors_entry (env1 env2 : Env) (i : nat)
    (p1 p2 : float) (tag1 tag2 : string) (w : World) (c1 c2 : Config)
    (inst : string) (sz1 sz2 : Z) (k : string) (leg : Leg) (a : Action)
    (pct : float) (n : Z) :
  env_config env1 = Some c1 ->
  env_config env2 = Some c2 ->
  st_instrument (mem w) = Some inst ->
  assoc_get inst (lot_sizes (strategy_settings c1)) = Some sz1 ->
  assoc_get inst (lot_sizes (strategy_settings c2)) = Some sz2 ->
  nth_error (st_legs (mem w)) i = Some (k, leg) ->
  action leg = Some a ->
  sl_pct leg = Some pct ->
  entries_count leg = Some n ->
  entry_acknowledged env1 (strategy_settings c1)
    (entry_request (strategy_settings c1) sz1 a leg) ->
  let w1 := snd (execute_entry env1 i p1 tag1 w) in
  let w2 := snd (execute_exit env2 i p2 tag2 w1) in
  exists e1 e2,
    trace w2 = (trace w ++ [e1; e2])%list /\
    order_of e1 = entry_request (strategy_settings c1) sz1 a leg /\
    order_of e2 = mirror (entry_request (strategy_settings c2) sz2 a leg) /\
    (cfg_global_lots (strategy_settings c1) * sz1 =
     cfg_global_lots (strategy_settings c2) * sz2 ->
     order_of e2 = mirror (order_of e1)).
Proof.
  intros Hc1 Hc2 Hi Hsz1 Hsz2 Hleg Ha Hpct Hn Hack w1 w2.
  destruct (execute_entry_event env1 i p1 tag1 w c1 inst sz1 k leg a pct n
              Hc1 Hi Hsz1 Hleg Ha Hpct Hn Hack) as (e1 & He1 & Hrun).
  assert (Hw1 : w1 =
    let s := set_st_legs
               (upd_nth i (on_snd (entered a p1 pct n)) (st_legs (mem w)))
               (mem w) in
    {| mem := s; disk := Some s; trace := trace w ++ [e1] |})
    by (unfold w1; rewrite Hrun; reflexivity).
  assert (Hleg1 : nth_error (st_legs (mem w1)) i =
                  Some (k, entered a p1 pct n leg)).
  { rewrite Hw1. simpl. rewrite nth_error_upd_nth_same, Hleg. reflexivity. }
  assert (Hi1 : st_instrument (mem w1) = Some inst)
    by (rewrite Hw1; exact Hi).
  destruct (execute_exit_event env2 i p2 tag2 w1 c2 inst sz2 k
              (entered a p1 pct n leg) a Hc2 Hi1 Hsz2 Hleg1 Ha)
    as (e2 & He2 & Htr).
  exists e1, e2. split; [|split; [|split]].
  - fold w2 in Htr. rewrite Htr, Hw1. simpl. rewrite <- app_assoc. reflexivity.
  - exact He1.
  - exact He2.
  - intros Hq. rewrite He2, He1. unfold mirror, entry_request. simpl.
    f_equal. rewrite <- !Z.mul_assoc. rewrite Hq. reflexivity.
Qed.

Lemma exit_order_mirrors_entry_witness :
  let e := Sample.env_of (Sample.at_time 11 0) (Sample.settings false (9, 16) 5)
             (Some 300%float) None (Some "A1") in
  let w := Sample.world_of ACTIVE (Sample.leg BUY WAITING_ENTRY 0 0 0) in
  let w1 := snd (execute_entry e 0 300%float "ENTRY_1" w) in
  let w2 := snd (execute_exit e 0 230%float "SL_HIT" w1) in
  exists e1 e2,
    trace w2 = (trace w ++ [e1; e2])%list /\
    order_of e1 = entry_request (Sample.settings false (9, 16) 5) 15 BUY
                    (Sample.leg BUY WAITING_ENTRY 0 0 0) /\
    order_of e2 = mirror (entry_request (Sample.settings false (9, 16) 5) 15 BUY
                            (Sample.leg BUY WAITING_ENTRY 0 0 0)) /\
    (1 * 15 = 1 * 15 -> order_of e2 = mirror (order_of e1)).
Proof.
  intros e w.
  apply (exit_order_mirrors_entry e e 0%nat 300%float 230%float
           "ENTRY_1" "SL_HIT" w
           {| is_running := true;
              strategy_settings := Sample.settings false (9, 16) 5 |}
           {| is_running := true;
              strategy_settings := Sample.settings false (9, 16) 5 |}
           "NIFTY BANK" 15 15 "sp10ce"
           (Sample.leg BUY WAITING_ENTRY 0 0 0) BUY 20%float 0).
  - reflexivity.
  - reflexivity.
  - reflexivity.
  - reflexivity.
  - reflexivity.
  - reflexivity.
  - reflexivity.
  - reflexivity.
  - reflexivity.
  - right. reflexivity.
Defined.

(** ** What strike selection does to the legs *)

Lemma keys_assoc_set {V : Type} (k : string) (v : V) (d : list (string * V)) :
  exists extra, map fst (assoc_set k v d) = (map fst d ++ extra)%list.
Proof.
  induction d as [|[k' v'] d IH]; simpl.
  - exists [k]. reflexivity.
  - destruct (String.eqb k k'); simpl.
    + exists []. rewrite app_nil_r. reflexivity.
    + destruct IH as [extra IH]. exists extra. rewrite IH. reflexivity.
Qed.

(** X13. Strike selection never removes or moves a leg: the keys it leaves
    are the old keys in their order, with new ones after them; and every leg
    it leaves is an old leg untouched or a freshly selected one (waiting for
    its range, entry count zero).  This holds however the selection ends,
    also when it fails half-way through the legs. *)
Theorem select_strikes_keeps_or_selects (env : Env) (w : World) :
  let w1 := snd (select_strikes env w) in
  (exists extra,
      map fst (st_legs (mem w1)) = (map fst (st_legs (mem w)) ++ extra)%list) /\
  (forall kl, In kl (st_legs (mem w1)) ->
              In kl (st_legs (mem w)) \/ freshly_selected (snd kl)) /\
  (forall l, freshly_selected l ->
             status l = WAITING_RANGE /\ entries_count l = Some 0 /\
             exit_price l = None).
Proof.
  cbv zeta. split; [|split].
  - apply (preserves_snd
             (fun w' => exists extra,
                  map fst (st_legs (mem w')) =
                  (map fst (st_legs (mem w)) ++ extra)%list)).
    + apply select_strikes_stable.
      * intros v w' H. exact H.
      * intros k best details target w' [extra H]. simpl.
        destruct (keys_assoc_set k (selected_leg best details target)
                    (st_legs (mem w'))) as [extra' H'].
        exists (extra ++ extra')%list. rewrite H', H, app_assoc. reflexivity.
    + exists []. rewrite app_nil_r. reflexivity.
  - apply (preserves_snd
             (fun w' => forall kl, In kl (st_legs (mem w')) ->
                  In kl (st_legs (mem w)) \/ freshly_selected (snd kl))).
    + apply select_strikes_stable.
      * intros v w' H. exact H.
      * intros k best details target w' H kl Hin. simpl in Hin.
        apply In_assoc_set in Hin. destruct Hin as [Hin | Hin].
        -- apply H, Hin.
        -- right. exists best, details, target. exact Hin.
    + intros kl Hin. left. exact Hin.
  - intros l (best & details & target & ->). repeat split.
Qed.

(** ** The configuration lock of the API *)

Lemma assoc_get_set_same {V : Type} (k : string) (v : V) (d : list (string * V)) :
  assoc_get k (assoc_set k v d) = Some v.
Proof.
  induction d as [|[k' v'] d IH]; simpl.
  - rewrite String.eqb_refl. reflexivity.
  - destruct (String.eqb k k') eqn:E; simpl; rewrite E; auto.
Qed.

Lemma assoc_get_set_other {V : Type} (k k' : string) (v : V)
    (d : list (string * V)) :
  k' <> k -> assoc_get k' (assoc_set k v d) = assoc_get k' d.
Proof.
  intros Hne. induction d as [|[k0 v0] d IH]; simpl.
  - destruct (String.eqb_spec k' k); [contradiction | reflexivity].
  - destruct (String.eqb_spec k k0) as [-> | Hk]; simpl.
    + destruct (String.eqb_spec k' k0); [contradiction | reflexivity].
    + rewrite IH. reflexivity.
Qed.

(** X14. While the strategy is switched on, the settings cannot be
    replaced: after an accepted start request, every [POST /config] is
    refused with status 400 and leaves the file as it is, until a stop
    request is accepted; after that the next [POST /config] is accepted and
    the file holds exactly the posted settings.  Start and stop change the
    run flag and no other key.  A file that cannot be read is taken for the
    empty dict, on which [POST /config] fails with a [KeyError] and changes
    nothing. *)
Theorem config_locked_while_running (file : option Json)
    (config : list (string * Json)) :
  (accepted (start_strategy file) ->
   exists detail,
     post_config config (snd (start_strategy file)) =
     (inr (Http400 detail), snd (start_strategy file))) /\
  (accepted (stop_strategy file) ->
   post_config config (snd (stop_strategy file)) =
   (inl "Config updated", Some (JObj config))) /\
  (forall b k,
      k <> "is_running" ->
      json_item k (get_config (snd (set_is_running b file))) =
      json_item k (get_config file)) /\
  post_config config None = (inr (ApiKeyError "is_running"), None).
Proof.
  split; [|split; [|split]].
  - intros [a Ha]. unfold start_strategy, set_is_running, update_config in *.
    destruct (get_config file) as [| | | | | |d]; try discriminate Ha.
    simpl. unfold post_config. simpl. eexists.
    rewrite assoc_get_set_same. simpl. reflexivity.
  - intros [a Ha]. unfold stop_strategy, set_is_running, update_config in *.
    destruct (get_config file) as [| | | | | |d]; try discriminate Ha.
    simpl. unfold post_config. simpl. rewrite assoc_get_set_same. simpl.
    reflexivity.
  - intros b k Hk. unfold set_is_running, update_config.
    destruct (get_config file) as [| | | | | |d] eqn:Hf; simpl;
      try (rewrite Hf; reflexivity).
    rewrite assoc_get_set_other; auto.
  - reflexivity.
Qed.

Lemma config_locked_while_running_witness :
  let file := Some (JObj [("is_running", JBool false);
                          ("strategy_settings", JObj [("lots", JInt 1)])]) in
  exists detail,
    post_config [("is_running", JBool false)] (snd (start_strategy file)) =
    (inr (Http400 detail), snd (start_strategy file)).
Proof.
  intros file.
  apply (proj1 (config_locked_while_running file [("is_running", JBool false)])).
  exists "Strategy Started". reflexivity.
Defined.

(** ** Trading symbols *)

Lemma span_spec (p : ascii -> bool) (s : string) :
  s = fst (span p s) ++ snd (span p s) /\
  all_chars p (fst (span p s)) = true /\
  stops p (snd (span p s)).
Proof.
  induction s as [|c s IH]; simpl.
  - repeat split.
  - destruct (p c) eqn:Hc; simpl.
    + destruct IH as (H1 & H2 & H3). rewrite Hc, H2. rewrite <- H1. auto.
    + auto.
Qed.

Lemma span_app (p : ascii -> bool) (a b : string) :
  all_chars p a = true -> stops p b -> span p (a ++ b) = (a, b).
Proof.
  induction a as [|c a IH]; simpl; intros Ha Hb.
  - destruct b as [|c b]; simpl in *; [reflexivity|]. rewrite Hb. reflexivity.
  - apply andb_true_iff in Ha. destruct Ha as [Hc Ha].
    rewrite Hc, (IH Ha Hb). reflexivity.
Qed.

Lemma digit_not_upper (c : ascii) : is_digit c = true -> is_upper c = false.
Proof.
  unfold is_digit, is_upper. cbv zeta. intros H.
  apply andb_true_iff in H. destruct H as [_ H]. apply N.leb_le in H.
  apply andb_false_iff. left. apply N.leb_gt. lia.
Qed.

Lemma upper_not_digit (c : ascii) : is_upper c = true -> is_digit c = false.
Proof.
  unfold is_digit, is_upper. cbv zeta. intros H.
  apply andb_true_iff in H. destruct H as [H _]. apply N.leb_le in H.
  apply andb_false_iff. right. apply N.leb_gt. lia.
Qed.

Lemma stops_app (p q : ascii -> bool) (a b : string) :
  (forall c, q c = true -> p c = false) ->
  a <> EmptyString -> all_chars q a = true -> stops p (a ++ b).
Proof.
  intros Hpq Hne Ha. destruct a as [|c a]; [contradiction Hne; reflexivity|].
  simpl in *. apply andb_true_iff in Ha. apply Hpq, Ha.
Qed.

Lemma length_nonempty (s : string) (n : nat) :
  String.length s = S n -> s <> EmptyString.
Proof. intros H E. rewrite E in H. discriminate H. Qed.

Lemma option_suffix_spec (rest ty : string) :
  option_suffix rest = Some ty <->
  exists tail, (tail = EmptyString \/ tail = newline) /\
               rest = ty ++ tail /\ (ty = "CE" \/ ty = "PE").
Proof.
  unfold option_suffix. split.
  - destruct (String.eqb rest "CE" || String.eqb rest ("CE" ++ newline))
      eqn:Hc.
    { intros H. inversion H. subst ty. apply orb_true_iff in Hc.
      destruct Hc as [E | E]; apply String.eqb_eq in E; subst rest;
        [exists EmptyString | exists newline];
        (split; [auto | split; [reflexivity | auto]]). }
    destruct (String.eqb rest "PE" || String.eqb rest ("PE" ++ newline))
      eqn:Hp; [|discriminate].
    intros H. inversion H. subst ty. apply orb_true_iff in Hp.
    destruct Hp as [E | E]; apply String.eqb_eq in E; subst rest;
      [exists EmptyString | exists newline];
      (split; [auto | split; [reflexivity | auto]]).
  - intros (tail & [-> | ->] & -> & [-> | ->]); reflexivity.
Qed.

(** X15. On symbols whose characters all lie below code point 256 (the
    strings of this development; ASCII symbols in particular),
    [parse_tradingsymbol] answers a dict exactly for the strings the pattern
    describes, and the dict holds the parts of the string: a non-empty name
    of capital letters, two digits ["0"] to ["9"], three capital letters,
    one or more such digits, [CE] or [PE], and at most one final newline.
    In particular the decomposition of such a symbol is unique.  Nothing is
    said of symbols with characters beyond code point 255. *)
Theorem parse_tradingsymbol_meets_pattern (s : string) (r : Symbol) :
  parse_tradingsymbol s = Some r <-> matches_pattern s r.
Proof.
  unfold parse_tradingsymbol, matches_pattern. cbv zeta. split.
  - destruct (span_spec is_upper s) as (E1 & A1 & _).
    destruct (span_spec is_digit (snd (span is_upper s))) as (E2 & A2 & _).
    destruct (span_spec is_upper
                (snd (span is_digit (snd (span is_upper s)))))
      as (E3 & A3 & _).
    destruct (span_spec is_digit
                (snd (span is_upper
                        (snd (span is_digit (snd (span is_upper s)))))))
      as (E4 & A4 & _).
    destruct (option_suffix _) as [ty|] eqn:Hsuf; [|discriminate].
    apply option_suffix_spec in Hsuf.
    destruct Hsuf as (tail & Htail & Hrest & Hty).
    destruct (negb _ && _ && _ && _) eqn:Hc; [|discriminate].
    apply andb_true_iff in Hc. destruct Hc as [Hc H4].
    apply andb_true_iff in Hc. destruct Hc as [Hc H3].
    apply andb_true_iff in Hc. destruct Hc as [H1 H2].
    apply Nat.eqb_eq in H2, H3.
    apply negb_true_iff in H1, H4.
    intros H. inversion H. subst r. clear H. simpl.
    exists tail. repeat split; auto.
    + rewrite <- Hrest, <- E4, <- E3, <- E2. exact E1.
    + intros E. rewrite E in H1. discriminate H1.
    + intros E. rewrite E in H4. discriminate H4.
  - intros (tail & Htail & Hs & N1 & A1 & L2 & A2 & L3 & A3 & N4 & A4 & Hty & He).
    assert (S4 : stops is_digit (sym_type r ++ tail))
      by (destruct Hty as [-> | ->]; reflexivity).
    assert (S3 : stops is_upper (sym_strike r ++ sym_type r ++ tail))
      by (apply (stops_app is_upper is_digit); auto using digit_not_upper).
    assert (S2 : stops is_digit
                   (sym_month r ++ sym_strike r ++ sym_type r ++ tail)).
    { apply (stops_app is_digit is_upper); auto using upper_not_digit.
      apply (length_nonempty _ 2), L3. }
    assert (S1 : stops is_upper
                   (sym_year r ++ sym_month r ++ sym_strike r
                    ++ sym_type r ++ tail)).
    { apply (stops_app is_upper is_digit); auto using digit_not_upper.
      apply (length_nonempty _ 1), L2. }
    rewrite Hs.
    rewrite (span_app is_upper _ _ A1 S1). simpl.
    rewrite (span_app is_digit _ _ A2 S2). simpl.
    rewrite (span_app is_upper _ _ A3 S3). simpl.
    rewrite (span_app is_digit _ _ A4 S4). simpl.
    assert (Hsuf : option_suffix (sym_type r ++ tail) = Some (sym_type r))
      by (apply option_suffix_spec; exists tail; auto).
    rewrite Hsuf. rewrite L2, L3. simpl.
    destruct (String.eqb_spec (sym_name r) EmptyString); [contradiction|].
    destruct (String.eqb_spec (sym_strike r) EmptyString); [contradiction|].
    simpl. rewrite <- He. destruct r; reflexivity.
Qed.

Lemma parse_tradingsymbol_meets_pattern_witness :
  parse_tradingsymbol ("NIFTY26FEB25000PE" ++ newline) =
  Some {| sym_name := "NIFTY"; sym_year := "26"; sym_month := "FEB";
          sym_strike := "25000"; sym_type := "PE"; sym_expiry_str := "26FEB" |}.
Proof.
  apply (proj2 (parse_tradingsymbol_meets_pattern _ _)).
  exists newline. simpl.
  repeat split; first [reflexivity | discriminate | right; reflexivity].
Defined.

Lemma append_assoc_str (a b c : string) : (a ++ b) ++ c = a ++ b ++ c.
Proof. induction a as [|x a IH]; simpl; [reflexivity | rewrite IH; reflexivity]. Qed.

Lemma same_length_prefix (a b x y : string) :
  a ++ x = b ++ y -> String.length a = String.length b -> a = b.
Proof.
  revert b. induction a as [|c a IH]; intros [|d b]; simpl; intros H L;
    try discriminate L; [reflexivity|].
  inversion H. subst d. f_equal. apply IH; auto.
Qed.

Lemma digits_of_uint (d : Decimal.uint) :
  all_chars is_digit (NilEmpty.string_of_uint d) = true.
Proof. induction d; simpl; auto. Qed.

Lemma str_of_int_digits (n : Z) :
  0 <= n ->
  str_of_int n <> EmptyString /\ all_chars is_digit (str_of_int n) = true.
Proof.
  intros Hn. unfold str_of_int. destruct n as [|p|p]; [| |lia].
  - split; [discriminate | reflexivity].
  - simpl. unfold NilZero.string_of_uint.
    pose proof (digits_of_uint (Pos.to_uint p)) as Hd.
    destruct (Pos.to_uint p); simpl in *;
      (split; [discriminate | first [reflexivity | exact Hd]]).
Qed.

Lemma str_of_int_negative (n : Z) :
  n < 0 -> exists rest, str_of_int n = String "-" rest.
Proof.
  intros Hn. unfold str_of_int. destruct n as [|p|p]; try lia.
  simpl. eexists. reflexivity.
Qed.

(** X16. The symbol [get_token_for_strike] builds and the parser agree: for
    an instrument name of capital letters, an expiry of two digits and
    three capital letters, and a strike that is not negative, the built
    symbol parses back into its parts, [get_available_strikes] lists it
    under that expiry and option type, and [get_active_expiries] counts
    its expiry for that instrument.  A negative strike gives a symbol that
    never parses.  And any symbol that begins with the instrument and the
    expiry and parses at all has that name and that expiry, so the listing
    loses nothing by not comparing the name. *)
Theorem built_symbol_parses_back (instrument e ty : string) (strike : Z) :
  instrument <> EmptyString ->
  all_chars is_upper instrument = true ->
  expiry_shaped e ->
  (ty = "CE" \/ ty = "PE") ->
  (0 <= strike ->
   exists r,
     parse_tradingsymbol (target_symbol instrument strike ty e) = Some r /\
     sym_name r = instrument /\ sym_expiry_str r = e /\
     sym_strike r = str_of_int strike /\ sym_type r = ty /\
     lists_row e ty (target_symbol instrument strike ty e) = true /\
     expiry_of_row instrument (target_symbol instrument strike ty e) = Some e) /\
  (strike < 0 ->
   parse_tradingsymbol (target_symbol instrument strike ty e) = None) /\
  (forall rest r,
      parse_tradingsymbol (instrument ++ e ++ rest) = Some r ->
      sym_name r = instrument /\ sym_expiry_str r = e).
Proof.
  intros Hne Hup (yy & mon & -> & Ly & Dy & Lm & Um) Hty.
  assert (Nyy : yy <> EmptyString) by (apply (length_nonempty _ 1), Ly).
  assert (Nmon : mon <> EmptyString) by (apply (length_nonempty _ 2), Lm).
  assert (S1 : forall x, stops is_upper (yy ++ x))
    by (intros x; apply (stops_app is_upper is_digit);
        auto using digit_not_upper).
  assert (S2 : forall x, stops is_digit (mon ++ x))
    by (intros x; apply (stops_app is_digit is_upper);
        auto using upper_not_digit).
  split; [|split].
  - intros Hpos. destruct (str_of_int_digits strike Hpos) as [Nk Dk].
    assert (S3 : stops is_upper (str_of_int strike ++ ty))
      by (apply (stops_app is_upper is_digit); auto using digit_not_upper).
    assert (S4 : stops is_digit ty) by (destruct Hty as [-> | ->]; reflexivity).
    assert (Hsuf : option_suffix ty = Some ty)
      by (destruct Hty as [-> | ->]; reflexivity).
    assert (Hparse :
      parse_tradingsymbol (target_symbol instrument strike ty (yy ++ mon)) =
      Some {| sym_name := instrument; sym_year := yy; sym_month := mon;
              sym_strike := str_of_int strike; sym_type := ty;
              sym_expiry_str := yy ++ mon |}).
    { unfold parse_tradingsymbol, target_symbol. cbv zeta.
      rewrite append_assoc_str.
      rewrite (span_app is_upper _ _ Hup (S1 _)). simpl.
      rewrite (span_app is_digit _ _ Dy (S2 _)). simpl.
      rewrite (span_app is_upper _ _ Um S3). simpl.
      rewrite (span_app is_digit _ _ Dk S4). simpl.
      rewrite Hsuf, Ly, Lm. simpl.
      destruct (String.eqb_spec instrument EmptyString); [contradiction|].
      destruct (String.eqb_spec (str_of_int strike) EmptyString);
        [contradiction|].
      reflexivity. }
    eexists. split; [exact Hparse|]. simpl. repeat split.
    + unfold lists_row. rewrite Hparse. simpl. rewrite !String.eqb_refl.
      reflexivity.
    + unfold expiry_of_row. rewrite Hparse. simpl. rewrite String.eqb_refl.
      reflexivity.
  - intros Hneg. destruct (str_of_int_negative strike Hneg) as [rest Hk].
    unfold parse_tradingsymbol, target_symbol. cbv zeta.
    rewrite append_assoc_str, Hk.
    rewrite (span_app is_upper _ _ Hup (S1 _)). simpl.
    rewrite (span_app is_digit _ _ Dy (S2 _)). simpl.
    assert (S3 : stops is_upper (String "-" (rest ++ ty))) by reflexivity.
    rewrite (span_app is_upper mon (String "-" (rest ++ ty)) Um S3). simpl.
    reflexivity.
  - intros rest r. unfold parse_tradingsymbol. cbv zeta.
    rewrite append_assoc_str.
    rewrite (span_app is_upper _ _ Hup (S1 _)). simpl.
    rewrite (span_app is_digit _ _ Dy (S2 _)). simpl.
    destruct (span_spec is_upper (mon ++ rest)) as (E3 & _ & _).
    destruct (option_suffix _) as [t|]; [|discriminate].
    destruct (negb _ && _ && _ && _) eqn:Hc; [|discriminate].
    apply andb_true_iff in Hc. destruct Hc as [Hc _].
    apply andb_true_iff in Hc. destruct Hc as [_ H3].
    apply Nat.eqb_eq in H3.
    intros H. inversion H. simpl. split; [reflexivity|].
    f_equal. symmetry. apply (same_length_prefix _ _ _ _ E3). congruence.
Qed.

Lemma built_symbol_parses_back_witness :
  exists r,
    parse_tradingsymbol (target_symbol "BANKNIFTY" 59100 "CE" "26JAN") = Some r /\
    sym_name r = "BANKNIFTY" /\ sym_expiry_str r = "26JAN" /\
    sym_strike r = str_of_int 59100 /\ sym_type r = "CE" /\
    lists_row "26JAN" "CE" (target_symbol "BANKNIFTY" 59100 "CE" "26JAN") = true /\
    expiry_of_row "BANKNIFTY" (target_symbol "BANKNIFTY" 59100 "CE" "26JAN")
      = Some "26JAN".
Proof.
  apply (proj1 (built_symbol_parses_back "BANKNIFTY" "26JAN" "CE" 59100
                  ltac:(discriminate) eq_refl
                  (ex_intro _ "26"
                     (ex_intro _ "JAN"
                        (conj eq_refl
                           (conj eq_refl
                              (conj eq_refl (conj eq_refl eq_refl))))))
                  (or_introl eq_refl))).
  lia.
Defined.

(** ** Start-up *)

Lemma In_assoc_set_key {V : Type} (k : string) (v : V) (d : list (string * V))
    (x : string * V) :
  In x (assoc_set k v d) -> In x d \/ x = (k, v).
Proof.
  induction d as [|[k' v'] d IH]; simpl.
  - intros [<- | []]. auto.
  - destruct (String.eqb_spec k k') as [-> | Hk]; simpl.
    + intros [<- | H]; auto.
    + intros [<- | H]; auto. destruct (IH H); auto.
Qed.

Lemma key_in_assoc_set {V : Type} (k : string) (v : V) (d : list (string * V)) :
  In k (map fst (assoc_set k v d)).
Proof.
  induction d as [|[k' v'] d IH]; simpl.
  - auto.
  - destruct (String.eqb_spec k k') as [-> | Hk]; simpl; auto.
Qed.

Lemma with_placeholders_legs (items : list (string * LegConfig)) :
  forall legs kl,
    In kl (with_placeholders items legs) ->
    In kl legs \/
    exists details, In (fst kl, details) items /\
                    snd kl = placeholder_leg details.
Proof.
  unfold with_placeholders.
  induction items as [|[k d] items IH]; intros legs kl; simpl; auto.
  intros H. destruct (IH _ _ H) as [Hin | (d' & Hin & Hd)].
  - apply In_assoc_set_key in Hin. destruct Hin as [Hin | ->]; auto.
    right. exists d. simpl. auto.
  - right. exists d'. auto.
Qed.

Lemma with_placeholders_keeps_keys (items : list (string * LegConfig)) :
  forall legs k, In k (map fst legs) ->
                 In k (map fst (with_placeholders items legs)).
Proof.
  unfold with_placeholders.
  induction items as [|[k0 d] items IH]; intros legs k Hk; simpl; auto.
  apply IH. destruct (keys_assoc_set k0 (placeholder_leg d) legs) as [extra E].
  rewrite E. apply in_or_app. left. exact Hk.
Qed.

Lemma with_placeholders_keys (items : list (string * LegConfig)) :
  forall legs k d, In (k, d) items ->
                   In k (map fst (with_placeholders items legs)).
Proof.
  induction items as [|[k0 d0] items IH]; intros legs k d; simpl; [tauto|].
  intros [E | Hin].
  - inversion E. subst.
    apply (with_placeholders_keeps_keys items). apply key_in_assoc_set.
  - apply (IH _ k d Hin).
Qed.

Lemma for_each_placeholders (items : list (string * LegConfig)) :
  forall w,
    for_each items
      (fun item =>
         modify_state
           (fun s => set_st_legs
                       (assoc_set (fst item) (placeholder_leg (snd item))
                          (st_legs s)) s)) w =
    (Ok tt, {| mem := set_st_legs (with_placeholders items (st_legs (mem w)))
                        (mem w);
               disk := disk w; trace := trace w |}).
Proof.
  induction items as [|item items IH]; intros w; simpl.
  - unfold ret. destruct w as [[] ? ?]. reflexivity.
  - unfold bind, modify_state at 1. rewrite IH. reflexivity.
Qed.

(** X17. Start-up on a state without legs (no file, or a file saved after
    the daily reset) stores one placeholder per configured leg key and
    nothing else: every leg is the placeholder of a configured leg under
    its key, every configured key has a leg, file and trace are untouched,
    and since placeholders are dormant a monitoring round on the result
    changes nothing.  When the settings cannot be read, start-up fails with
    a [KeyError] after the file has replaced the memory. *)
Theorem startup_fills_empty_slots (env : Env) (w : World) :
  (env_config env = None ->
   startup env w =
   (Raise (KeyError "strategy_settings"),
    {| mem := loaded_state w; disk := disk w; trace := trace w |})) /\
  (forall c,
      env_config env = Some c ->
      st_legs (loaded_state w) = [] ->
      let items := cfg_legs (strategy_settings c) in
      let w1 := {| mem := set_st_legs (with_placeholders items [])
                            (loaded_state w);
                   disk := disk w; trace := trace w |} in
      startup env w = (Ok tt, w1) /\
      (forall kl, In kl (st_legs (mem w1)) ->
                  exists details, In (fst kl, details) items /\
                                  snd kl = placeholder_leg details) /\
      (forall k d, In (k, d) items -> In k (map fst (st_legs (mem w1)))) /\
      monitor_and_execute env w1 = (Ok tt, w1)).
Proof.
  split.
  - intros Hc. unfold startup, get_strategy_settings, loaded_state.
    rewrite Hc. mred. destruct (disk w) eqn:Hd; [reflexivity|].
    destruct w; simpl in *. subst. reflexivity.
  - intros c Hc Hlegs items w1.
    assert (Hph : forall kl, In kl (st_legs (mem w1)) ->
                  exists details, In (fst kl, details) items /\
                                  snd kl = placeholder_leg details).
    { intros kl Hin. simpl in Hin.
      destruct (with_placeholders_legs items [] kl Hin) as [[] | H]. exact H. }
    split; [|split; [exact Hph | split]].
    + assert (E : load_state w =
                  (Ok tt, {| mem := loaded_state w; disk := disk w;
                             trace := trace w |})).
      { unfold load_state, loaded_state.
        destruct (disk w) eqn:Hd; [reflexivity|].
        destruct w; simpl in *. subst. reflexivity. }
      unfold startup, get_strategy_settings. rewrite Hc.
      unfold bind, ret, get_state. rewrite E. cbn [mem].
      rewrite Hlegs. rewrite for_each_placeholders. cbn [mem disk trace].
      rewrite Hlegs. reflexivity.
    + intros k d Hin. simpl. apply (with_placeholders_keys items [] k d Hin).
    + unfold monitor_and_execute. mred. apply gather_idle.
      intros t Ht. apply in_map_iff in Ht. destruct Ht as (i & <- & _).
      apply check_leg_logic_dormant. intros leg Hleg. left.
      unfold leg_at in Hleg.
      destruct (nth_error (st_legs (mem w1)) i) as [kl|] eqn:Hn;
        [|discriminate].
      simpl in Hleg. inversion Hleg. subst leg.
      destruct (Hph kl (nth_error_In _ _ Hn)) as (d & _ & ->). reflexivity.
Qed.

Lemma startup_fills_empty_slots_witness :
  let cfg := Sample.settings true (9, 16) 5 in
  let e := Sample.env_of (Sample.at_time 9 0) cfg None None None in
  startup e fresh_world =
  (Ok tt,
   {| mem := set_st_legs
               [("sp10ce", placeholder_leg (Sample.leg_config BUY 5));
                ("sp10pe", placeholder_leg (Sample.leg_config BUY 1))]
               initial_state;
      disk := None; trace := [] |}).
Proof.
  intros cfg e.
  apply (proj2 (startup_fills_empty_slots e fresh_world)
           {| is_running := true; strategy_settings := cfg |}).
  - reflexivity.
  - reflexivity.
Defined.
